(** * mdv: the terminal markdown viewer's render engine

    A shallow embedding of [src/mdv/markdownviewer.py] and the properties
    its specification states about it.

    Conventions.  The module documents itself as a Python 2 program
    ("Sorry then for no Py3 support"), so the embedding follows Python 2:
    a [str] is a sequence of bytes ([list ascii]), [len] counts bytes,
    [dict.values()] is a list, and the whitespace characters are the six
    of [string.whitespace].  Python integers are [Z].  A raised exception
    is a value of [result].  Dictionaries whose iteration order the code
    observes ([themes], [admons]) are association lists in iteration order;
    the others are [gmap]s.  The order a dictionary iterates in after a key
    is added is the interpreter's and a parameter ([Python2]); the one
    step that Python 3 turns into an exception, the index into
    [values()] of the admonition handling, is modelled for both
    interpreters.  Collaborators that are not part of the module (the
    tokenizer behind [style_ansi], [tabulate], the markdown library, the
    random generator, the environment) are parameters. *)

From Stdlib Require Import List Ascii String ZArith Lia Bool Arith.
From stdpp Require Import gmap strings pretty.
Import ListNotations.

Set Default Proof Using "Type*".

Abbreviation str := (list ascii).

(** A string literal as a [str]. *)
Definition txt (s : string) : str := list_ascii_of_string s.

(** ** Exceptions *)

Inductive exn : Type := ValueError | IndexError | KeyError | TypeError.

(** The outcome of a call: a value, a raised exception, or [NoFuel] when a
    loop of the embedding was cut off before it ended (shown below not to
    happen). *)
Inductive result (A : Type) : Type :=
| Ok (a : A)
| Raise (e : exn)
| NoFuel.
Arguments Ok {A} a.
Arguments Raise {A} e.
Arguments NoFuel {A}.

Global Instance result_bind : MBind result := fun A B k r =>
  match r with
  | Ok a => k a
  | Raise e => Raise e
  | NoFuel => NoFuel
  end.

Global Instance result_ret : MRet result := fun A a => Ok a.

(** A [for] loop whose body may raise. *)
Fixpoint foldM {A B : Type} (f : A -> B -> result A) (a : A) (l : list B)
    : result A :=
  match l with
  | [] => Ok a
  | x :: r => a' ← f a x; foldM f a' r
  end.

(** ** Python primitives *)

Module Py.

Definition chr (n : nat) : ascii := ascii_of_nat n.

Definition TAB : ascii := chr 9.
Definition LF : ascii := chr 10.
Definition VT : ascii := chr 11.
Definition FF : ascii := chr 12.
Definition CR : ascii := chr 13.
Definition ESC : ascii := chr 27.
Definition SP : ascii := chr 32.

(** [string.whitespace] *)
Definition whitespace : str := [TAB; LF; VT; FF; CR; SP].

Definition isspace (c : ascii) : bool := existsb (Ascii.eqb c) whitespace.

Definition between (lo hi : nat) (c : ascii) : bool :=
  (lo <=? nat_of_ascii c) && (nat_of_ascii c <=? hi).

Definition is_digit (c : ascii) : bool := between 48 57 c.
Definition is_lower (c : ascii) : bool := between 97 122 c.
Definition is_upper (c : ascii) : bool := between 65 90 c.

Definition upper (c : ascii) : ascii :=
  if is_lower c then chr (nat_of_ascii c - 32) else c.
Definition lower (c : ascii) : ascii :=
  if is_upper c then chr (nat_of_ascii c + 32) else c.

(** [s.startswith(p)] *)
Fixpoint startswith (s p : str) {struct p} : bool :=
  match p, s with
  | [], _ => true
  | _ :: _, [] => false
  | b :: p', a :: s' => Ascii.eqb a b && startswith s' p'
  end.

(** [s.endswith(p)] *)
Definition endswith (s p : str) : bool := startswith (rev s) (rev p).

(** [sub in s] *)
Fixpoint contains (s sub : str) : bool :=
  startswith s sub ||
  match s with
  | [] => false
  | _ :: r => contains r sub
  end.

(** The first occurrence of a non-empty [sep] in [s]: the text before it
    and the text after it. *)
Fixpoint partition (s sep : str) : option (str * str) :=
  if startswith s sep then Some ([], skipn (length sep) s)
  else match s with
       | [] => None
       | c :: r =>
           match partition r sep with
           | Some (a, b) => Some (c :: a, b)
           | None => None
           end
       end.

(** [s.split(sep, 1)[0]] *)
Definition split1_head (s sep : str) : result str :=
  match sep with
  | [] => Raise ValueError
  | _ => match partition s sep with
         | Some (a, _) => Ok a
         | None => Ok s
         end
  end.

(** [s.split(sep, 1)[1]] *)
Definition split1_tail (s sep : str) : result str :=
  match sep with
  | [] => Raise ValueError
  | _ => match partition s sep with
         | Some (_, b) => Ok b
         | None => Raise IndexError
         end
  end.

(** [s.replace(old, new)]: leftmost, non-overlapping occurrences.  [skip]
    counts the characters of an occurrence still to be dropped. *)
Fixpoint replace_go (skip : nat) (old new s : str) : str :=
  match s with
  | [] => []
  | c :: r =>
      match skip with
      | S k => replace_go k old new r
      | O =>
          if startswith s old
          then new ++ replace_go (length old - 1) old new r
          else c :: replace_go 0 old new r
      end
  end.

Definition replace (s old new : str) : str :=
  match old with
  | [] => new ++ flat_map (fun c => c :: new) s
  | _ => replace_go 0 old new s
  end.

(** [sep.join(l)] *)
Fixpoint join (sep : str) (l : list str) : str :=
  match l with
  | [] => []
  | [x] => x
  | x :: r => x ++ sep ++ join sep r
  end.

(** [s.splitlines()] of a byte string: a line ends at LF, CR or CR LF, and
    no empty last line is reported.  [cur] is the line being read, in
    reverse; [after_cr] tells that the previous character was a CR. *)
Fixpoint splitlines_go (after_cr : bool) (cur : str) (s : str) : list str :=
  match s with
  | [] => match cur with [] => [] | _ => [rev cur] end
  | c :: r =>
      if Ascii.eqb c LF then
        if after_cr then splitlines_go false cur r
        else rev cur :: splitlines_go false [] r
      else if Ascii.eqb c CR then rev cur :: splitlines_go true [] r
      else splitlines_go false (c :: cur) r
  end.

Definition splitlines (s : str) : list str := splitlines_go false [] s.

(** [s.split('\n')] *)
Fixpoint split_nl_go (cur : str) (s : str) : list str :=
  match s with
  | [] => [rev cur]
  | c :: r =>
      if Ascii.eqb c LF then rev cur :: split_nl_go [] r
      else split_nl_go (c :: cur) r
  end.

Definition split_nl (s : str) : list str := split_nl_go [] s.

(** [s.ljust(w, ' ')] *)
Definition ljust (s : str) (w : nat) : str := s ++ repeat SP (w - length s).

(** [s * n] *)
Definition mul (s : str) (n : Z) : str := concat (repeat s (Z.to_nat n)).

(** A slice bound, as Python normalises it against a length. *)
Definition norm_index (n : nat) (i : Z) : nat :=
  if (i <? 0)%Z then Z.to_nat (Z.max 0 (i + Z.of_nat n))
  else Nat.min (Z.to_nat i) n.

(** [s[lo:hi]] *)
Definition slice (s : str) (lo hi : Z) : str :=
  let a := norm_index (length s) lo in
  let b := norm_index (length s) hi in
  firstn (b - a) (skipn a s).

(** [range(start, stop, step)] *)
Definition range_len (start stop step : Z) : nat :=
  if (0 <? step)%Z then Z.to_nat ((stop - start + step - 1) / step)
  else if (step <? 0)%Z then Z.to_nat ((start - stop - step - 1) / (- step))
  else 0.

Definition range (start stop step : Z) : result (list Z) :=
  if (step =? 0)%Z then Raise ValueError
  else Ok (map (fun k => (start + Z.of_nat k * step)%Z)
               (seq 0 (range_len start stop step))).

Fixpoint dropwhile (f : ascii -> bool) (s : str) : str :=
  match s with
  | [] => []
  | c :: r => if f c then dropwhile f r else s
  end.

Fixpoint takewhile (f : ascii -> bool) (s : str) : str :=
  match s with
  | [] => []
  | c :: r => if f c then c :: takewhile f r else []
  end.

(** [s.lstrip()], [s.rstrip()], [s.strip()] *)
Definition lstrip (s : str) : str := dropwhile isspace s.
Definition rstrip (s : str) : str := rev (dropwhile isspace (rev s)).
Definition strip (s : str) : str := rstrip (lstrip s).

(** [s.capitalize()] *)
Definition capitalize (s : str) : str :=
  match s with
  | [] => []
  | c :: r => upper c :: map lower r
  end.

(** [s.isdigit()] *)
Definition isdigit (s : str) : bool :=
  match s with
  | [] => false
  | _ => forallb is_digit s
  end.

(** [s.expandtabs()], tab stops every 8 columns; [col] is the column. *)
Fixpoint expandtabs_go (col : nat) (s : str) : str :=
  match s with
  | [] => []
  | c :: r =>
      if Ascii.eqb c TAB then
        let incr := 8 - col mod 8 in
        repeat SP incr ++ expandtabs_go (col + incr) r
      else if Ascii.eqb c LF || Ascii.eqb c CR then c :: expandtabs_go 0 r
      else c :: expandtabs_go (S col) r
  end.

Definition expandtabs (s : str) : str := expandtabs_go 0 s.

(** ['%s' % n] for an integer *)
Definition str_of_Z (n : Z) : str := txt (pretty n).

(** [l[i]] *)
Definition getitem {A : Type} (l : list A) (i : nat) : result A :=
  match nth_error l i with
  | Some x => Ok x
  | None => Raise IndexError
  end.

(** The last occurrence of a non-empty [sep] in [s]: the text before it
    and the text after it. *)
Definition rpartition (s sep : str) : option (str * str) :=
  match partition (rev s) (rev sep) with
  | Some (a, b) => Some (rev b, rev a)
  | None => None
  end.

(** [s.rsplit(sep, 1)[0]] *)
Definition rsplit1_head (s sep : str) : result str :=
  match sep with
  | [] => Raise ValueError
  | _ => match rpartition s sep with
         | Some (a, _) => Ok a
         | None => Ok s
         end
  end.

End Py.

(** ** The standard [textwrap] module of Python 2.7, as [rewrap] calls it *)

Module Textwrap.
Import Py.

Definition is_sp_tab (c : ascii) : bool := Ascii.eqb c SP || Ascii.eqb c TAB.

(** [_whitespace_only_re = '^[ \t]+$'] replaced by [''], on one line *)
Definition blank_line (l : str) : str := if forallb is_sp_tab l then [] else l.

(** The group of [_leading_whitespace_re] (blanks at the start of a line,
    followed by a character that is no blank and no newline) on one line:
    the leading blanks of a line that has something else. *)
Definition leading (l : str) : option str :=
  match dropwhile is_sp_tab l with
  | [] => None
  | _ :: _ => Some (takewhile is_sp_tab l)
  end.

Fixpoint common_prefix (a b : str) : str :=
  match a, b with
  | x :: a', y :: b' => if Ascii.eqb x y then x :: common_prefix a' b' else []
  | _, _ => []
  end.

(** One turn of [for indent in indents]. *)
Definition margin_step (margin : option str) (indent : str) : option str :=
  match margin with
  | None => Some indent
  | Some m =>
      if startswith indent m then Some m
      else if startswith m indent then Some indent
      else Some (common_prefix m indent)
  end.

(** [re.sub(r'(?m)^' + margin, '', text)], on one line *)
Definition unindent (margin l : str) : str :=
  if startswith l margin then skipn (length margin) l else l.

(** [textwrap.dedent(text)] *)
Definition dedent (text : str) : str :=
  let lines := map blank_line (split_nl text) in
  let indents := omap leading lines in
  match fold_left margin_step indents None with
  | Some (c :: m) => join [LF] (map (unindent (c :: m)) lines)
  | _ => join [LF] lines
  end.

(** [TextWrapper._munge_whitespace]: [expand_tabs] and
    [replace_whitespace] are on. *)
Definition munge_whitespace (text : str) : str :=
  map (fun c => if isspace c then SP else c) (expandtabs text).

(** Character classes of [wordsep_re] on a byte string. *)
Definition is_word (c : ascii) : bool :=
  is_digit c || is_lower c || is_upper c || Ascii.eqb c (chr 95).
Definition is_letter (c : ascii) : bool := is_word c && negb (is_digit c).
Definition is_punct (c : ascii) : bool := negb (isspace c) && negb (is_word c).
Definition is_hyphen (c : ascii) : bool := Ascii.eqb c (chr 45).
(** A word character or one of the seven marks ! , . ? & and the two
    quotes: the class of the look-behind. *)
Definition is_word_punct (c : ascii) : bool :=
  is_word c || existsb (Ascii.eqb c) (map chr [33; 34; 39; 38; 46; 44; 63]).

(** [\s+]: the length of the match at the head of [s], 0 for none. *)
Definition match_space (s : str) : nat := length (takewhile isspace s).

(** A hyphenated word: any marks, word characters the last of which is no
    digit, a hyphen, and ahead of it word characters and one that is no
    digit. *)
Definition match_hyphenated (s : str) : nat :=
  let p := takewhile is_punct s in
  let s1 := dropwhile is_punct s in
  let w := takewhile is_word s1 in
  match dropwhile is_word s1 with
  | h :: s2 =>
      if is_hyphen h && (2 <=? length w) && is_letter (List.last w SP)
         && existsb is_letter (skipn 1 (takewhile is_word s2))
      then length p + length w + 1
      else 0
  | [] => 0
  end.

(** Two or more hyphens after a character of [is_word_punct] and before a
    word character; [prev] is the character before. *)
Definition match_dash (prev : option ascii) (s : str) : nat :=
  let h := takewhile is_hyphen s in
  match prev, dropwhile is_hyphen s with
  | Some p, c :: _ =>
      if is_word_punct p && (2 <=? length h) && is_word c then length h else 0
  | _, _ => 0
  end.

(** [wordsep_re] at the head of [s]: the alternatives in order. *)
Definition match_wordsep (prev : option ascii) (s : str) : nat :=
  match match_space s with
  | S n => S n
  | O => match match_hyphenated s with
         | S n => S n
         | O => match_dash prev s
         end
  end.

Definition emit (cur : str) : list str :=
  match cur with
  | [] => []
  | _ => [rev cur]
  end.

(** [filter(None, wordsep_re.split(text))]: the separators and the text
    between them, empty pieces dropped.  [inmatch] counts the characters
    of the current separator still to come, [cur] is the current piece in
    reverse. *)
Fixpoint split_go (prev : option ascii) (inmatch : nat) (cur : str)
    (s : str) : list str :=
  match s with
  | [] => emit cur
  | c :: r =>
      match inmatch with
      | S O => rev (c :: cur) :: split_go (Some c) 0 [] r
      | S k => split_go (Some c) k (c :: cur) r
      | O =>
          match match_wordsep prev s with
          | O => split_go (Some c) 0 (c :: cur) r
          | S O => emit cur ++ [c] :: split_go (Some c) 0 [] r
          | S n => emit cur ++ split_go (Some c) n [c] r
          end
      end
  end.

(** [TextWrapper._split] *)
Definition split (text : str) : list str := split_go None 0 [] text.

(** [chunk.strip() == ''] *)
Definition blank (chunk : str) : bool := forallb isspace chunk.

(** The inner [while chunks] loop: chunks move to the line while they fit.
    Returns the line, its length and the chunks left. *)
Fixpoint take_fitting (width cur_len : nat) (chunks : list str)
    : list str * nat * list str :=
  match chunks with
  | [] => ([], cur_len, [])
  | c :: r =>
      if cur_len + length c <=? width then
        let '(line, n, rest) := take_fitting width (cur_len + length c) r in
        (c :: line, n, rest)
      else ([], cur_len, chunks)
  end.

(** [_handle_long_word] with [break_long_words] on; [width >= 1] here, so
    [space_left = width - cur_len]. *)
Definition handle_long_word (width cur_len : nat) (cur_line chunks : list str)
    : list str * list str :=
  match chunks with
  | c :: r =>
      let space_left := width - cur_len in
      (cur_line ++ [firstn space_left c], skipn space_left c :: r)
  | [] => (cur_line, chunks)
  end.

(** [if cur_line and cur_line[-1].strip() == '': del cur_line[-1]] *)
Definition drop_trailing_blank (cur_line : list str) : list str :=
  match rev cur_line with
  | c :: r => if blank c then rev r else cur_line
  | [] => cur_line
  end.

(** One turn of the outer [while chunks] loop of [_wrap_chunks]: the line
    built, if any, and the chunks left. *)
Definition wrap_line (width : nat) (first : bool) (chunks : list str)
    : option str * list str :=
  let chunks1 :=
    match chunks with
    | c :: r => if blank c && negb first then r else chunks
    | [] => chunks
    end in
  let '(cur_line, cur_len, chunks2) := take_fitting width 0 chunks1 in
  let '(cur_line, chunks3) :=
    match chunks2 with
    | c :: _ =>
        if width <? length c
        then handle_long_word width cur_len cur_line chunks2
        else (cur_line, chunks2)
    | [] => (cur_line, chunks2)
    end in
  match drop_trailing_blank cur_line with
  | [] => (None, chunks3)
  | l => (Some (concat l), chunks3)
  end.

Fixpoint wrap_chunks_go (fuel width : nat) (lines chunks : list str)
    : result (list str) :=
  match chunks with
  | [] => Ok lines
  | _ :: _ =>
      match fuel with
      | O => NoFuel
      | S fuel' =>
          let '(line, rest) :=
            wrap_line width (match lines with [] => true | _ => false end)
                      chunks in
          wrap_chunks_go fuel' width
            (match line with Some l => lines ++ [l] | None => lines end) rest
      end
  end.

(** Every turn of the outer loop removes a chunk or a character. *)
Fixpoint weight (chunks : list str) : nat :=
  match chunks with
  | [] => 0
  | c :: r => S (length c) + weight r
  end.

(** [TextWrapper._wrap_chunks] *)
Definition wrap_chunks (width : Z) (chunks : list str) : result (list str) :=
  if (width <=? 0)%Z then Raise ValueError
  else wrap_chunks_go (weight chunks) (Z.to_nat width) [] chunks.

(** [textwrap.wrap(text, width)] *)
Definition wrap (text : str) (width : Z) : result (list str) :=
  wrap_chunks width (split (munge_whitespace text)).

(** [textwrap.fill(text, width)] *)
Definition fill (text : str) (width : Z) : result str :=
  lines ← wrap text width; Ok (join [LF] lines).

End Textwrap.

(** ** The viewer *)

Module Mdv.
Import Py.

(** *** Config *)

Definition hr_sep : str := txt "─".
Definition txt_block_cut : str := txt "✂".
Definition code_pref : str := txt "| ".
Definition list_pref : str := txt "- ".
(** The end glyph of a rule, as the bytes the source file holds.  How long
    it is for [len] depends on the interpreter and on the kind of the text:
    3 as a Python 2 byte string, 1 as unicode text. *)
Definition hr_ends : str := txt "◈".
Definition left_indent : str := txt "  ".

(** Markers *)
Definition code_start : ascii := chr 7.
Definition code_end : ascii := chr 8.
Definition stng_start : ascii := chr 22.
Definition stng_end : ascii := chr 16.
Definition emph_start : ascii := chr 17.
Definition emph_end : ascii := chr 18.
Definition hr_marker : ascii := chr 21.

Definition reset_col : str := ESC :: txt "[0m".

(** [code_hl]: token category to the name of the global holding its
    colour. *)
Definition code_hl : list (str * str) :=
  [ (txt "Keyword", txt "CH3"); (txt "Name", txt "CH1");
    (txt "Comment", txt "L"); (txt "String", txt "CH4");
    (txt "Error", txt "R"); (txt "Number", txt "CH4");
    (txt "Operator", txt "CH5"); (txt "Generic", txt "CH2") ].

(** [admons] as the module defines it ([hint] is written three times in the
    literal and kept once). *)
Definition admons0 : list (str * str) :=
  [ (txt "note", txt "H3"); (txt "warning", txt "R");
    (txt "attention", txt "H1"); (txt "hint", txt "H4");
    (txt "summary", txt "H1"); (txt "question", txt "H5");
    (txt "danger", txt "R"); (txt "dev", txt "H5");
    (txt "caution", txt "H2") ].

(** The dictionaries of the interpreter that runs the module, as far as the
    engine observes them.  Python 2 iterates a dictionary in the order of
    its hash table, [values()] is a list in that order, and an assignment
    to a new key may change the order of all items: [rehash] gives the
    items in the order the table has after it.  On Python 3 [values()] is
    a view that has no items by index. *)
Inductive Python : Type :=
| Python2 (rehash : list (str * str) -> list (str * str))
| Python3.

(** The module's global variables that the render engine reads or writes,
    what it has printed, and the interpreter that runs it. *)
Record Globals : Type := mkGlobals {
  H1 : Z; H2 : Z; H3 : Z; H4 : Z; H5 : Z;
  CH1 : Z; CH2 : Z; CH3 : Z; CH4 : Z; CH5 : Z;
  R : Z; L : Z; BG : Z; BGL : Z; T : Z; TL : Z; C : Z;
  background : Z;
  term_columns : Z;
  have_pygments : bool;
  show_links : bool;
  code_hl_tokens : gmap str Z;
  admons : list (str * str);
  stdout : list str;
  python : Python
}.

(** The globals as the module sets them when it is loaded, for a terminal
    of [cols] columns, on a Python 2 whose dictionaries iterate a new key
    last. *)
Definition globals0 (cols : Z) (pygments : bool) : Globals :=
  {| H1 := 231; H2 := 153; H3 := 117; H4 := 109; H5 := 65;
     CH1 := 231; CH2 := 153; CH3 := 117; CH4 := 109; CH5 := 65;
     R := 124; L := 59; BG := 16; BGL := 188; T := 188; TL := 59; C := 102;
     background := 16;
     term_columns := cols;
     have_pygments := pygments;
     show_links := false;
     code_hl_tokens := ∅;
     admons := admons0;
     stdout := [];
     python := Python2 (fun items => items) |}.

Definition set_H (g : Globals) (c1 c2 c3 c4 c5 : Z) : Globals :=
  {| H1 := c1; H2 := c2; H3 := c3; H4 := c4; H5 := c5;
     CH1 := CH1 g; CH2 := CH2 g; CH3 := CH3 g; CH4 := CH4 g; CH5 := CH5 g;
     R := R g; L := L g; BG := BG g; BGL := BGL g; T := T g; TL := TL g;
     C := C g; background := background g; term_columns := term_columns g;
     have_pygments := have_pygments g; show_links := show_links g;
     code_hl_tokens := code_hl_tokens g; admons := admons g;
     stdout := stdout g; python := python g |}.

Definition set_CH (g : Globals) (c1 c2 c3 c4 c5 : Z) : Globals :=
  {| H1 := H1 g; H2 := H2 g; H3 := H3 g; H4 := H4 g; H5 := H5 g;
     CH1 := c1; CH2 := c2; CH3 := c3; CH4 := c4; CH5 := c5;
     R := R g; L := L g; BG := BG g; BGL := BGL g; T := T g; TL := TL g;
     C := C g; background := background g; term_columns := term_columns g;
     have_pygments := have_pygments g; show_links := show_links g;
     code_hl_tokens := code_hl_tokens g; admons := admons g;
     stdout := stdout g; python := python g |}.

Definition set_code_hl_tokens (g : Globals) (m : gmap str Z) : Globals :=
  {| H1 := H1 g; H2 := H2 g; H3 := H3 g; H4 := H4 g; H5 := H5 g;
     CH1 := CH1 g; CH2 := CH2 g; CH3 := CH3 g; CH4 := CH4 g; CH5 := CH5 g;
     R := R g; L := L g; BG := BG g; BGL := BGL g; T := T g; TL := TL g;
     C := C g; background := background g; term_columns := term_columns g;
     have_pygments := have_pygments g; show_links := show_links g;
     code_hl_tokens := m; admons := admons g;
     stdout := stdout g; python := python g |}.

Definition set_admons (g : Globals) (a : list (str * str)) : Globals :=
  {| H1 := H1 g; H2 := H2 g; H3 := H3 g; H4 := H4 g; H5 := H5 g;
     CH1 := CH1 g; CH2 := CH2 g; CH3 := CH3 g; CH4 := CH4 g; CH5 := CH5 g;
     R := R g; L := L g; BG := BG g; BGL := BGL g; T := T g; TL := TL g;
     C := C g; background := background g; term_columns := term_columns g;
     have_pygments := have_pygments g; show_links := show_links g;
     code_hl_tokens := code_hl_tokens g; admons := a;
     stdout := stdout g; python := python g |}.

(** The same globals under another interpreter. *)
Definition on_python (g : Globals) (p : Python) : Globals :=
  {| H1 := H1 g; H2 := H2 g; H3 := H3 g; H4 := H4 g; H5 := H5 g;
     CH1 := CH1 g; CH2 := CH2 g; CH3 := CH3 g; CH4 := CH4 g; CH5 := CH5 g;
     R := R g; L := L g; BG := BG g; BGL := BGL g; T := T g; TL := TL g;
     C := C g; background := background g; term_columns := term_columns g;
     have_pygments := have_pygments g; show_links := show_links g;
     code_hl_tokens := code_hl_tokens g; admons := admons g;
     stdout := stdout g; python := p |}.

(** [print(s)] *)
Definition print (g : Globals) (s : str) : Globals :=
  {| H1 := H1 g; H2 := H2 g; H3 := H3 g; H4 := H4 g; H5 := H5 g;
     CH1 := CH1 g; CH2 := CH2 g; CH3 := CH3 g; CH4 := CH4 g; CH5 := CH5 g;
     R := R g; L := L g; BG := BG g; BGL := BGL g; T := T g; TL := TL g;
     C := C g; background := background g; term_columns := term_columns g;
     have_pygments := have_pygments g; show_links := show_links g;
     code_hl_tokens := code_hl_tokens g; admons := admons g;
     stdout := stdout g ++ [s]; python := python g |}.

(** The colour variables by name. *)
Definition colours : list (str * (Globals -> Z)) :=
  [ (txt "H1", H1); (txt "H2", H2); (txt "H3", H3); (txt "H4", H4);
    (txt "H5", H5); (txt "CH1", CH1); (txt "CH2", CH2); (txt "CH3", CH3);
    (txt "CH4", CH4); (txt "CH5", CH5); (txt "R", R); (txt "L", L);
    (txt "BG", BG); (txt "BGL", BGL); (txt "T", T); (txt "TL", TL);
    (txt "C", C) ].

(** [d.get(k)] on a dictionary kept in iteration order. *)
Fixpoint dict_get {V : Type} (d : list (str * V)) (k : str) : option V :=
  match d with
  | [] => None
  | (k', v) :: r => if decide (k' = k) then Some v else dict_get r k
  end.

(** [d[k] = v] on the items of a dictionary: the value of a key that is
    there is replaced, a new key is added.  Where the new key comes in the
    iteration is the interpreter's matter (see [Python]). *)
Fixpoint dict_set {V : Type} (d : list (str * V)) (k : str) (v : V)
    : list (str * V) :=
  match d with
  | [] => [(k, v)]
  | (k', v') :: r =>
      if decide (k' = k) then (k, v) :: r else (k', v') :: dict_set r k v
  end.

(** [d[k]] *)
Definition dict_item {V : Type} (d : list (str * V)) (k : str) : result V :=
  match dict_get d k with
  | Some v => Ok v
  | None => Raise KeyError
  end.

(** [globals()[name]], for the names the engine looks up: the colour
    variables. *)
Definition globals_item (g : Globals) (name : str) : result Z :=
  f ← dict_item colours name; Ok (f g).

(** [globals()['H%s' % n]] *)
Definition heading_colour (g : Globals) (n : Z) : result Z :=
  globals_item g (txt "H" ++ str_of_Z n).

(** *** Colouring *)

(** [col('', c, no_reset=1)]: the empty text holds no marker, so this is the
    bare colour sequence. *)
Definition col_seq (c : Z) : str := ESC :: txt "[38;5;" ++ str_of_Z c ++ txt "m".

(** One turn of the loop of [col] over the marker pairs. *)
Definition col_markers (c : Z) (s : str) (m : ascii * ascii * Z) : str :=
  let '(_strt, _end, _col) := m in
  if contains s [_strt]
  then replace (replace s [_strt] (col_seq _col)) [_end] (col_seq c)
  else s.

(** [col(s, c, no_reset=no_reset)] *)
Definition col (g : Globals) (s : str) (c : Z) (no_reset : bool) : str :=
  let reset := if no_reset then [] else reset_col in
  let s := fold_left (col_markers c)
             [ (code_start, code_end, H2 g); (stng_start, stng_end, H2 g);
               (emph_start, emph_end, H3 g) ] s in
  col_seq c ++ s ++ reset.

Definition low (g : Globals) (s : str) : str := col g s (L g) false.
Definition plain (g : Globals) (s : str) : str := col g s (T g) false.

(** [clean_ansi(s)]: every match of [\x1b[^m]*m] removed.  A match runs from
    an ESC to the next [m]; [skipping] tells that the scan is inside one. *)
Fixpoint clean_go (skipping : bool) (s : str) : str :=
  match s with
  | [] => []
  | c :: r =>
      if skipping then clean_go (negb (Ascii.eqb c "m")) r
      else if Ascii.eqb c ESC && existsb (Ascii.eqb "m"%char) r
           then clean_go true r
           else c :: clean_go false r
  end.

Definition clean_ansi (s : str) : str := clean_go false s.

(** *** Themes *)

(** An entry of the theme catalog, [ansi_tables.json]. *)
Record Theme : Type := mkTheme { name : str; ct : list Z }.

(** [build_hl_by_token()]; a token type is named by its attribute name in
    [pygments.token]. *)
Definition build_hl_by_token (g : Globals) : result Globals :=
  if negb (have_pygments g) then Ok g
  else
    foldM (fun (g : Globals) (kc : str * str) =>
              c ← globals_item g kc.2;
              Ok (set_code_hl_tokens g (<[kc.1 := c]> (code_hl_tokens g))))
           g code_hl.

(** [random.randint(a, b)]; [rand] is what the generator draws. *)
Definition randint (rand a b : Z) : result Z :=
  if (b <? a)%Z then Raise ValueError else Ok (a + rand mod (b - a + 1))%Z.

(** The table [dec] of [set_theme]. *)
Record Decision : Type := mkDecision {
  dflt : option str;
  on_dflt : option str;
  env_keys : list str
}.

Definition dec (for_code : bool) : Decision :=
  if for_code
  then {| dflt := Some (txt "default"); on_dflt := None;
          env_keys := [txt "MDV_CODE_THEME"; txt "AXC_CODE_THEME"] |}
  else {| dflt := None; on_dflt := Some (txt "random");
          env_keys := [txt "MDV_THEME"; txt "AXC_THEME"] |}.

(** The loop over [dec['env']]: the first variable that is set and not
    empty. *)
Fixpoint env_theme (env : gmap str str) (keys : list str) : option str :=
  match keys with
  | [] => None
  | k :: r =>
      match env !! k with
      | Some (c :: ek) => Some (c :: ek)
      | _ => env_theme env r
      end
  end.

(** The name [set_theme] looks up in the catalog: [Ok None] when it returns
    before the lookup. *)
Definition theme_key (env : gmap str str) (themes : list (str * Theme))
    (rand : Z) (theme : option str) (for_code : bool)
    : result (option str) :=
  let d := dec for_code in
  let theme :=
    if decide (theme = dflt d)
    then match env_theme env (env_keys d) with
         | Some ek => Some ek
         | None => theme
         end
    else theme in
  let theme := if decide (theme = dflt d) then on_dflt d else theme in
  match theme with
  | None | Some [] => Ok None
  | Some theme =>
      if decide (theme = txt "random") then
        rand ← randint rand 0 (Z.of_nat (length themes) - 1);
        k ← getitem (map fst themes) (Z.to_nat rand);
        Ok (Some k)
      else Ok (Some theme)
  end.

(** The [try] block of [set_theme]; the globals are returned also when it
    raises. *)
Definition set_theme_try (env : gmap str str) (themes : list (str * Theme))
    (rand : Z) (theme : option str) (for_code theme_info : bool)
    (g : Globals) : result unit * Globals :=
  match theme_key env themes rand theme for_code with
  | Raise e => (Raise e, g)
  | NoFuel => (NoFuel, g)
  | Ok None => (Ok tt, g)
  | Ok (Some theme) =>
      match dict_get themes theme with
      | None => (Ok tt, g)
      | Some t =>
          if negb (length (ct t) =? 5) then (Ok tt, g)
          else
            let _for := if for_code then txt " (code)" else [] in
            let g :=
              if theme_info
              then print g (low g (txt "theme" ++ _for ++ txt ": " ++ theme
                                   ++ txt " (" ++ name t ++ txt ")"))
              else g in
            match ct t with
            | [t0; t1; t2; t3; t4] =>
                if for_code then (Ok tt, set_CH g t0 t1 t2 t3 t4)
                else (Ok tt, set_H g t0 t1 t2 t3 t4)
            | _ => (Raise IndexError, g)
            end
      end
  end.

(** [set_theme(theme, for_code, theme_info)]: the [try] block, then the
    [finally] clause. *)
Definition set_theme (env : gmap str str) (themes : list (str * Theme))
    (rand : Z) (theme : option str) (for_code theme_info : bool)
    (g : Globals) : result unit * Globals :=
  let '(r, g) := set_theme_try env themes rand theme for_code theme_info g in
  if for_code then
    match build_hl_by_token g with
    | Ok g' => (r, g')
    | Raise e => (Raise e, g)
    | NoFuel => (NoFuel, g)
    end
  else (r, g).

(** *** Text reflow *)

(** [rewrap(el, t, ind, pref)]; of [el] only the tag is read. *)
Definition rewrap (g : Globals) (tag t ind pref : str) : result str :=
  let cols := Z.max (term_columns g - Z.of_nat (length (ind ++ pref))) 5 in
  if bool_decide (tag = txt "code") || (Z.of_nat (length t) <=? cols)%Z
  then Ok t
  else if startswith t [chr 2] && endswith t [chr 3] then Ok t
  else
    let dedented := strip (Textwrap.dedent t) in
    Textwrap.fill dedented cols.

(** *** Splitting a wide table *)

(** [l[i] = x] *)
Definition setitem {A : Type} (l : list A) (i : nat) (x : A)
    : result (list A) :=
  if i <? length l then Ok (<[i := x]> l) else Raise IndexError.

(** [borders(t)]: [t[0] = t[-1] = low(t[0].replace('-', '─'))] *)
Definition borders (g : Globals) (t : list str) : result (list str) :=
  t0 ← getitem t 0;
  let b := low g (replace t0 (txt "-") hr_sep) in
  t ← setitem t 0 b;
  setitem t (length t - 1) b.

(** The parts of one line in [split_blocks]: the first of full width, the
    others behind the cut mark. *)
Definition split_line (g : Globals) (w : nat) (cols : Z) (line : str)
    : result (list str) :=
  let line := ljust line w in
  let scols := (cols - 2)%Z in
  starts ← range cols (Z.of_nat (length line)) scols;
  Ok (slice line 0 cols ::
      map (fun i => SP :: col g txt_block_cut (L g) true
                       ++ slice line i (i + scols)) starts).

(** One block: the parts number [block_part_nr] of all lines. *)
Definition block (g : Globals) (ts : list (list str)) (block_part_nr : nat)
    : result str :=
  tpart ← foldM (fun tpart lines_block =>
                   p ← getitem lines_block block_part_nr;
                   Ok (tpart ++ [p])) [] ts;
  tpart ← borders g tpart;
  t1 ← getitem tpart 1;
  tpart ← setitem tpart 1 (col g t1 (H3 g) false);
  Ok (join [LF] tpart).

(** [split_blocks(text_block, w, cols, part_fmter=borders)] *)
Definition split_blocks (g : Globals) (text_block : str) (w : nat) (cols : Z)
    : result str :=
  ts ← foldM (fun ts line => parts ← split_line g w cols line;
                             Ok (ts ++ [parts]))
             [] (splitlines text_block);
  ts0 ← getitem ts 0;
  blocks ← foldM (fun blocks nr => b ← block g ts nr; Ok (blocks ++ [b]))
                 [] (seq 0 (length ts0));
  Ok (LF :: join [LF] blocks ++ [LF]).

(** *** Tag formatter functions and the branches of [formatter] *)

Section Engine.

(** [style_ansi(raw_code, lang)], which runs the tokenizer, and
    [tabulate(rows)]. *)
Variable style_ansi : str -> option str -> str.
Variable tabulate : list (list str) -> str.

(** [Tags.h(s, level)] *)
Definition Tags_h (g : Globals) (s : str) (level : Z) : result str :=
  c ← heading_colour g level;
  Ok (LF :: low g (mul (txt "#") 0) ++ col g s c false).

(** [Tags.hr(s, hir=hir)] *)
Definition Tags_hr (g : Globals) (hir : Z) : result str :=
  let ind := mul left_indent (hir - 1) in
  c ← heading_colour g hir;
  let e := col g hr_ends c false in
  Ok (low g (LF :: ind ++ e ++ [hr_marker] ++ e ++ ind ++ [LF])).

(** [Tags.code(s, hir=hir, lang=lang)] *)
Definition Tags_code (g : Globals) (s : str) (hir : Z) (lang : option str)
    : str :=
  let raw_code := replace s (txt ":-") (chr 1 :: txt "--") in
  let s := if have_pygments g then style_ansi raw_code lang else s in
  let ind := mul [SP] hir in
  let firstl := hd [] (split_nl s) in
  let del_spaces := repeat SP (length firstl - length (lstrip firstl)) in
  let s := skipn 1 (replace (LF :: s) (LF :: del_spaces) [LF]) in
  let code_lines := splitlines (LF :: s) in
  let prefix := LF :: ind ++ low g code_pref ++ [SP] ++ col g [] (C g) true in
  let code := join prefix code_lines in
  let code := replace code (chr 1 :: txt "--") (txt ":-") in
  code ++ [LF] ++ reset_col.

Definition header_tags : list str :=
  map txt ["h1"; "h2"; "h3"; "h4"; "h5"; "h6"; "h7"; "h8"]%string.

(** [getattr(tags, tag, plain)(s, hir=hir)] *)
Definition tag_fmt_func (g : Globals) (tag s : str) (hir : Z) : result str :=
  if bool_decide (tag = txt "h") then Raise TypeError
  else if bool_decide (tag = txt "h1") then Tags_h g s 1
  else if bool_decide (tag = txt "h2") then Tags_h g s 2
  else if bool_decide (tag = txt "h3") then Tags_h g s 3
  else if bool_decide (tag = txt "h4") then Tags_h g s 4
  else if bool_decide (tag = txt "h5") then Tags_h g s 5
  else if bool_decide (tag = txt "h6") then Tags_h g s 5
  else if bool_decide (tag = txt "h7") then Tags_h g s 5
  else if bool_decide (tag = txt "h8") then Tags_h g s 5
  else if bool_decide (tag = txt "p") then Ok (col g s (T g) false)
  else if bool_decide (tag = txt "a") then Ok (col g s (L g) false)
  else if bool_decide (tag = txt "hr") then Tags_hr g hir
  else if bool_decide (tag = txt "code") then Ok (Tags_code g s hir None)
  else Ok (plain g s).

(** The [hr] branch of [formatter]:
    [return out.append(tags.hr('', hir=hir))]. *)
Definition formatter_hr (g : Globals) (out : list str) (hir : Z)
    : result (list str) :=
  s ← Tags_hr g hir; Ok (out ++ [s]).

(** The loop [for k in admons] of the admonition handling: the first key
    that the text starts with. *)
Fixpoint find_admon (d : list (str * str)) (rest : str) : option str :=
  match d with
  | [] => None
  | (k, _) :: r => if startswith rest k then Some k else find_admon r rest
  end.

(** What the admonition handling of the text branch leaves behind. *)
Record Admon : Type := mkAdmon {
  ad_globals : Globals;
  ad_pref : str;
  ad_body_pref : str;
  ad_admon : str;
  ad_t : str
}.

(** The admonition handling of the text branch, from [admon = ''] to
    [t = t.split(k, 1)[1]]; [t] is the stripped text.  In
    [admons[k] = admons.values()[0]] the right side is evaluated first: on
    Python 2 it is the first value in the iteration order of the table, on
    Python 3 the index raises [TypeError]. *)
Definition admonition (g : Globals) (t : str) : result Admon :=
  if startswith t (txt "!!! ") then
    gk ← match find_admon (admons g) (skipn 4 t) with
         | Some (c :: k) => Ok (g, c :: k)
         | _ =>
             k ← split1_head (skipn 4 t) [SP];
             match python g with
             | Python2 rehash =>
                 v ← getitem (map snd (admons g)) 0;
                 Ok (set_admons g (rehash (dict_set (admons g) k v)), k)
             | Python3 => Raise TypeError
             end
         end;
    let '(g, k) := gk in
    let body_pref := txt "┃ " in
    let pref := body_pref ++ capitalize k in
    t ← split1_tail t k;
    Ok (mkAdmon g pref body_pref k t)
  else Ok (mkAdmon g [] [] [] t).

(** [out[-1] += s] *)
Definition append_last (out : list str) (s : str) : result (list str) :=
  match rev out with
  | [] => Raise IndexError
  | x :: r => Ok (rev r ++ [x ++ s])
  end.

(** The text branch of [formatter] from [t = t.strip()] on.  [t] is the
    text taken from the element, [el_pref] its [pref] attribute, [links]
    its [src] and [href] attributes in that order, [parent_li] tells that
    the parent is an [li] element without text. *)
Definition formatter_text (g : Globals) (out : list str) (tag t el_pref : str)
    (links : list str) (hir : Z) (parent_li : bool)
    : result (Globals * list str) :=
  let t := strip t in
  a ← admonition g t;
  let g := ad_globals a in
  let admon := ad_admon a in
  let t := ad_t a in
  let '(pref, body_pref) :=
    match el_pref with
    | [] => (ad_pref a, ad_body_pref a)
    | _ => (el_pref, repeat SP (length el_pref))
    end in
  let ind := mul left_indent hir in
  let '(ind, hir) :=
    if bool_decide (tag ∈ header_tags)
    then let hl := Z.of_nat (nat_of_ascii (nth 1 tag "0"%char) - 48) in
         (mul [SP] (hl - 1), (hir + hl)%Z)
    else (ind, hir) in
  t ← rewrap g tag t ind pref;
  '(out, pref, body_pref) ←
    match admon with
    | [] => Ok (out, pref, body_pref)
    | _ =>
        cname ← dict_item (admons g) admon;
        c ← globals_item g cname;
        Ok (out ++ [[LF]], col g pref c false, col g body_pref c false)
    end;
  pref ←
    match pref with
    | [] => Ok pref
    | _ =>
        h ← heading_colour g ((hir - 2) mod 5 + 1);
        if bool_decide (pref = list_pref) then Ok (col g pref h false)
        else
          n ← split1_head pref (txt ".");
          if isdigit n then Ok (col g pref h false) else Ok pref
    end;
  let t := join (LF :: ind ++ body_pref) (splitlines t) in
  let t := ind ++ pref ++ t in
  out ←
    (if parent_li && bool_decide (tag = txt "p") then
       _out ← tag_fmt_func g tag (lstrip t) hir;
       append_last out _out
     else
       s ← tag_fmt_func g tag t hir;
       Ok (out ++ [s]));
  out ←
    (if show_links g then
       foldM (fun out l =>
                append_last out (low g (txt "(" ++ l ++ txt ") ")))
             out links
     else Ok out);
  match admon with
  | [] => Ok (g, out)
  | _ => Ok (g, out ++ [[LF]])
  end.

(** The table branch of [formatter]; [t] holds the rendered cells, row by
    row. *)
Definition formatter_table (g : Globals) (out : list str)
    (t : list (list str)) (hir : Z) : result (list str) :=
  let cols := term_columns g in
  let tbl := tabulate t in
  let w := length (hd [] (split_nl tbl)) in
  if (Z.of_nat w <=? cols)%Z then
    t ← borders g (splitlines tbl);
    let ind := hir in
    let tt := map (fun line => mul left_indent ind ++ line) t in
    Ok (out ++ tt)
  else
    let tc := map (map clean_ansi) t in
    let table := tabulate tc in
    s ← split_blocks g table w cols;
    Ok (out ++ [s]).

End Engine.

(** *** Sizing the rules *)

(** One turn of the first loop of [set_hr_widths]: [mw] and [hrs]. *)
Definition scan_line (acc : nat * list str) (line : str) : nat * list str :=
  let '(mw, hrs) := acc in
  if contains line [hr_marker] then (mw, hrs ++ [line])
  else if length line <? mw then (mw, hrs)
  else
    let l := length (clean_ansi line) in
    if mw <? l then (l, hrs) else (mw, hrs).

(** One turn of the second loop. *)
Definition size_hr (g : Globals) (mw : nat) (text hr : str) : result str :=
  let hcl := clean_ansi hr in
  tail ← split1_tail hcl [hr_marker];
  let ind := (Z.of_nat (length hcl) - Z.of_nat (length tail) - 1)%Z in
  let w := (Z.min (term_columns g) (Z.of_nat mw) - 2 * ind)%Z in
  let hrf := replace hr [hr_marker] (mul hr_sep w) in
  Ok (replace text hr hrf).

(** [set_hr_widths(result)]; the argument is called [text] here. *)
Definition set_hr_widths (g : Globals) (text : str) : result str :=
  if negb (contains text [hr_marker]) then Ok text
  else
    let '(mw, hrs) := fold_left scan_line (splitlines text) (0, []) in
    foldM (size_hr g mw) text hrs.

(** *** [main] *)

(** What a call of [main] reads and writes besides its arguments: the
    environment and the globals of the module. *)
Definition State : Type := gmap str str * Globals.

Section Main.

(** The arguments of [main] that only the steps below look into: [md],
    [filename], [cols], [bg], [c_no_guess], [display_links], [from_txt],
    [code_hilite], [c_def_lexer], [theme_info], [tab_length]. *)
Variable Rest : Type.

(** The arguments of [main] but [no_colors]. *)
Record Args : Type := mkArgs {
  a_theme : option str;
  a_c_theme : option str;
  a_do_html : bool;
  a_rest : Rest
}.

(** The catalog that [read_themes()] returns. *)
Variable themes : list (str * Theme).

(** The steps of [main] that are taken as they come.  None of them reads
    [no_colors].
    - [prepare]: from the start to the reading of the document (the
      default lexer, the user's configuration file, [md] read from the
      file or from the sample);
    - [sample]: the arguments with the sample document of the theme roller
      for one theme of the catalog, when no file is given
      ([args['md'] = md_sample.replace(you_like, yl)]);
    - [configure]: from [if cols:] to the note about pygments (the terminal
      width, [show_links], the background, the two calls of [set_theme]);
    - [convert]: the document converted by the markdown library with the
      extension of this module; gives [the_html];
    - [finish]: from [ansi = MD.ansi] to the [-f] feature: the rendered
      text with the raw blocks put back, cut to the part asked for.
    Each of them may raise, and leaves the state it made. *)
Variable prepare : Rest -> State -> result State.
Variable sample : Rest -> str -> Theme -> Rest.
Variable configure : option str -> option str -> Rest -> State -> result State.
Variable convert : Rest -> State -> result (str * State).
Variable finish : Rest -> State -> result (str * State).

(** The arguments of the call the theme roller makes for the theme [k]:
    [args['theme'] = k] when the text themes are rolled, else
    [args['c_theme'] = k]. *)
Definition roller_args (a : Args) (k : str) (v : Theme) : Args :=
  if bool_decide (a_theme a = Some (txt "all"))
  then mkArgs (Some k) (a_c_theme a) (a_do_html a) (sample (a_rest a) k v)
  else mkArgs (a_theme a) (Some k) (a_do_html a) (sample (a_rest a) k v).

(** [main(..., no_colors=no_colors)]: the string it returns and the state
    it leaves.  What it prints is left out.  The recursion of the theme
    roller is cut off by [fuel]. *)
Fixpoint main (fuel : nat) (a : Args) (no_colors : bool) (st : State)
    : result (str * State) :=
  match fuel with
  | O => NoFuel
  | S fuel =>
      st ← prepare (a_rest a) st;
      if bool_decide (a_c_theme a = Some (txt "all"))
         || bool_decide (a_theme a = Some (txt "all"))
      then
        let '(env, g) := st in
        let env :=
          if bool_decide (a_c_theme a = Some (txt "all"))
          then <[txt "AXC_CODE_THEME" := []]>
                 (<[txt "MDV_CODE_THEME" := []]> env)
          else env in
        let env :=
          if bool_decide (a_theme a = Some (txt "all"))
          then <[txt "AXC_THEME" := []]> (<[txt "MDV_THEME" := []]> env)
          else env in
        st ← foldM (fun st kv =>
                      r ← main fuel (roller_args a kv.1 kv.2) no_colors st;
                      Ok r.2)
                   (env, g) themes;
        Ok ([], st)
      else
        st ← configure (a_theme a) (a_c_theme a) (a_rest a) st;
        '(the_html, st) ← convert (a_rest a) st;
        if a_do_html a then Ok (the_html, st)
        else
          '(ansi, st) ← finish (a_rest a) st;
          sized ← set_hr_widths st.2 ansi;
          let ansi := sized ++ [LF] in
          if no_colors then Ok (clean_ansi ansi, st)
          else Ok (ansi ++ [LF], st)
  end.

End Main.

Arguments mkArgs {Rest} _ _ _ _.
Arguments a_theme {Rest} _.
Arguments a_c_theme {Rest} _.
Arguments a_do_html {Rest} _.
Arguments a_rest {Rest} _.
Arguments roller_args {Rest} _ _ _ _.
Arguments main {Rest} _ _ _ _ _ _ _ _ _ _.

(** *** The inline tags *)

Definition inline_tags : list (str * ascii * ascii) :=
  [ (txt "code", code_start, code_end);
    (txt "strong", stng_start, stng_end);
    (txt "em", emph_start, emph_end) ].

(** One turn of the loop [for tg, start, end in ...] of the text branch. *)
Definition encode_tag (t : str) (m : str * ascii * ascii) : str :=
  let '(tg, start, end_) := m in
  let t := replace t (txt "<" ++ tg ++ txt ">") [start] in
  replace t (txt "</" ++ tg ++ txt ">") [end_].

(** The inline tags of a text turned into markers. *)
Definition encode_inline (t : str) : str := fold_left encode_tag inline_tags t.

(** *** Code with markdown in its docstrings *)

(** The double quote. *)
Definition dq : ascii := chr 34.

Definition code_mode : Z := 1.
Definition md_mode : Z := 2.

(** The lines that open a markdown block: three double quotes, three
    single quotes or [/*], each followed by an underscore. *)
Definition md_openers : list str :=
  [ [dq; dq; dq; "_"%char]; txt "'''_"; txt "/*_" ].

(** [block.append(line)]; [block] is the list in the last entry of
    [blocks]. *)
Definition block_append (blocks : list (Z * list str)) (line : str)
    : list (Z * list str) :=
  match rev blocks with
  | [] => blocks
  | (m, b) :: r => rev r ++ [(m, b ++ [line])]
  end.

(** The loop [while lines] of [do_code_hilite]; the result is [blocks]. *)
Fixpoint hilite_lines (what : str) (mode : Z) (mdstart : str)
    (blocks : list (Z * list str)) (lines : list str)
    : list (Z * list str) :=
  match lines with
  | [] => blocks
  | line :: lines =>
      if (mode =? code_mode)%Z && bool_decide (rstrip line ∈ md_openers) then
        let mdstart := slice (rstrip line) 0 (-1) in
        let mdstart :=
          if bool_decide (mdstart = txt "/*") then txt "*/" else mdstart in
        hilite_lines what md_mode mdstart (blocks ++ [(md_mode, [])]) lines
      else if negb (mode =? code_mode)%Z
              && bool_decide (rstrip line = mdstart) then
        if bool_decide (what = txt "doc") then blocks
        else hilite_lines what code_mode mdstart
                          (blocks ++ [(code_mode, [])]) lines
      else if (mode =? code_mode)%Z then
        if bool_decide (what ∈ [txt "all"; txt "code"])
        then hilite_lines what mode mdstart (block_append blocks line) lines
        else hilite_lines what mode mdstart blocks lines
      else
        if negb (bool_decide (what = txt "code"))
        then hilite_lines what mode mdstart (block_append blocks line) lines
        else hilite_lines what mode mdstart blocks lines
  end.

(** One turn of the loop [for mode, block in blocks]. *)
Definition hilite_out (out : list str) (mb : Z * list str) : list str :=
  let '(mode, block) := mb in
  let b := join [LF] block in
  match b with
  | [] => out
  | _ :: _ =>
      if (mode =? code_mode)%Z
      then out ++ [txt "```" ++ [LF] ++ b ++ [LF] ++ txt "```"]
      else out ++ [join [LF] block]
  end.

(** [do_code_hilite(md, what)] *)
Definition do_code_hilite (md what : str) : str :=
  let what :=
    if bool_decide (what ∈ [txt "all"; txt "code"; txt "doc"; txt "mod"])
    then what else txt "all" in
  let blocks := [(code_mode, [])] in
  let lines := splitlines (LF :: md) in
  let mdstart := [chr 1] in
  let blocks := hilite_lines what code_mode mdstart blocks lines in
  join [LF] (fold_left hilite_out blocks []).

(** *** The text of a node *)

(** [is_text_node(el)]; [s] is [str(etree.tostring(el))], [tag] is
    [el.tag], and the result [(0, 0)] is [None]. *)
Definition is_text_node (s tag : str) : result (option str) :=
  t ← split1_tail s (txt "<" ++ tag);
  t ← split1_tail t (txt ">");
  html ← rsplit1_head t (txt ">");
  if negb (startswith html (txt "<")) then Ok (Some html)
  else if existsb (startswith html) [txt "<em>"; txt "<code>"; txt "<strong>"]
       then Ok (Some html)
       else Ok None.

Section Node.

(** [html_parser.unescape] *)
Variable unescape : str -> str.

(** The text branch of [formatter] from the call of [is_text_node] to
    [t = el.text]; [text] is [el.text or '']. *)
Definition node_text (s tag text : str) : result str :=
  r ← is_text_node s tag;
  match r with
  | Some html =>
      t ← rsplit1_head html (txt "<");
      Ok (unescape (encode_inline t))
  | None => Ok text
  end.

End Node.

(** *** The raw blocks put back *)

Section Stash.

(** [style_ansi], [html_parser.unescape] and the placeholder of block
    number [nr], [markdown.util.HTML_PLACEHOLDER % nr]. *)
Variable style_ansi : str -> option str -> str.
Variable unescape : str -> str.
Variable PH : Z -> str.

(** One turn of the loop [for ph in stash.rawHtmlBlocks] of [main], up to
    the replacement; [ph0] is [ph[0]]. *)
Definition stash_block (g : Globals) (ph0 : str) : result str :=
  let raw := unescape ph0 in
  let pre := txt "<pre><code" in
  if startswith raw pre then
    match partition raw pre with
    | None => Raise ValueError
    | Some (pre, raw) =>
        t ← split1_tail raw (txt ">");
        raw ← rsplit1_head t (txt "</code>");
        lang ← (if contains pre (txt "class=" ++ [dq])
                then t ← split1_tail pre (txt "class=" ++ [dq]);
                     split1_head t [dq]
                else Ok []);
        Ok (Tags_code style_ansi g (strip raw) 2 (Some lang))
    end
  else Ok raw.

(** The loop: every placeholder in [ansi] replaced by its block. *)
Definition replace_stash (g : Globals) (blocks : list str) (ansi : str)
    : result str :=
  foldM (fun ansi (ph : Z * str) =>
           raw ← stash_block g ph.2;
           Ok (replace ansi (PH ph.1) raw))
        ansi
        (combine (map Z.of_nat (seq 0 (length blocks))) blocks).

End Stash.

(** *** Colouring the tokens of code *)

(** One turn of the loop [for t, v in tokens] of [style_ansi]; a token
    type is named as in [code_hl_tokens]. *)
Definition style_token (g : Globals) (cod : list str) (tv : str * str)
    : list str :=
  let '(t, v) := tv in
  match v with
  | [] => cod
  | _ :: _ =>
      match code_hl_tokens g !! t with
      | Some _col => if (_col =? 0)%Z then cod ++ [v]
                     else cod ++ [col g v _col false]
      | None => cod ++ [v]
      end
  end.

(** [style_ansi] from the loop on; [tokens] is what [lex] yields. *)
Definition style_tokens (g : Globals) (tokens : list (str * str)) : str :=
  join [] (fold_left (style_token g) tokens []).

End Mdv.

(** * The vocabulary of the properties *)

Import Py Mdv Textwrap.

(** The rule placeholder of hierarchy level [hir] with end glyphs of colour
    [c]. *)
Definition rule_placeholder (g : Globals) (c hir : Z) : str :=
  let ind := mul left_indent (hir - 1) in
  let e := col g hr_ends c false in
  low g (LF :: ind ++ e ++ [hr_marker] ++ e ++ ind ++ [LF]).

(** Heading colour number [n]. *)
Definition heading (g : Globals) (n : Z) : Z :=
  if (n =? 1)%Z then H1 g
  else if (n =? 2)%Z then H2 g
  else if (n =? 3)%Z then H3 g
  else if (n =? 4)%Z then H4 g
  else H5 g.

(** The text holds an [m], the character that ends an escape sequence. *)
Definition has_m (s : str) : bool := existsb (Ascii.eqb "m"%char) s.

(** The 5 active heading colours and the 5 active code colours. *)
Definition heading_colours (g : Globals) : list Z :=
  [H1 g; H2 g; H3 g; H4 g; H5 g].
Definition code_colours (g : Globals) : list Z :=
  [CH1 g; CH2 g; CH3 g; CH4 g; CH5 g].

(** The catalog entry that [set_theme] resolves the request to, if it gets
    as far as the lookup and finds one. *)
Definition resolved_entry (env : gmap str str) (themes : list (str * Theme))
    (rand : Z) (theme : option str) (for_code : bool) : option Theme :=
  match theme_key env themes rand theme for_code with
  | Ok (Some k) => dict_get themes k
  | _ => None
  end.

(** The map the highlighter reads agrees with the colour variables that
    [code_hl] names. *)
Definition hl_consistent (g : Globals) : Prop :=
  Forall (fun kc : str * str =>
            exists c, globals_item g kc.2 = Ok c
                      /\ code_hl_tokens g !! kc.1 = Some c) code_hl.

(** The highlight map after [build_hl_by_token] has gone through
    [code_hl]. *)
Definition hl_built (g : Globals) : gmap str Z :=
  <[txt "Generic" := CH2 g]> (<[txt "Operator" := CH5 g]>
  (<[txt "Number" := CH4 g]> (<[txt "Error" := R g]>
  (<[txt "String" := CH4 g]> (<[txt "Comment" := L g]>
  (<[txt "Name" := CH1 g]> (<[txt "Keyword" := CH3 g]>
     (code_hl_tokens g)))))))).

(** The six marker bytes. *)
Definition markers : list ascii :=
  [code_start; code_end; stng_start; stng_end; emph_start; emph_end].

(** A text that holds none of the marker bytes. *)
Definition marker_free (t : str) : Prop := forall m, In m markers -> ~ In m t.

(** The opening and the closing tag of the three inline tags. *)
Definition tag_texts : list str :=
  flat_map (fun m : str * ascii * ascii =>
              [txt "<" ++ m.1.1 ++ txt ">"; txt "</" ++ m.1.1 ++ txt ">"])
           inline_tags.

(** The substitution that undoes [encode_tag], written after the
    specification's words: the end marker and the start marker of a tag
    turned back into the tag.  The engine has no such step. *)
Definition decode_tag (t : str) (m : str * ascii * ascii) : str :=
  let '(tg, start, end_) := m in
  let t := replace t [end_] (txt "</" ++ tg ++ txt ">") in
  replace t [start] (txt "<" ++ tg ++ txt ">").

(** The three tags undone in the reverse order of [encode_inline]. *)
Definition decode_inline (t : str) : str :=
  fold_left decode_tag (rev inline_tags) t.

(** A character that prints a glyph: one that is no whitespace. *)
Definition printable (c : ascii) : bool := negb (isspace c).

(** The printable characters of a text, in order. *)
Definition printables (s : str) : str := List.filter printable s.

(** The text of the line that a turn of the outer loop adds, empty when it
    adds none. *)
Definition line_text (line : option str) : str :=
  match line with
  | Some l => l
  | None => []
  end.

(** A text of blanks and tabs only. *)
Definition blanks (s : str) : Prop := Forall (fun c => is_sp_tab c = true) s.

(** The mark that opens every part of a line but the first. *)
Definition cut_mark (g : Globals) : str := SP :: col g txt_block_cut (L g) true.

(** The parts of a line made from its column ranges: the first range as it
    is, the others behind the cut mark. *)
Definition parts_of (g : Globals) (rs : list str) : list str :=
  match rs with
  | [] => []
  | r0 :: rest => r0 :: map (fun r => cut_mark g ++ r) rest
  end.

(** The number of parts a line of width [w] is cut into at [cols]
    columns. *)
Definition part_count (w : nat) (cols : Z) : nat :=
  S (range_len cols (Z.of_nat w) (cols - 2)).

(** The column ranges that a line, padded to width [w], is cut into: the
    first [cols] columns, then ranges of [cols - 2] columns. *)
Definition column_ranges (w : nat) (cols : Z) (line : str) : list str :=
  let l := ljust line w in
  let c := Z.to_nat cols in
  let s := Z.to_nat (cols - 2) in
  firstn c l
  :: map (fun k => firstn s (skipn (c + k * s) l))
         (seq 0 (range_len cols (Z.of_nat w) (cols - 2))).

(** The part number [j] of a line of the table: its column range number
    [j], behind the cut mark when it is not the first. *)
Definition part_of (g : Globals) (w : nat) (cols : Z) (line : str) (j : nat)
    : str :=
  nth j (parts_of g (column_ranges w cols line)) [].

(** The rows of a block as the table branch dresses them: the first and
    the last row are the first row with every [-] turned into the rule
    character, in the low colour; then the second row is put in the
    colour [H3]. *)
Definition dressed (g : Globals) (rows : list str) : list str :=
  let b := low g (replace (nth 0 rows []) (txt "-") hr_sep) in
  let rows := <[length rows - 1 := b]> (<[0 := b]> rows) in
  <[1 := col g (nth 1 rows []) (H3 g) false]> rows.

(** The block number [j] of a table that is split: the parts number [j]
    of its lines, one row per line, dressed. *)
Definition table_block (g : Globals) (w : nat) (cols : Z) (lines : list str)
    (j : nat) : str :=
  join [LF] (dressed g (map (fun line => part_of g w cols line j) lines)).

(** A table of two columns, as [tabulate] prints it. *)
Definition small_table : str :=
  txt "-  -" ++ [LF] ++ txt "a  b" ++ [LF] ++ txt "-  -".

(** The same table with a second row of cells. *)
Definition tall_table : str :=
  txt "-  -" ++ [LF] ++ txt "a  b" ++ [LF] ++ txt "c  d" ++ [LF]
             ++ txt "-  -".

(** A line that holds a rule placeholder. *)
Definition is_rule (l : str) : bool := contains l [hr_marker].

(** The largest printable width of the lines that hold no placeholder. *)
Definition max_width (ls : list str) : nat :=
  fold_right (fun l m => if is_rule l then m
                         else Nat.max (length (clean_ansi l)) m) 0 ls.

(** The offset of the first placeholder marker in a line. *)
Definition marker_offset (l : str) : nat :=
  length (takewhile (fun c => negb (Ascii.eqb c hr_marker)) l).

(** The width that a rule of line [l] is to get: the smaller of the
    terminal columns and the largest printable width, less twice the
    printable offset of the marker in the line. *)
Definition rule_width (g : Globals) (ls : list str) (l : str) : Z :=
  (Z.min (term_columns g) (Z.of_nat (max_width ls))
   - 2 * Z.of_nat (marker_offset (clean_ansi l)))%Z.

(** A line with every placeholder replaced by as many rule characters as
    [rule_width] says. *)
Definition size_rule (g : Globals) (ls : list str) (l : str) : str :=
  flat_map (fun c => if Ascii.eqb c hr_marker
                     then concat (repeat hr_sep (Z.to_nat (rule_width g ls l)))
                     else [c]) l.

(** A theme whose first two heading colours are the same, a paragraph 40
    columns wide, a rule at hierarchy level 1 and a rule at level 2, as the
    formatter emits them. *)
Definition two_rules_globals : Globals := set_H (globals0 80 true) 5 5 5 5 5.

(** The lines of that text. *)
Definition two_rules : list str :=
  let g := two_rules_globals in
  plain g (txt "a paragraph that is forty columns wide..")
  :: split_nl (rule_placeholder g (heading g 1) 1)
  ++ split_nl (rule_placeholder g (heading g 2) 2).

(** A line without line break. *)
Definition no_break (l : str) : Prop := ~ In LF l /\ ~ In CR l.

(** The line [l] is one of [done]. *)
Definition is_done (done : list str) (l : str) : bool :=
  if in_dec (List.list_eq_dec Ascii.ascii_dec) l done then true else false.

(** The lines of the text when the rules of the lines in [done] have been
    sized. *)
Definition sized_lines (g : Globals) (ls done : list str) : list str :=
  map (fun l => if is_done done l then size_rule g ls l else l) ls.





(** ** Further vocabulary *)

(** One of the six marker bytes. *)
Definition is_marker (c : ascii) : bool := existsb (Ascii.eqb c) markers.

(** The text without its marker bytes: what is to be seen of it. *)
Definition unmarked (s : str) : str :=
  List.filter (fun c => negb (is_marker c)) s.

(** Every end marker in the text has its start marker somewhere in the
    text. *)
Definition paired (s : str) : Prop :=
  (In code_end s -> In code_start s)
  /\ (In stng_end s -> In stng_start s)
  /\ (In emph_end s -> In emph_start s).

(** The two environment variables [set_theme] reads, in the order it reads
    them. *)
Definition mdv_var (for_code : bool) : str :=
  if for_code then txt "MDV_CODE_THEME" else txt "MDV_THEME".
Definition axc_var (for_code : bool) : str :=
  if for_code then txt "AXC_CODE_THEME" else txt "AXC_THEME".

(** The variable is not set, or set to the empty text. *)
Definition unset (env : gmap str str) (k : str) : Prop :=
  env !! k = None \/ env !! k = Some [].



(** A paragraph and a rule of hierarchy level 1, as the formatter emits
    them, line by line. *)
Definition one_rule : list str :=
  let g := globals0 80 true in
  plain g (txt "a paragraph of some words")
  :: split_nl (rule_placeholder g (heading g 1) 1).


(** The lines of a code block between fences, and the lines of a markdown
    block as they are; nothing when the lines joined are empty. *)
Definition fenced (ls : list str) : list str :=
  match join [LF] ls with
  | [] => []
  | b => [txt "```" ++ [LF] ++ b ++ [LF] ++ txt "```"]
  end.
Definition unfenced (ls : list str) : list str :=
  match join [LF] ls with
  | [] => []
  | b => [b]
  end.

(** A line that opens a markdown block, and the line that closes the block
    it opens. *)
Definition docstring_marks : list (str * str) :=
  [ ([dq; dq; dq; "_"%char], [dq; dq; dq]);
    (txt "'''_", txt "'''");
    (txt "/*_", txt "*/") ].

(** No line of [ls] opens a markdown block. *)
Definition no_opener (ls : list str) : Prop :=
  Forall (fun l => rstrip l ∉ md_openers) ls.

(** The number of whitespace characters a line begins with. *)
Definition indent_of (l : str) : nat := length l - length (lstrip l).

(** A line without its first [k] characters when these are blanks. *)
Definition unindent_by (k : nat) (l : str) : str :=
  if startswith l (repeat SP k) then skipn k l else l.

(** What [Tags.code] puts before every line of code: a newline, the
    indent, the low-visibility code prefix, a blank and the code colour. *)
Definition code_prefix (g : Globals) (hir : Z) : str :=
  LF :: mul [SP] hir ++ low g code_pref ++ [SP] ++ col g [] (C g) true.

(** The prefix of a list item: the bullet, or a number and a dot. *)
Definition item_prefix (pref : str) : Prop :=
  pref = list_pref
  \/ exists n, split1_head pref (txt ".") = Ok n /\ isdigit n = true.

(** The line [set_theme] prints about the theme it has set. *)
Definition theme_line (g : Globals) (for_code : bool) (k : str) (t : Theme)
    : str :=
  low g (txt "theme" ++ (if for_code then txt " (code)" else [])
         ++ txt ": " ++ k ++ txt " (" ++ name t ++ txt ")").

(** The header tags and their levels. *)
Definition header_levels : list (str * Z) :=
  [ (txt "h1", 1); (txt "h2", 2); (txt "h3", 3); (txt "h4", 4);
    (txt "h5", 5); (txt "h6", 6); (txt "h7", 7); (txt "h8", 8) ]%Z.

(** * Properties *)

Lemma bind_Ok {A B : Type} (a : A) (k : A -> result B) : (Ok a ≫= k) = k a.
Proof. reflexivity. Qed.

(** ** Reflow: pass-through *)

Lemma startswith_cons (c : ascii) (s : str) : startswith (c :: s) [c] = true.
Proof. simpl. rewrite Ascii.eqb_refl. reflexivity. Qed.

Lemma endswith_snoc (c : ascii) (s : str) : endswith (s ++ [c]) [c] = true.
Proof. unfold endswith. rewrite rev_app_distr. apply startswith_cons. Qed.

(** C6: [rewrap] returns its text unchanged when the node is a code node,
    when the text is at most the available width long (terminal columns
    less the length of indent plus prefix, at least 5), or when the text is
    a placeholder that starts with byte 2 and ends with byte 3. *)
Theorem rewrap_passthrough (g : Globals) (tag t ind pref : str) :
  tag = txt "code"
  \/ (Z.of_nat (length t)
      <= Z.max (term_columns g - Z.of_nat (length (ind ++ pref))) 5)%Z
  \/ (exists a b, t = chr 2 :: a /\ t = b ++ [chr 3]) ->
  rewrap g tag t ind pref = Ok t.
Proof.
  intros H. unfold rewrap.
  destruct (bool_decide (tag = txt "code")) eqn:Htag; [reflexivity|].
  destruct (Z.of_nat (length t) <=? _)%Z eqn:Hfit; [reflexivity|].
  cbn [orb]. destruct H as [H | [H | (a & b & Ha & Hb)]].
  - apply bool_decide_eq_false in Htag. contradiction.
  - apply Z.leb_gt in Hfit. lia.
  - assert (Hs : startswith t [chr 2] = true) by (rewrite Ha; apply startswith_cons).
    assert (He : endswith t [chr 3] = true) by (rewrite Hb; apply endswith_snoc).
    rewrite Hs, He. reflexivity.
Qed.

Lemma rewrap_passthrough_witness :
  rewrap (globals0 80 true) (txt "p") (txt "short") (txt "  ") (txt "- ")
  = Ok (txt "short").
Proof.
  apply rewrap_passthrough. right. left. vm_compute. discriminate.
Defined.

(** ** Horizontal rules *)

Lemma heading_colour_ok (g : Globals) (n : Z) :
  (1 <= n <= 5)%Z -> heading_colour g n = Ok (heading g n).
Proof.
  intros Hn.
  assert (Hc : n = 1%Z \/ n = 2%Z \/ n = 3%Z \/ n = 4%Z \/ n = 5%Z) by lia.
  destruct Hc as [-> | [-> | [-> | [-> | ->]]]]; reflexivity.
Qed.

(** C4, as the code has it: an [hr] node at hierarchy level [hir] between 1
    and 5 makes the formatter emit a rule placeholder whose end glyphs have
    heading colour number [hir]. *)
Theorem formatter_hr_colour (g : Globals) (out : list str) (hir : Z) :
  (1 <= hir <= 5)%Z ->
  formatter_hr g out hir = Ok (out ++ [rule_placeholder g (heading g hir) hir]).
Proof.
  intros Hh. unfold formatter_hr, Tags_hr.
  rewrite heading_colour_ok by assumption. reflexivity.
Qed.

Lemma formatter_hr_colour_witness :
  formatter_hr (globals0 80 true) [] 2
  = Ok ([] ++ [rule_placeholder (globals0 80 true)
                 (heading (globals0 80 true) 2) 2]).
Proof. apply formatter_hr_colour. lia. Defined.

(** C4 as stated fails: at hierarchy level 1 the claim asks for heading
    colour number ((1 - 2) mod 5) + 1 = 5, and the rule is emitted in
    heading colour 1. *)
Lemma formatter_hr_not_rotated :
  let g := globals0 80 true in
  formatter_hr g [] 1
  <> Ok ([] ++ [rule_placeholder g (heading g ((1 - 2) mod 5 + 1)) 1]).
Proof. vm_compute. discriminate. Qed.

(** ** The end of [main] *)

Lemma clean_go_no_m (u : str) : has_m u = false -> clean_go false u = u.
Proof.
  induction u as [|c u IH]; [reflexivity|].
  unfold has_m in *. cbn [clean_go existsb]. intros H.
  apply orb_false_iff in H as [_ H].
  rewrite H, andb_false_r, IH by assumption. reflexivity.
Qed.

Lemma clean_go_app (u s : str) (skipping : bool) :
  has_m u = false ->
  (skipping = true -> has_m s = true) ->
  clean_go skipping (s ++ u) = clean_go skipping s ++ u.
Proof.
  intros Hu. revert skipping.
  induction s as [|c r IH]; intros skipping Hs.
  - destruct skipping; [discriminate (Hs eq_refl)|]. now apply clean_go_no_m.
  - cbn [app clean_go]. destruct skipping.
    + apply IH. intros Hn. specialize (Hs eq_refl).
      unfold has_m in *. cbn [existsb] in Hs.
      apply negb_true_iff in Hn. rewrite Ascii.eqb_sym, Hn in Hs. exact Hs.
    + fold (has_m (r ++ u)) (has_m r).
      assert (Hm : has_m (r ++ u) = has_m r).
      { unfold has_m in *. rewrite existsb_app, Hu. apply orb_false_r. }
      rewrite Hm. destruct (Ascii.eqb c ESC && has_m r) eqn:E.
      * apply IH. intros _. now apply andb_true_iff in E.
      * rewrite IH by discriminate. reflexivity.
Qed.

Lemma clean_ansi_newline (s : str) : clean_ansi (s ++ [LF]) = clean_ansi s ++ [LF].
Proof. apply clean_go_app; [reflexivity | discriminate]. Qed.

Lemma foldM_ext {A B : Type} (f f' : A -> B -> result A) (l : list B) :
  (forall a x, f a x = f' a x) -> forall a, foldM f a l = foldM f' a l.
Proof.
  intros H. induction l as [|x l IH]; intros a; [reflexivity|].
  cbn [foldM]. rewrite H. destruct (f' a x); cbn; [apply IH | reflexivity..].
Qed.

Lemma foldM_fuel {A B : Type} (f : A -> B -> result A) (l : list B) :
  Forall (fun x => forall a, f a x <> NoFuel) l ->
  forall a, foldM f a l <> NoFuel.
Proof.
  induction 1 as [|x l Hx _ IH]; intros a; [discriminate|].
  cbn [foldM]. specialize (Hx a). destruct (f a x); cbn;
    [apply IH | discriminate | contradiction].
Qed.

Lemma set_hr_widths_fuel (g : Globals) (text : str) :
  set_hr_widths g text <> NoFuel.
Proof.
  unfold set_hr_widths. destruct (negb _); [discriminate|].
  destruct (fold_left scan_line (splitlines text) (0, [])) as [mw hrs].
  apply foldM_fuel. apply List.Forall_forall. intros hr _ t.
  unfold size_hr, split1_tail.
  destruct (partition (clean_ansi hr) [hr_marker]) as [[a b]|]; discriminate.
Qed.

Section MainReturns.

Variable Rest : Type.
Variable themes : list (str * Theme).
Variable prepare : Rest -> State -> result State.
Variable sample : Rest -> str -> Theme -> Rest.
Variable configure : option str -> option str -> Rest -> State -> result State.
Variable convert : Rest -> State -> result (str * State).
Variable finish : Rest -> State -> result (str * State).

(** The state a call of [main] leaves does not depend on [no_colors]. *)
Lemma main_state (fuel : nat) :
  forall (a : Args Rest) (st : State),
    (r ← main themes prepare sample configure convert finish fuel a true st;
     Ok r.2)
    = (r ← main themes prepare sample configure convert finish fuel a false st;
       Ok r.2).
Proof.
  induction fuel as [|fuel IH]; intros a st; [reflexivity|].
  cbn [main]. destruct (prepare (a_rest a) st) as [[env g]| |];
    [|reflexivity..].
  rewrite !bind_Ok.
  destruct (bool_decide (a_c_theme a = Some (txt "all"))
            || bool_decide (a_theme a = Some (txt "all"))).
  - match goal with
    | |- context [foldM _ ?s themes] => generalize s
    end.
    intros st0.
    rewrite (foldM_ext
               (fun st1 kv =>
                  r ← main themes prepare sample configure convert finish
                           fuel (roller_args sample a kv.1 kv.2) true st1;
                  Ok r.2)
               (fun st1 kv =>
                  r ← main themes prepare sample configure convert finish
                           fuel (roller_args sample a kv.1 kv.2) false st1;
                  Ok r.2)
               themes
               (fun st1 kv => IH (roller_args sample a kv.1 kv.2) st1)).
    match goal with
    | |- context [foldM ?f st0 themes] => destruct (foldM f st0 themes)
    end; reflexivity.
  - destruct (configure _ _ _ _) as [st1| |]; [|reflexivity..].
    rewrite !bind_Ok.
    destruct (convert _ st1) as [[h st2]| |]; [|reflexivity..].
    rewrite !bind_Ok. destruct (a_do_html a); [reflexivity|].
    destruct (finish _ st2) as [[ansi st3]| |]; [|reflexivity..].
    rewrite !bind_Ok.
    destruct (set_hr_widths st3.2 ansi); reflexivity.
Qed.

(** The recursion of the theme roller ends: when no theme of the catalog
    is called [all], a call of [main] makes calls at most two deep. *)
Lemma main_fuel (fuel : nat) :
  Forall (fun kv : str * Theme => kv.1 <> txt "all") themes ->
  (forall r st, prepare r st <> NoFuel) ->
  (forall t c r st, configure t c r st <> NoFuel) ->
  (forall r st, convert r st <> NoFuel) ->
  (forall r st, finish r st <> NoFuel) ->
  forall (a : Args Rest) (no_colors : bool) (st : State),
    (if bool_decide (a_c_theme a = Some (txt "all")) then 1 else 0)
    + (if bool_decide (a_theme a = Some (txt "all")) then 1 else 0) < fuel ->
    main themes prepare sample configure convert finish fuel a no_colors st
    <> NoFuel.
Proof.
  intros Hkeys Hp Hc Hv Hf.
  induction fuel as [|fuel IH]; intros a no_colors st Hlt; [lia|].
  cbn [main]. specialize (Hp (a_rest a) st).
  destruct (prepare (a_rest a) st) as [[env g]| |];
    [|discriminate | contradiction].
  rewrite bind_Ok.
  destruct (bool_decide (a_c_theme a = Some (txt "all"))
            || bool_decide (a_theme a = Some (txt "all"))) eqn:Eall.
  - match goal with
    | |- context [foldM ?f ?s themes] =>
        assert (Hloop : foldM f s themes <> NoFuel);
        [|destruct (foldM f s themes); [discriminate.. | contradiction]]
    end.
    apply foldM_fuel. eapply List.Forall_impl; [|exact Hkeys].
    intros [k v] Hk st1. cbn [fst snd] in *.
    match goal with
    | |- context [main _ _ _ _ _ _ fuel ?a' no_colors st1] =>
        assert (Hin : main themes prepare sample configure convert finish
                           fuel a' no_colors st1 <> NoFuel);
        [|destruct (main themes prepare sample configure convert finish
                         fuel a' no_colors st1);
          [discriminate.. | contradiction]]
    end.
    apply IH. unfold roller_args.
    destruct (bool_decide (a_theme a = Some (txt "all"))) eqn:Et;
      cbn [a_theme a_c_theme].
    + rewrite (bool_decide_eq_false_2 (Some k = Some (txt "all")))
        by congruence.
      lia.
    + rewrite (bool_decide_eq_false_2 (Some k = Some (txt "all")))
        by congruence.
      rewrite ?Et. rewrite orb_false_r in Eall. rewrite Eall in Hlt. lia.
  - specialize (Hc (a_theme a) (a_c_theme a) (a_rest a) (env, g)).
    destruct (configure _ _ _ _) as [st1| |]; [|discriminate | contradiction].
    rewrite bind_Ok. specialize (Hv (a_rest a) st1).
    destruct (convert _ st1) as [[h st2]| |]; [|discriminate | contradiction].
    rewrite bind_Ok. destruct (a_do_html a); [discriminate|].
    specialize (Hf (a_rest a) st2).
    destruct (finish _ st2) as [[ansi st3]| |];
      [|discriminate | contradiction].
    rewrite bind_Ok. pose proof (set_hr_widths_fuel st3.2 ansi) as Hs.
    destruct (set_hr_widths st3.2 ansi); [|discriminate | contradiction].
    rewrite bind_Ok. destruct no_colors; discriminate.
Qed.

(** C8, as the code has it.  In every configuration the two calls of
    [main], with and without the no-colors flag, fail alike and leave the
    same state.  When the themes are rolled ([theme] or [c_theme] is
    [all]) or html is asked for, [main] returns before it reads the flag,
    and the two calls return the same string: the empty string after the
    themes are rolled, the html as it was converted when html is asked
    for.  In every other configuration the string returned with the flag
    set, followed by one more newline, is the string returned without the
    flag with every escape sequence removed. *)
Theorem main_no_colors (fuel : nat) (a : Args Rest) (st : State) :
  let stripped :=
    main themes prepare sample configure convert finish (S fuel) a true st in
  let coloured :=
    main themes prepare sample configure convert finish (S fuel) a false st in
  if bool_decide (a_c_theme a = Some (txt "all"))
     || bool_decide (a_theme a = Some (txt "all"))
  then stripped = coloured
       /\ forall s st', coloured = Ok (s, st') -> s = []
  else if a_do_html a
  then stripped = coloured
       /\ coloured = (st0 ← prepare (a_rest a) st;
                      st1 ← configure (a_theme a) (a_c_theme a) (a_rest a) st0;
                      convert (a_rest a) st1)
  else (r ← stripped; Ok (r.1 ++ [LF], r.2))
       = (r ← coloured; Ok (clean_ansi r.1, r.2)).
Proof.
  intros stripped coloured. subst stripped coloured. cbn [main].
  destruct (bool_decide (a_c_theme a = Some (txt "all"))
            || bool_decide (a_theme a = Some (txt "all"))) eqn:Eall.
  - destruct (prepare (a_rest a) st) as [[env g]| |];
      [|split; [reflexivity | discriminate]..].
    rewrite !bind_Ok.
    match goal with
    | |- context [foldM _ ?s themes] => generalize s
    end.
    intros st0.
    rewrite (foldM_ext
               (fun st1 kv =>
                  r ← main themes prepare sample configure convert finish
                           fuel (roller_args sample a kv.1 kv.2) true st1;
                  Ok r.2)
               (fun st1 kv =>
                  r ← main themes prepare sample configure convert finish
                           fuel (roller_args sample a kv.1 kv.2) false st1;
                  Ok r.2)
               themes
               (fun st1 kv => main_state fuel
                                (roller_args sample a kv.1 kv.2) st1)).
    split; [reflexivity|].
    intros s st' H.
    match type of H with
    | context [foldM ?f st0 themes] => destruct (foldM f st0 themes)
    end; [|discriminate..].
    now injection H as <- _.
  - destruct (a_do_html a) eqn:Ehtml.
    + split; [reflexivity|].
      destruct (prepare (a_rest a) st) as [st0| |]; [|reflexivity..].
      rewrite !bind_Ok.
      destruct (configure _ _ _ st0) as [st1| |]; [|reflexivity..].
      rewrite !bind_Ok.
      destruct (convert _ st1) as [[h st2]| |]; reflexivity.
    + destruct (prepare (a_rest a) st) as [st0| |]; [|reflexivity..].
      rewrite !bind_Ok.
      destruct (configure _ _ _ st0) as [st1| |]; [|reflexivity..].
      rewrite !bind_Ok.
      destruct (convert _ st1) as [[h st2]| |]; [|reflexivity..].
      rewrite !bind_Ok.
      destruct (finish _ st2) as [[ansi st3]| |]; [|reflexivity..].
      rewrite !bind_Ok.
      destruct (set_hr_widths st3.2 ansi) as [sized| |]; [|reflexivity..].
      rewrite !bind_Ok. cbn [fst snd].
      now rewrite !clean_ansi_newline.
Qed.

End MainReturns.

(** C8 as stated fails: stripping the escapes of the coloured result of a
    one-word paragraph leaves one newline more than the no-colors result
    has. *)
Lemma main_no_colors_shorter :
  let g := globals0 80 true in
  let run :=
    main (Rest := unit) [] (fun _ st => Ok st) (fun r _ _ => r)
         (fun _ _ _ st => Ok st) (fun _ st => Ok ([], st))
         (fun _ st => Ok (col st.2 (txt "a") (T st.2) false, st))
         1 (mkArgs None None false tt) in
  (r ← run true (∅, g); Ok r.1)
  <> (r ← run false (∅, g); Ok (clean_ansi r.1)).
Proof. vm_compute. discriminate. Qed.

(** With html asked for, or the themes rolled, the flag changes nothing:
    the html comes back with its escape sequences. *)
Example main_html_not_stripped :
  let g := globals0 80 true in
  let run :=
    main (Rest := unit) [] (fun _ st => Ok st) (fun r _ _ => r)
         (fun _ _ _ st => Ok st)
         (fun _ st => Ok (col_seq 1 ++ txt "<p>a</p>", st))
         (fun _ st => Ok ([], st))
         1 (mkArgs None None true tt) in
  run true (∅, g) = Ok (col_seq 1 ++ txt "<p>a</p>", (∅, g))
  /\ run true (∅, g) = run false (∅, g).
Proof. vm_compute. split; reflexivity. Qed.

(** ** Themes *)

Lemma build_hl_by_token_ok (g : Globals) :
  have_pygments g = true ->
  build_hl_by_token g = Ok (set_code_hl_tokens g (hl_built g)).
Proof.
  intros H. unfold build_hl_by_token. rewrite H. reflexivity.
Qed.

Lemma build_hl_by_token_off (g : Globals) :
  have_pygments g = false -> build_hl_by_token g = Ok g.
Proof. intros H. unfold build_hl_by_token. now rewrite H. Qed.

Lemma hl_built_consistent (g : Globals) :
  hl_consistent (set_code_hl_tokens g (hl_built g)).
Proof.
  unfold hl_consistent, code_hl, hl_built.
  repeat (apply List.Forall_cons;
          [eexists; split; [reflexivity|];
           cbn [fst snd code_hl_tokens set_code_hl_tokens];
           by simplify_map_eq |]).
  apply List.Forall_nil.
Qed.

Lemma theme_key_ok (env : gmap str str) (themes : list (str * Theme))
    (rand : Z) (theme : option str) (for_code : bool) :
  themes <> [] -> exists k, theme_key env themes rand theme for_code = Ok k.
Proof.
  intros Hne. unfold theme_key.
  match goal with |- context [match ?t with None => _ | Some _ => _ end] =>
    destruct t as [[|c th]|] end; try (eexists; reflexivity).
  destruct (decide (c :: th = txt "random")); [|eexists; reflexivity].
  unfold randint.
  assert (Hlen : (0 < Z.of_nat (length themes))%Z).
  { destruct themes; [contradiction | cbn [length]; lia]. }
  destruct (Z.of_nat (length themes) - 1 <? 0)%Z eqn:E;
    [apply Z.ltb_lt in E; lia|].
  cbn [mbind result_bind]. unfold getitem.
  destruct (nth_error (map fst themes) _) eqn:En; [eexists; reflexivity|].
  apply nth_error_None in En. rewrite length_map in En.
  pose proof (Z.mod_pos_bound rand (Z.of_nat (length themes) - 1 - 0 + 1)).
  lia.
Qed.

(** What the [try] block of [set_theme] does to the globals. *)
Lemma set_theme_try_spec (env : gmap str str) (themes : list (str * Theme))
    (rand : Z) (theme : option str) (for_code theme_info : bool)
    (g : Globals) :
  let r := (set_theme_try env themes rand theme for_code theme_info g).1 in
  let g' := (set_theme_try env themes rand theme for_code theme_info g).2 in
  have_pygments g' = have_pygments g /\
  match resolved_entry env themes rand theme for_code with
  | Some t =>
      if decide (length (ct t) = 5) then
        r = Ok tt /\
        if for_code
        then code_colours g' = ct t /\ heading_colours g' = heading_colours g
        else heading_colours g' = ct t /\ code_colours g' = code_colours g
      else r = Ok tt /\ g' = g
  | None => g' = g /\ (themes <> [] -> r = Ok tt)
  end.
Proof.
  unfold resolved_entry, set_theme_try.
  destruct (theme_key env themes rand theme for_code) as [[k|]|e|] eqn:Hk;
    cbn [fst snd]; try (split; [reflexivity|split; [reflexivity|]]);
    try (intros Hne;
         destruct (theme_key_ok env themes rand theme for_code Hne) as [k' Hk'];
         congruence); try reflexivity.
  destruct (dict_get themes k) as [t|]; cbn [fst snd];
    [|split; [reflexivity|split; reflexivity]].
  destruct (decide (length (ct t) = 5)) as [H5|H5].
  - rewrite H5. cbn [Nat.eqb negb].
    destruct (ct t) as [|t0 [|t1 [|t2 [|t3 [|t4 [|]]]]]]; try discriminate H5.
    destruct for_code, theme_info; cbn [negb fst snd]; repeat split; reflexivity.
  - apply Nat.eqb_neq in H5. rewrite H5. cbn [negb fst snd]. repeat split; reflexivity.
Qed.





(** A theme of five colours takes effect; a theme of four does not. *)
Example set_theme_five :
  heading_colours
    (set_theme ∅ [(txt "x", mkTheme (txt "X") [1; 2; 3; 4; 5]%Z)] 0
               (Some (txt "x")) false false (globals0 80 true)).2
  = [1; 2; 3; 4; 5]%Z.
Proof. reflexivity. Qed.

Example set_theme_four :
  heading_colours
    (set_theme ∅ [(txt "x", mkTheme (txt "X") [1; 2; 3; 4]%Z)] 0
               (Some (txt "x")) false false (globals0 80 true)).2
  = [231; 153; 117; 109; 65]%Z.
Proof. reflexivity. Qed.

(** With no theme asked for and none in the environment the text theme is
    drawn at random; from an empty catalog the draw raises. *)
Example set_theme_random_empty :
  (set_theme ∅ [] 0 None false false (globals0 80 true)).1 = Raise ValueError.
Proof. reflexivity. Qed.

(** C10, as the code has it: when the tokenizer library is there
    ([have_pygments]), every call of [set_theme] with [for_code] set leaves
    the highlight map in agreement with the colour variables as they are
    after the call, whether or not the theme took effect. *)
Theorem set_theme_rebuilds_map (env : gmap str str)
    (themes : list (str * Theme)) (rand : Z) (theme : option str)
    (theme_info : bool) (g : Globals) :
  have_pygments g = true ->
  hl_consistent (set_theme env themes rand theme true theme_info g).2.
Proof.
  intros Hp.
  pose proof (set_theme_try_spec env themes rand theme true theme_info g)
    as [Hpyg _].
  unfold set_theme.
  destruct (set_theme_try env themes rand theme true theme_info g)
    as [r1 g1].
  cbn [fst snd] in Hpyg.
  rewrite build_hl_by_token_ok by congruence.
  apply hl_built_consistent.
Qed.

Lemma set_theme_rebuilds_map_witness :
  hl_consistent
    (set_theme ∅ [(txt "x", mkTheme (txt "X") [1; 2; 3; 4; 5]%Z)] 7
               (Some (txt "nope")) true false (globals0 80 true)).2.
Proof. apply set_theme_rebuilds_map. reflexivity. Defined.

(** C10 as stated fails: without the tokenizer library the call returns
    with the map as it was, here empty, whatever the code colours are. *)
Lemma set_theme_map_not_rebuilt :
  ~ hl_consistent
      (set_theme ∅ [(txt "x", mkTheme (txt "X") [1; 2; 3; 4; 5]%Z)] 7
                 (Some (txt "x")) true false (globals0 80 false)).2.
Proof.
  intros H. apply Forall_inv in H. destruct H as (c & _ & H).
  vm_compute in H. discriminate H.
Qed.

(** ** Facts about the string primitives *)

Lemma startswith_app (p r : str) : startswith (p ++ r) p = true.
Proof.
  induction p as [|b p IH]; [reflexivity|].
  cbn. now rewrite Ascii.eqb_refl, IH.
Qed.

Lemma startswith_inv (s p : str) :
  startswith s p = true -> s = p ++ skipn (length p) s.
Proof.
  revert s. induction p as [|b p IH]; intros s H; [reflexivity|].
  destruct s as [|a s]; [discriminate|]. cbn in H.
  apply andb_true_iff in H as [Hab H]. apply Ascii.eqb_eq in Hab. subst.
  cbn. f_equal. now apply IH.
Qed.

Lemma startswith_iff (s p : str) :
  startswith s p = true <-> exists r, s = p ++ r.
Proof.
  split.
  - intros H. eexists. now apply startswith_inv.
  - intros [r ->]. apply startswith_app.
Qed.

Lemma replace_go_skip (old new : str) (k : nat) (s : str) :
  replace_go k old new s = replace_go 0 old new (skipn k s).
Proof.
  revert k. induction s as [|c r IH]; intros k.
  - now rewrite skipn_nil.
  - destruct k as [|k]; [reflexivity|]. cbn [replace_go skipn]. apply IH.
Qed.

Lemma replace_nil (o : ascii) (old new : str) : replace [] (o :: old) new = [].
Proof. reflexivity. Qed.

Lemma replace_hit (o : ascii) (old new s : str) :
  startswith s (o :: old) = true ->
  replace s (o :: old) new
  = new ++ replace (skipn (length (o :: old)) s) (o :: old) new.
Proof.
  intros H. destruct s as [|c r]; [discriminate|].
  unfold replace. cbn [replace_go]. rewrite H.
  rewrite replace_go_skip. cbn [length skipn].
  now rewrite Nat.sub_succ, Nat.sub_0_r.
Qed.

Lemma replace_miss (o : ascii) (old new : str) (c : ascii) (r : str) :
  startswith (c :: r) (o :: old) = false ->
  replace (c :: r) (o :: old) new = c :: replace r (o :: old) new.
Proof. intros H. unfold replace. cbn [replace_go]. now rewrite H. Qed.

(** Induction on the length of a text. *)
Lemma str_length_ind (P : str -> Prop) :
  (forall s, (forall r, length r < length s -> P r) -> P s) -> forall s, P s.
Proof.
  intros Hstep s. remember (length s) as n eqn:Hn. revert s Hn.
  induction n as [n IH] using lt_wf_ind. intros s ->.
  apply Hstep. intros r Hr. now apply (IH (length r)).
Qed.

(** A text is either empty, starts with [old], or starts with a character
    that no occurrence of [old] begins at. *)
Lemma replace_cases (o : ascii) (old s : str) :
  s = []
  \/ (exists r, s = (o :: old) ++ r /\ startswith s (o :: old) = true)
  \/ (exists c r, s = c :: r /\ startswith s (o :: old) = false).
Proof.
  destruct s as [|c r]; [now left|]. right.
  destruct (startswith (c :: r) (o :: old)) eqn:E.
  - left. exists (skipn (length (o :: old)) (c :: r)). split; [|reflexivity].
    now apply startswith_inv.
  - right. now exists c, r.
Qed.

Lemma skipn_app_exact (p r : str) : skipn (length p) (p ++ r) = r.
Proof. induction p; [reflexivity | assumption]. Qed.

(** Replacing a single character is a substitution. *)
Lemma replace_char (m : ascii) (new s : str) :
  replace s [m] new
  = flat_map (fun c => if Ascii.eqb c m then new else [c]) s.
Proof.
  induction s as [|c r IH]; [reflexivity|].
  cbn [flat_map]. destruct (Ascii.eqb c m) eqn:E.
  - rewrite replace_hit by (cbn; now rewrite E).
    change (skipn (length [m]) (c :: r)) with r. now rewrite IH.
  - rewrite replace_miss by (cbn; now rewrite E). now rewrite IH.
Qed.

(** A character that is neither in the text nor in the new part is not in
    the result. *)
Lemma replace_not_in (y : ascii) (o : ascii) (old new : str) :
  ~ In y new -> forall s, ~ In y s -> ~ In y (replace s (o :: old) new).
Proof.
  intros Hnew s. induction s as [s IH] using str_length_ind. intros Hs.
  destruct (replace_cases o old s) as [-> | [(r & -> & H) | (c & r & -> & H)]].
  - exact Hs.
  - rewrite replace_hit by assumption. rewrite skipn_app_exact.
    intros Hin. apply in_app_or in Hin as [Hin | Hin]; [now apply Hnew|].
    revert Hin. apply IH.
    + rewrite length_app. cbn [length]. lia.
    + intros Hin. apply Hs. apply in_or_app. now right.
  - rewrite replace_miss by assumption. intros [-> | Hin].
    + apply Hs. now left.
    + revert Hin. apply IH; [cbn [length]; lia|].
      intros Hin. apply Hs. now right.
Qed.

(** Turning every [old] into a fresh character and that character back
    into [old] gives the text back. *)
Lemma replace_roundtrip (m o : ascii) (old : str) :
  forall s, ~ In m s ->
  replace (replace s (o :: old) [m]) [m] (o :: old) = s.
Proof.
  intros s. induction s as [s IH] using str_length_ind. intros Hs.
  destruct (replace_cases o old s) as [-> | [(r & -> & H) | (c & r & -> & H)]].
  - reflexivity.
  - rewrite (replace_hit o old [m]) by assumption. rewrite skipn_app_exact.
    rewrite replace_char. cbn [app flat_map]. rewrite Ascii.eqb_refl.
    rewrite <- replace_char. rewrite IH; [reflexivity | |].
    + rewrite length_app. cbn [length]. lia.
    + intros Hin. apply Hs. apply in_or_app. now right.
  - rewrite (replace_miss o old [m]) by assumption.
    rewrite replace_char. cbn [flat_map].
    destruct (Ascii.eqb c m) eqn:E.
    + apply Ascii.eqb_eq in E. subst. exfalso. apply Hs. now left.
    + rewrite <- replace_char. cbn [app]. f_equal.
      apply IH; [cbn [length]; lia|]. intros Hin. apply Hs. now right.
Qed.

(** A text that, after a replacement by the character [m], starts with a
    text without [m] started with it before. *)
Lemma startswith_replace (m o : ascii) (old : str) :
  forall q s, ~ In m q ->
    startswith (replace s (o :: old) [m]) q = true -> startswith s q = true.
Proof.
  induction q as [|x q IH]; intros s Hq H; [now destruct s|].
  destruct (replace_cases o old s) as [-> | [(r & -> & Hs) | (c & r & -> & Hs)]].
  - discriminate H.
  - rewrite replace_hit in H by assumption. cbn [app startswith] in H.
    apply andb_true_iff in H as [H _]. apply Ascii.eqb_eq in H. subst x.
    exfalso. apply Hq. now left.
  - rewrite replace_miss in H by assumption. cbn [startswith] in H |- *.
    apply andb_true_iff in H as [Hc H]. rewrite Hc. cbn [andb].
    apply IH; [|exact H]. intros Hin. apply Hq. now right.
Qed.

Lemma contains_skip (a b q : str) :
  contains (a ++ b) q = false -> contains b q = false.
Proof.
  induction a as [|c a IH]; intros H; [exact H|].
  cbn [app contains] in H. apply orb_false_iff in H as [_ H]. now apply IH.
Qed.

(** After every [old] is replaced by a character that is not in it, no
    [old] is left. *)
Lemma replace_gone (m o : ascii) (old : str) :
  ~ In m (o :: old) ->
  forall s, contains (replace s (o :: old) [m]) (o :: old) = false.
Proof.
  intros Hm s. induction s as [s IH] using str_length_ind.
  assert (Hmo : Ascii.eqb m o = false).
  { apply Ascii.eqb_neq. intros ->. apply Hm. now left. }
  destruct (replace_cases o old s) as [-> | [(r & -> & Hs) | (c & r & -> & Hs)]].
  - reflexivity.
  - rewrite replace_hit by assumption. rewrite skipn_app_exact.
    cbn [app contains startswith]. rewrite Hmo. cbn [andb orb].
    apply IH. rewrite length_app. cbn [length]. lia.
  - destruct (startswith (replace (c :: r) (o :: old) [m]) (o :: old)) eqn:E.
    + apply startswith_replace in E; [congruence | exact Hm].
    + rewrite replace_miss in E |- * by assumption.
      cbn [contains]. rewrite E. cbn [orb]. apply IH. cbn [length]. lia.
Qed.

(** A replacement by a character that is not in [q] brings no [q] into a
    text that has none. *)
Lemma replace_keeps_absent (m o : ascii) (old : str) (x : ascii) (q : str) :
  ~ In m (x :: q) ->
  forall s, contains s (x :: q) = false ->
    contains (replace s (o :: old) [m]) (x :: q) = false.
Proof.
  intros Hm s. induction s as [s IH] using str_length_ind. intros Hs.
  assert (Hmx : Ascii.eqb m x = false).
  { apply Ascii.eqb_neq. intros ->. apply Hm. now left. }
  destruct (replace_cases o old s) as [-> | [(r & -> & H) | (c & r & -> & H)]].
  - exact Hs.
  - rewrite replace_hit by assumption. rewrite skipn_app_exact.
    cbn [app contains startswith]. rewrite Hmx. cbn [andb orb].
    apply IH; [rewrite length_app; cbn [length]; lia|].
    now apply contains_skip in Hs.
  - destruct (startswith (replace (c :: r) (o :: old) [m]) (x :: q)) eqn:E.
    + apply startswith_replace in E; [|exact Hm].
      cbn [contains] in Hs. apply orb_false_iff in Hs as [Hs _]. congruence.
    + rewrite replace_miss in E |- * by assumption.
      cbn [contains]. rewrite E. cbn [orb].
      apply IH; [cbn [length]; lia|].
      cbn [contains] in Hs. now apply orb_false_iff in Hs as [_ Hs].
Qed.

(** ** The inline tags *)

(** C9, as the code has it: the encoding of the three inline tags into
    markers takes every tag out of the text and loses nothing.  For a text
    that holds none of the six marker bytes, the encoded text holds none
    of the six opening and closing tags, and putting the tags back in the
    place of the markers restores the tagged text exactly, however the
    tags are nested. *)
Theorem encode_inline_invertible (t : str) :
  marker_free t ->
  Forall (fun tg => contains (encode_inline t) tg = false) tag_texts
  /\ decode_inline (encode_inline t) = t.
Proof.
  intros Hfree. split.
  - unfold tag_texts, encode_inline, inline_tags.
    cbn [flat_map fold_left encode_tag fst snd app].
    unfold txt. cbn [list_ascii_of_string app].
    repeat constructor;
      repeat first
        [ apply replace_gone;
          cbn; intros H; repeat (destruct H as [H | H]; [discriminate H|]);
          exact H
        | apply replace_keeps_absent;
          [ cbn; intros H; repeat (destruct H as [H | H]; [discriminate H|]);
            exact H | ] ].
  - unfold decode_inline, encode_inline, inline_tags.
    cbn [rev app fold_left decode_tag encode_tag].
    assert (Hm : forall m, In m markers -> ~ In m t) by exact Hfree.
    pose proof (Hm code_start ltac:(cbn; tauto)) as H1.
    pose proof (Hm code_end ltac:(cbn; tauto)) as H2.
    pose proof (Hm stng_start ltac:(cbn; tauto)) as H3.
    pose proof (Hm stng_end ltac:(cbn; tauto)) as H4.
    pose proof (Hm emph_start ltac:(cbn; tauto)) as H5.
    pose proof (Hm emph_end ltac:(cbn; tauto)) as H6.
    assert (Hfresh : forall (y x o : ascii) (old s : str),
               y <> x -> ~ In y s -> ~ In y (replace s (o :: old) [x])).
    { intros y x o old s Hyx Hs. apply replace_not_in; [|exact Hs].
      intros [E | []]. now apply Hyx. }
    unfold txt. cbn [list_ascii_of_string app].
    repeat (rewrite replace_roundtrip;
            [| repeat (apply Hfresh; [discriminate|]); assumption]).
    reflexivity.
Qed.

Lemma encode_inline_invertible_witness :
  let t := txt "<em>a <code>b</code></em> <strong>c</strong>" in
  Forall (fun tg => contains (encode_inline t) tg = false) tag_texts
  /\ decode_inline (encode_inline t) = t.
Proof.
  apply encode_inline_invertible.
  intros m Hm Hin. vm_compute in Hm, Hin.
  repeat match goal with
         | H : _ \/ _ |- _ => destruct H
         | H : False |- _ => destruct H
         end; subst; discriminate.
Defined.

(** C9 as stated fails: a marker byte that is in the text already is not
    told from the marker of a tag.  The emphasis of [a] written with the
    two marker bytes and the emphasis written with the tag are encoded
    alike, so nothing restores both; the substitution gives the tag for
    the bytes. *)
Lemma marker_bytes_not_restored :
  let bytes := txt "<strong>" ++ emph_start :: txt "a" ++ emph_end
                              :: txt "</strong>" in
  let tags := txt "<strong><em>a</em></strong>" in
  bytes <> tags
  /\ encode_inline bytes = encode_inline tags
  /\ decode_inline (encode_inline bytes) = tags.
Proof. split; [|split]; vm_compute; [discriminate | reflexivity..]. Qed.

(** The engine itself never decodes: what it does with the markers
    ([col]) is to turn them into colour sequences. *)
Example inline_markers_coloured :
  let g := globals0 80 true in
  col g (encode_inline (txt "<em>a</em>")) (T g) false <> txt "<em>a</em>".
Proof. vm_compute. discriminate. Qed.

(** ** Wrapping: the chunks of a text laid out in lines *)

Lemma printables_app (a b : str) :
  printables (a ++ b) = printables a ++ printables b.
Proof. apply List.filter_app. Qed.

Lemma printables_blank (s : str) : blank s = true -> printables s = [].
Proof.
  unfold blank, printables, printable. induction s as [|c s IH]; [reflexivity|].
  cbn. intros H. apply andb_true_iff in H as [Hc Hs]. rewrite Hc. cbn. auto.
Qed.

Lemma weight_app (a b : list str) : weight (a ++ b) = weight a + weight b.
Proof. induction a as [|x a IH]; [reflexivity|]. cbn. rewrite IH. lia. Qed.

Lemma weight_pos (a : list str) : a <> [] -> 0 < weight a.
Proof. destruct a; [contradiction|]. cbn. lia. Qed.

Lemma take_fitting_spec (width : nat) (chunks : list str) (n : nat)
    (line : list str) (n' : nat) (rest : list str) :
  take_fitting width n chunks = (line, n', rest) ->
  n <= width ->
  chunks = line ++ rest /\ n' = n + length (concat line) /\ n' <= width
  /\ match rest with
     | c :: _ => width < n' + length c
     | [] => True
     end.
Proof.
  revert n line n' rest. induction chunks as [|c r IH]; intros n line n' rest.
  - cbn. intros [= <- <- <-] Hn. cbn. repeat split; lia.
  - cbn [take_fitting]. destruct (n + length c <=? width) eqn:E.
    + destruct (take_fitting width (n + length c) r) as [[line1 n1] rest1] eqn:Et.
      intros [= <- <- <-] Hn. apply Nat.leb_le in E.
      destruct (IH _ _ _ _ Et E) as (-> & -> & Hw & Hrest).
      cbn [concat app]. rewrite length_app. repeat split; try lia. exact Hrest.
    + intros [= <- <- <-] Hn. apply Nat.leb_gt in E.
      cbn. repeat split; lia.
Qed.

Lemma drop_trailing_blank_spec (cur_line : list str) :
  length (concat (drop_trailing_blank cur_line)) <= length (concat cur_line)
  /\ printables (concat (drop_trailing_blank cur_line))
     = printables (concat cur_line)
  /\ forall P : ascii -> Prop,
       Forall P (concat cur_line) ->
       Forall P (concat (drop_trailing_blank cur_line)).
Proof.
  unfold drop_trailing_blank.
  destruct (rev cur_line) as [|c r] eqn:E; [repeat split; auto|].
  destruct (blank c) eqn:Hb; [|repeat split; auto].
  assert (Hcl : cur_line = rev r ++ [c]).
  { rewrite <- (rev_involutive cur_line), E. reflexivity. }
  rewrite Hcl, concat_app. cbn [concat]. rewrite app_nil_r.
  repeat split.
  - rewrite length_app. lia.
  - rewrite printables_app, (printables_blank c Hb), app_nil_r. reflexivity.
  - intros P HP. apply Forall_app in HP. tauto.
Qed.

Lemma wrap_line_spec (width : nat) (first : bool) (chunks : list str)
    (line : option str) (rest : list str) :
  1 <= width -> chunks <> [] ->
  wrap_line width first chunks = (line, rest) ->
  weight rest < weight chunks
  /\ length (line_text line) <= width
  /\ printables (line_text line ++ concat rest) = printables (concat chunks)
  /\ forall P : ascii -> Prop,
       Forall P (concat chunks) -> Forall P (line_text line ++ concat rest).
Proof.
  intros Hw Hne. unfold wrap_line.
  set (chunks1 := match chunks with
                  | c :: r => if blank c && negb first then r else chunks
                  | [] => chunks
                  end).
  assert (H1 : weight chunks1 <= weight chunks
               /\ (chunks1 = [] -> weight chunks1 < weight chunks)
               /\ printables (concat chunks1) = printables (concat chunks)
               /\ forall P : ascii -> Prop,
                    Forall P (concat chunks) -> Forall P (concat chunks1)).
  { subst chunks1. destruct chunks as [|c r]; [contradiction|].
    destruct (blank c && negb first) eqn:E.
    - apply andb_true_iff in E as [Hb _]. cbn [weight concat].
      rewrite printables_app, (printables_blank c Hb).
      repeat split; try lia. intros P HP. apply Forall_app in HP. tauto.
    - repeat split; auto. discriminate. }
  destruct H1 as (Hw1 & Hw1' & Hp1 & HP1).
  destruct (take_fitting width 0 chunks1) as [[cur_line cur_len] chunks2] eqn:Et.
  destruct (take_fitting_spec _ _ _ _ _ _ Et (Nat.le_0_l _))
    as (Hc1 & Hlen & Hfit & Hnext).
  cbn [Nat.add] in Hlen.
  set (step := match chunks2 with
               | c :: _ =>
                   if width <? length c
                   then handle_long_word width cur_len cur_line chunks2
                   else (cur_line, chunks2)
               | [] => (cur_line, chunks2)
               end).
  assert (H2 : weight step.2 < weight chunks
               /\ length (concat step.1) <= width
               /\ concat step.1 ++ concat step.2 = concat chunks1).
  { subst step.
    assert (Hwc : weight chunks1 = weight cur_line + weight chunks2)
      by (rewrite Hc1; apply weight_app).
    assert (Hcc : concat chunks1 = concat cur_line ++ concat chunks2)
      by (rewrite Hc1; apply concat_app).
    assert (Hpos : cur_line <> [] -> 0 < weight cur_line) by apply weight_pos.
    assert (Hnil : cur_line = [] -> cur_len = 0) by (intros ->; exact Hlen).
    pose proof (weight_pos chunks Hne) as Hposc.
    destruct chunks2 as [|c r].
    - cbn [fst snd weight concat]. split; [lia|]. split; [lia|].
      now rewrite Hcc.
    - cbn [weight] in Hwc. destruct (width <? length c) eqn:E.
      + apply Nat.ltb_lt in E. cbn [handle_long_word fst snd].
        rewrite !concat_app. cbn [concat weight].
        rewrite !app_nil_r, length_app, length_firstn, length_skipn.
        split; [|split].
        * destruct cur_line as [|l cl].
          -- specialize (Hnil eq_refl). lia.
          -- specialize (Hpos ltac:(discriminate)). lia.
        * lia.
        * rewrite Hcc. cbn [concat]. rewrite <- !app_assoc. f_equal.
          rewrite app_assoc. now rewrite firstn_skipn.
      + apply Nat.ltb_ge in E. cbn [fst snd]. split; [|split; [lia|now rewrite Hcc]].
        change (weight (c :: r)) with (S (length c) + weight r).
        destruct cur_line as [|l cl].
        * specialize (Hnil eq_refl). lia.
        * specialize (Hpos ltac:(discriminate)). lia. }
  destruct step as [cur_line' chunks3]. cbn [fst snd] in H2.
  destruct H2 as (Hw3 & Hl3 & Hc3).
  destruct (drop_trailing_blank_spec cur_line') as (Hdl & Hdp & HdP).
  assert (Hline : forall l, line_text (match l with
                                       | [] => None
                                       | _ :: _ => Some (concat l)
                                       end) = concat l).
  { intros [|x l]; reflexivity. }
  destruct (drop_trailing_blank cur_line') as [|x dl] eqn:Ed;
    intros [= <- <-]; cbn [line_text]; (split; [exact Hw3|]).
  - cbn [concat] in *. split; [cbn; lia|]. split.
    + rewrite <- Hp1, <- Hc3, !printables_app, <- Hdp. reflexivity.
    + intros P HP. apply HP1 in HP. rewrite <- Hc3 in HP.
      apply Forall_app in HP. cbn. tauto.
  - change (x ++ concat dl) with (concat (x :: dl)). split; [lia|]. split.
    + rewrite <- Hp1, <- Hc3, !printables_app, <- Hdp. reflexivity.
    + intros P HP. apply HP1 in HP. rewrite <- Hc3 in HP.
      apply Forall_app in HP. apply Forall_app. split; [|tauto].
      apply HdP. tauto.
Qed.

Lemma wrap_chunks_go_spec (width : nat) :
  1 <= width ->
  forall (fuel : nat) (chunks lines : list str),
    weight chunks <= fuel ->
    exists out,
      wrap_chunks_go fuel width lines chunks = Ok (lines ++ out)
      /\ Forall (fun l => length l <= width) out
      /\ printables (concat out) = printables (concat chunks)
      /\ forall P : ascii -> Prop,
           Forall P (concat chunks) -> Forall (Forall P) out.
Proof.
  intros Hw. induction fuel as [|fuel IH]; intros chunks lines Hfuel.
  - destruct chunks; [|cbn in Hfuel; lia].
    exists []. cbn. rewrite app_nil_r. repeat split; constructor.
  - destruct chunks as [|c r].
    { exists []. cbn. rewrite app_nil_r. repeat split; constructor. }
    cbn [wrap_chunks_go].
    destruct (wrap_line width match lines with [] => true | _ :: _ => false end
                        (c :: r)) as [line rest] eqn:El.
    destruct (wrap_line_spec _ _ (c :: r) _ _ Hw ltac:(discriminate) El)
      as (Hwt & Hlen & Hpr & HP).
    destruct (IH rest (match line with
                       | Some l => lines ++ [l]
                       | None => lines
                       end) ltac:(lia)) as (out & Hgo & Hall & Hpo & HPo).
    rewrite Hgo. destruct line as [l|]; cbn [line_text] in *.
    + exists (l :: out). rewrite <- app_assoc. split; [reflexivity|].
      split; [constructor; assumption|]. split.
      * cbn [concat]. rewrite printables_app, Hpo, <- printables_app. exact Hpr.
      * intros P HPc. apply HP in HPc. apply Forall_app in HPc as [H1 H2].
        constructor; [assumption | now apply HPo].
    + exists out. split; [reflexivity|]. split; [assumption|]. split.
      * rewrite Hpo. exact Hpr.
      * intros P HPc. apply HP in HPc. now apply HPo.
Qed.

Lemma emit_concat (cur : str) : concat (emit cur) = rev cur.
Proof. destruct cur; [reflexivity|]. cbn [emit concat]. apply app_nil_r. Qed.

(** The chunks of a text are the text cut in pieces. *)
Lemma split_go_concat (s : str) :
  forall (prev : option ascii) (inmatch : nat) (cur : str),
    concat (split_go prev inmatch cur s) = rev cur ++ s.
Proof.
  induction s as [|c r IH]; intros prev inmatch cur.
  - cbn [split_go]. rewrite emit_concat. now rewrite app_nil_r.
  - cbn [split_go]. destruct inmatch as [|[|k]].
    + destruct (match_wordsep prev (c :: r)) as [|[|n]].
      * rewrite IH. cbn [rev]. now rewrite <- app_assoc.
      * rewrite concat_app, emit_concat. cbn [concat]. now rewrite IH.
      * rewrite concat_app, emit_concat, IH. reflexivity.
    + cbn [concat]. rewrite IH. cbn [rev app]. now rewrite <- app_assoc.
    + rewrite IH. cbn [rev]. now rewrite <- app_assoc.
Qed.

Lemma split_concat (s : str) : concat (split s) = s.
Proof. unfold split. now rewrite split_go_concat. Qed.

Lemma printables_repeat_SP (n : nat) : printables (repeat SP n) = [].
Proof. induction n; [reflexivity | assumption]. Qed.

Lemma printables_cons (c : ascii) (s : str) :
  printables (c :: s) = if printable c then c :: printables s else printables s.
Proof. reflexivity. Qed.

Lemma expandtabs_go_printables (s : str) :
  forall col, printables (expandtabs_go col s) = printables s.
Proof.
  induction s as [|c r IH]; intros col; [reflexivity|].
  cbn [expandtabs_go]. destruct (Ascii.eqb c TAB) eqn:Et.
  - apply Ascii.eqb_eq in Et. subst c.
    rewrite printables_app, printables_repeat_SP, IH. reflexivity.
  - destruct (Ascii.eqb c LF || Ascii.eqb c CR);
      rewrite !printables_cons, IH; reflexivity.
Qed.

Lemma munge_whitespace_printables (s : str) :
  printables (munge_whitespace s) = printables s.
Proof.
  unfold munge_whitespace, expandtabs.
  rewrite <- (expandtabs_go_printables s 0).
  induction (expandtabs_go 0 s) as [|c r IH]; [reflexivity|].
  cbn [map]. rewrite !printables_cons, IH. unfold printable.
  destruct (isspace c) eqn:E; cbn beta; rewrite ?E; reflexivity.
Qed.

Lemma munge_whitespace_no_newline (s : str) :
  Forall (fun c => c <> LF) (munge_whitespace s).
Proof.
  unfold munge_whitespace. apply Forall_map.
  induction (expandtabs s) as [|c r IH]; constructor; [|assumption].
  destruct (isspace c) eqn:E; [discriminate|].
  intros ->. discriminate E.
Qed.

Lemma printables_dropwhile (s : str) :
  printables (dropwhile isspace s) = printables s.
Proof.
  induction s as [|c r IH]; [reflexivity|].
  cbn [dropwhile]. destruct (isspace c) eqn:E; [|reflexivity].
  rewrite printables_cons. unfold printable. rewrite E. exact IH.
Qed.

Lemma printables_rev (s : str) : printables (rev s) = rev (printables s).
Proof. apply List.filter_rev. Qed.

Lemma strip_printables (s : str) : printables (strip s) = printables s.
Proof.
  unfold strip, rstrip, lstrip.
  rewrite printables_rev, printables_dropwhile, printables_rev, rev_involutive.
  apply printables_dropwhile.
Qed.

Lemma printables_join (ls : list str) :
  printables (join [LF] ls) = concat (map printables ls).
Proof.
  induction ls as [|x [|y r] IH]; [reflexivity | cbn; now rewrite app_nil_r|].
  change (join [LF] (x :: y :: r)) with (x ++ [LF] ++ join [LF] (y :: r)).
  rewrite !printables_app, IH. reflexivity.
Qed.

Lemma split_nl_go_join (s : str) :
  forall cur, join [LF] (split_nl_go cur s) = rev cur ++ s.
Proof.
  induction s as [|c r IH]; intros cur.
  - cbn. now rewrite app_nil_r.
  - cbn [split_nl_go]. destruct (Ascii.eqb c LF) eqn:E.
    + apply Ascii.eqb_eq in E. subst c. specialize (IH []).
      destruct (split_nl_go [] r) as [|y ys] eqn:Es.
      * destruct r; cbn in Es; [discriminate|].
        destruct (Ascii.eqb a LF); discriminate.
      * change (join [LF] (rev cur :: y :: ys))
          with (rev cur ++ [LF] ++ join [LF] (y :: ys)).
        rewrite IH. reflexivity.
    + rewrite IH. cbn [rev]. now rewrite <- app_assoc.
Qed.

Lemma split_nl_join (s : str) : join [LF] (split_nl s) = s.
Proof. apply (split_nl_go_join s []). Qed.

Lemma blanks_printables (s : str) : blanks s -> printables s = [].
Proof.
  induction 1 as [|c r Hc _ IH]; [reflexivity|].
  rewrite printables_cons, IH. unfold printable, is_sp_tab in *.
  apply orb_true_iff in Hc as [Hc | Hc]; apply Ascii.eqb_eq in Hc; now subst.
Qed.

Lemma blank_line_printables (l : str) :
  printables (blank_line l) = printables l.
Proof.
  unfold blank_line. destruct (forallb is_sp_tab l) eqn:E; [|reflexivity].
  symmetry. apply blanks_printables. apply List.Forall_forall.
  exact (proj1 (List.forallb_forall _ _) E).
Qed.

Lemma unindent_printables (m l : str) :
  blanks m -> printables (unindent m l) = printables l.
Proof.
  intros Hm. unfold unindent. destruct (startswith l m) eqn:E; [|reflexivity].
  rewrite (startswith_inv _ _ E) at 2.
  now rewrite printables_app, (blanks_printables m Hm).
Qed.

Lemma takewhile_blanks (l : str) : blanks (takewhile is_sp_tab l).
Proof.
  induction l as [|c r IH]; [constructor|].
  cbn. destruct (is_sp_tab c) eqn:E; constructor; assumption.
Qed.

Lemma common_prefix_blanks (a b : str) : blanks a -> blanks (common_prefix a b).
Proof.
  intros Ha. revert b. induction Ha as [|x a Hx _ IH]; intros b; [constructor|].
  destruct b as [|y b]; [constructor|]. cbn.
  destruct (Ascii.eqb x y); constructor; [assumption | apply IH].
Qed.

Lemma margin_blanks (indents : list str) :
  Forall blanks indents ->
  forall acc m,
    (forall a, acc = Some a -> blanks a) ->
    fold_left margin_step indents acc = Some m -> blanks m.
Proof.
  induction 1 as [|i r Hi _ IH]; intros acc m Hacc.
  - cbn. apply Hacc.
  - cbn [fold_left]. apply IH. intros a. unfold margin_step.
    destruct acc as [m0|]; [|now intros [= <-]].
    specialize (Hacc m0 eq_refl).
    destruct (startswith i m0); [now intros [= <-]|].
    destruct (startswith m0 i); intros [= <-]; [assumption|].
    now apply common_prefix_blanks.
Qed.

Lemma leading_blanks (lines : list str) : Forall blanks (omap leading lines).
Proof.
  apply List.Forall_forall. intros i Hi. rewrite <- list_elem_of_In in Hi.
  apply list_elem_of_omap in Hi as (l & _ & Hl). unfold leading in Hl.
  destruct (dropwhile is_sp_tab l); [discriminate|].
  injection Hl as <-. apply takewhile_blanks.
Qed.

Lemma printables_join_map (f : str -> str) (ls : list str) :
  (forall l, printables (f l) = printables l) ->
  printables (join [LF] (map f ls)) = printables (join [LF] ls).
Proof.
  intros Hf. rewrite !printables_join, List.map_map. f_equal.
  apply map_ext. exact Hf.
Qed.

Lemma dedent_printables (t : str) : printables (dedent t) = printables t.
Proof.
  unfold dedent. set (lines := split_nl t).
  replace (printables t) with (printables (join [LF] lines))
    by (subst lines; now rewrite split_nl_join).
  destruct (fold_left margin_step (omap leading (map blank_line lines)) None)
    as [[|c m]|] eqn:Em.
  - now apply printables_join_map, blank_line_printables.
  - rewrite List.map_map. apply printables_join_map. intros l.
    rewrite unindent_printables; [apply blank_line_printables|].
    eapply margin_blanks; [apply leading_blanks | | exact Em]. discriminate.
  - now apply printables_join_map, blank_line_printables.
Qed.

(** [textwrap.fill] at a positive width: it returns, no line is longer than
    the width, no line holds a newline, and the printable characters are
    those of the text. *)
Lemma fill_spec (text : str) (width : Z) :
  (1 <= width)%Z ->
  exists lines,
    wrap text width = Ok lines
    /\ fill text width = Ok (join [LF] lines)
    /\ Forall (fun l => (Z.of_nat (length l) <= width)%Z
                        /\ Forall (fun c => c <> LF) l) lines
    /\ printables (join [LF] lines) = printables text.
Proof.
  intros Hw. unfold fill, wrap, wrap_chunks.
  destruct (width <=? 0)%Z eqn:E; [apply Z.leb_le in E; lia|].
  set (chunks := split (munge_whitespace text)).
  destruct (wrap_chunks_go_spec (Z.to_nat width) ltac:(lia) (weight chunks)
              chunks [] (le_n _)) as (out & Hgo & Hlen & Hpr & HP).
  cbn [app] in Hgo. exists out. rewrite Hgo. split; [reflexivity|].
  split; [reflexivity|]. split.
  - specialize (HP (fun c => c <> LF)).
    assert (Hnl : Forall (Forall (fun c => c <> LF)) out).
    { apply HP. subst chunks. rewrite split_concat.
      apply munge_whitespace_no_newline. }
    clear -Hlen Hnl Hw. induction Hlen as [|l out Hl _ IH]; [constructor|].
    apply Forall_cons in Hnl as [Hl' Hnl]. constructor; [|now apply IH].
    split; [lia | assumption].
  - rewrite printables_join.
    assert (Hcm : forall ls : list str,
               concat (map printables ls) = printables (concat ls)).
    { induction ls as [|x ls IH]; [reflexivity|].
      cbn [map concat]. now rewrite printables_app, IH. }
    rewrite Hcm, Hpr. subst chunks. rewrite split_concat.
    apply munge_whitespace_printables.
Qed.

Lemma startswith_char (t : str) (c : ascii) :
  startswith t [c] = true -> exists a, t = c :: a.
Proof. intros H. apply startswith_inv in H. eexists. exact H. Qed.

Lemma endswith_char (t : str) (c : ascii) :
  endswith t [c] = true -> exists b, t = b ++ [c].
Proof.
  unfold endswith. intros H. apply startswith_char in H as [a Ha].
  exists (rev a). rewrite <- (rev_involutive t), Ha. reflexivity.
Qed.

(** C3, as the code has it: a text run of a node that is no code node, that
    is no placeholder and that is longer than the available width (terminal
    columns less the length of indent plus prefix, at least 5) is dedented,
    stripped and filled by [textwrap.fill] at that width.  The call
    returns; no line of the result is longer than the available width, so a
    longer word is cut; and the printable characters of the result are those
    of the text in the same order, so their number does not grow. *)
Theorem rewrap_reflow (g : Globals) (tag t ind pref : str) :
  let cols := Z.max (term_columns g - Z.of_nat (length (ind ++ pref))) 5 in
  tag <> txt "code" ->
  (cols < Z.of_nat (length t))%Z ->
  ~ (exists a b, t = chr 2 :: a /\ t = b ++ [chr 3]) ->
  exists lines,
    rewrap g tag t ind pref = Ok (join [LF] lines)
    /\ Textwrap.wrap (strip (Textwrap.dedent t)) cols = Ok lines
    /\ Forall (fun l => (Z.of_nat (length l) <= cols)%Z
                        /\ Forall (fun c => c <> LF) l) lines
    /\ printables (join [LF] lines) = printables t
    /\ length (printables (join [LF] lines)) <= length (printables t).
Proof.
  intros cols Htag Hlong Hph. unfold rewrap. fold cols.
  destruct (bool_decide (tag = txt "code")) eqn:Ec;
    [apply bool_decide_eq_true in Ec; contradiction|].
  destruct (Z.of_nat (length t) <=? cols)%Z eqn:El;
    [apply Z.leb_le in El; lia|].
  cbn [orb].
  destruct (startswith t [chr 2] && endswith t [chr 3]) eqn:Ep.
  { exfalso. apply Hph. apply andb_true_iff in Ep as [Hs He].
    apply startswith_char in Hs as [a Ha]. apply endswith_char in He as [b Hb].
    now exists a, b. }
  destruct (fill_spec (strip (dedent t)) cols ltac:(lia))
    as (lines & Hwrap & Hfill & Hall & Hpr).
  exists lines. rewrite Hfill.
  assert (Hp : printables (join [LF] lines) = printables t)
    by now rewrite Hpr, strip_printables, dedent_printables.
  repeat split; try assumption. now rewrite Hp.
Qed.

Lemma rewrap_reflow_witness :
  exists lines,
    rewrap (globals0 12 true) (txt "p") (txt "  one two three four") (txt "  ") []
    = Ok (join [LF] lines)
    /\ Textwrap.wrap (strip (Textwrap.dedent (txt "  one two three four"))) 10
       = Ok lines
    /\ Forall (fun l => (Z.of_nat (length l) <= 10)%Z
                        /\ Forall (fun c => c <> LF) l) lines
    /\ printables (join [LF] lines) = printables (txt "  one two three four")
    /\ length (printables (join [LF] lines))
       <= length (printables (txt "  one two three four")).
Proof.
  apply (rewrap_reflow (globals0 12 true) (txt "p")
           (txt "  one two three four") (txt "  ") []).
  - discriminate.
  - vm_compute. reflexivity.
  - intros (a & b & Ha & Hb). discriminate Ha.
Defined.

(** C3 as stated fails: a word of ten characters at an available width of
    five is cut in two. *)
Lemma rewrap_breaks_long_word :
  exists ret,
    rewrap (globals0 5 true) (txt "p") (txt "abcdefghij") [] [] = Ok ret
    /\ ret = txt "abcde" ++ [LF] ++ txt "fghij"
    /\ contains ret (txt "abcdefghij") = false.
Proof. eexists. vm_compute. repeat split. Qed.

(** ** Admonitions *)

Lemma rewrap_total (g : Globals) (tag t ind pref : str) :
  exists r, rewrap g tag t ind pref = Ok r.
Proof.
  unfold rewrap.
  destruct (bool_decide (tag = txt "code") || _); [eexists; reflexivity|].
  destruct (startswith t [chr 2] && endswith t [chr 3]); [eexists; reflexivity|].
  destruct (fill_spec (strip (dedent t))
              (Z.max (term_columns g - Z.of_nat (length (ind ++ pref))) 5)
              ltac:(lia)) as (lines & _ & Hfill & _).
  eexists. exact Hfill.
Qed.




Lemma partition_first (a sep b : str) (c : ascii) :
  ~ In c a -> sep = [c] -> partition (a ++ sep ++ b) sep = Some (a, b).
Proof.
  intros Ha ->. induction a as [|x a IH]; cbn [app].
  - cbn. now rewrite Ascii.eqb_refl.
  - cbn [partition startswith].
    destruct (Ascii.eqb x c) eqn:E;
      [apply Ascii.eqb_eq in E; subst; exfalso; apply Ha; now left|].
    cbn [andb]. cbn [app] in IH. rewrite IH; [reflexivity|].
    intros Hin. apply Ha. now right.
Qed.

Lemma partition_absent (a : str) (c : ascii) :
  ~ In c a -> partition a [c] = None.
Proof.
  induction a as [|x a IH]; intros Ha; [reflexivity|].
  cbn [partition startswith].
  destruct (Ascii.eqb x c) eqn:E;
    [apply Ascii.eqb_eq in E; subst; exfalso; apply Ha; now left|].
  cbn [andb]. rewrite IH; [reflexivity|]. intros Hin. apply Ha. now right.
Qed.

Lemma partition_found (o : ascii) (sep a b : str) :
  exists x y, partition (a ++ (o :: sep) ++ b) (o :: sep) = Some (x, y).
Proof.
  induction a as [|c a IH].
  - pose proof (startswith_app (o :: sep) b) as Hs. cbn [app] in Hs.
    cbn [app partition]. rewrite Hs. eexists _, _. reflexivity.
  - destruct IH as (x & y & IH). cbn [app]. cbn [partition].
    destruct (startswith _ _); [eexists _, _; reflexivity|].
    cbn [app] in IH. rewrite IH. eexists _, _. reflexivity.
Qed.

Lemma partition_prefix (o : ascii) (sep r : str) :
  partition ((o :: sep) ++ r) (o :: sep) = Some ([], r).
Proof.
  pose proof (startswith_app (o :: sep) r) as H.
  cbn [app] in H |- *. cbn [partition]. rewrite H. f_equal. f_equal.
  apply (skipn_app_exact (o :: sep) r).
Qed.

Lemma partition_skip (c o : ascii) (r sep : str) :
  c <> o ->
  partition (c :: r) (o :: sep)
  = match partition r (o :: sep) with
    | Some (a, b) => Some (c :: a, b)
    | None => None
    end.
Proof.
  intros Hne. cbn [partition startswith].
  destruct (Ascii.eqb c o) eqn:E; [apply Ascii.eqb_eq in E; contradiction|].
  reflexivity.
Qed.

Lemma partition_after_mark (o : ascii) (k rest : str) :
  o <> "!"%char -> o <> SP ->
  partition (txt "!!! " ++ (o :: k) ++ rest) (o :: k) = Some (txt "!!! ", rest).
Proof.
  intros H1 H2. unfold txt. cbn [list_ascii_of_string].
  change (["!"; "!"; "!"; " "] ++ (o :: k) ++ rest)%char
    with ("!" :: "!" :: "!" :: " " :: ((o :: k) ++ rest))%char.
  assert (H1' : "!"%char <> o) by congruence.
  assert (H2' : " "%char <> o) by (intros E; apply H2; now rewrite <- E).
  rewrite !(partition_skip "!") by assumption.
  rewrite (partition_skip " ") by assumption.
  now rewrite partition_prefix.
Qed.

Section Admonitions.

Variable style_ansi : str -> option str -> str.

Lemma Tags_h_ok (g : Globals) (s : str) (level : Z) :
  (1 <= level <= 5)%Z -> exists r, Tags_h g s level = Ok r.
Proof.
  intros H. unfold Tags_h. rewrite heading_colour_ok by assumption.
  eexists. reflexivity.
Qed.

Lemma tag_fmt_func_ok (g : Globals) (tag s : str) (hir : Z) :
  tag <> txt "h" -> tag <> txt "hr" ->
  exists r, tag_fmt_func style_ansi g tag s hir = Ok r.
Proof.
  intros Hh Hhr. unfold tag_fmt_func.
  repeat case_bool_decide;
    first [ contradiction
          | apply Tags_h_ok; lia
          | eexists; reflexivity ].
Qed.

Lemma append_last_mid (out mid : list str) (s : str) :
  mid <> [] ->
  exists mid',
    append_last (out ++ mid) s = Ok (out ++ mid')
    /\ concat mid' = concat mid ++ s /\ mid' <> [].
Proof.
  intros Hmid. destruct (exists_last Hmid) as (mid0 & x & ->).
  exists (mid0 ++ [x ++ s]). unfold append_last.
  rewrite app_assoc, rev_app_distr. cbn [rev app].
  rewrite rev_involutive, <- app_assoc. split; [reflexivity|]. split.
  - rewrite !concat_app. cbn [concat]. rewrite !app_nil_r.
    now rewrite app_assoc.
  - intros H. apply app_eq_nil in H as [_ H]. discriminate H.
Qed.

Lemma append_links (f : str -> str) (out : list str) (links : list str) :
  forall mid, mid <> [] ->
  exists mid' tail,
    foldM (fun out l => append_last out (f l)) (out ++ mid) links
    = Ok (out ++ mid')
    /\ concat mid' = concat mid ++ tail /\ mid' <> [].
Proof.
  induction links as [|l links IH]; intros mid Hmid.
  - exists mid, []. cbn. rewrite app_nil_r. auto.
  - cbn [foldM].
    destruct (append_last_mid out mid (f l) Hmid) as (mid1 & -> & Hc & Hne).
    cbn [mbind result_bind].
    destruct (IH mid1 Hne) as (mid' & tail & -> & Hc' & Hne').
    exists mid', (f l ++ tail). rewrite Hc', Hc, <- app_assoc. auto.
Qed.


Lemma col_cons (g : Globals) (s : str) (c : Z) (no_reset : bool) :
  exists r, col g s c no_reset = ESC :: r.
Proof. unfold col, col_seq. cbn [app]. eexists. reflexivity. Qed.

Lemma split1_head_ok (s : str) (o : ascii) (sep : str) :
  exists x, split1_head s (o :: sep) = Ok x.
Proof.
  unfold split1_head. destruct (partition s (o :: sep)) as [[a b]|];
    eexists; reflexivity.
Qed.

(** The colouring of a prefix that is not empty never fails. *)
Lemma prefix_colour_ok (g : Globals) (pref : str) (hir : Z) :
  exists r,
    match pref with
    | [] => Ok pref
    | _ :: _ =>
        match heading_colour g ((hir - 2) mod 5 + 1) with
        | Ok a1 =>
            if bool_decide (pref = list_pref)
            then Ok (col g pref a1 false)
            else
              match split1_head pref (txt ".") with
              | Ok a2 =>
                  if isdigit a2 then Ok (col g pref a1 false) else Ok pref
              | Raise e => Raise e
              | NoFuel => NoFuel
              end
        | Raise e => Raise e
        | NoFuel => NoFuel
        end
    end = Ok r.
Proof.
  destruct pref as [|x pref]; [eexists; reflexivity|].
  rewrite heading_colour_ok
    by (pose proof (Z.mod_pos_bound (hir - 2) 5); lia).
  destruct (bool_decide _); [eexists; reflexivity|].
  destruct (split1_head_ok (x :: pref) "." []) as [n Hn].
  change (txt ".") with ["."%char]. rewrite Hn.
  destruct (isdigit n); eexists; reflexivity.
Qed.







End Admonitions.



(** On Python 3 the index into [values()] raises: a keyword that is not in
    the table stops the rendering. *)
Example unknown_admonition_python3 :
  formatter_text (fun s _ => s) (on_python (globals0 80 true) Python3) []
                 (txt "p") (txt "!!! foo bar baz") [] [] 1 false
  = Raise TypeError.
Proof. vm_compute. reflexivity. Qed.

(** A mark followed by a second blank makes the keyword empty, and cutting
    the text at an empty keyword raises. *)
Example empty_keyword_raises :
  formatter_text (fun s _ => s) (globals0 80 true) [] (txt "p")
                 (txt "!!!  x") [] [] 1 false
  = Raise ValueError.
Proof. vm_compute. reflexivity. Qed.

(** ** Tables *)

Lemma firstn_min_length {A : Type} (k : nat) (l : list A) :
  firstn (Nat.min k (length l)) l = firstn k l.
Proof.
  destruct (Nat.le_ge_cases k (length l)) as [H | H].
  - now rewrite Nat.min_l.
  - rewrite Nat.min_r by assumption. now rewrite !firstn_all2 by lia.
Qed.

(** A slice with bounds that are not negative. *)
Lemma slice_nat (s : str) (a b : nat) :
  a <= b ->
  slice s (Z.of_nat a) (Z.of_nat b) = firstn (b - a) (skipn a s).
Proof.
  intros Hab. unfold slice, norm_index.
  destruct (Z.of_nat a <? 0)%Z eqn:Ea; [apply Z.ltb_lt in Ea; lia|].
  destruct (Z.of_nat b <? 0)%Z eqn:Eb; [apply Z.ltb_lt in Eb; lia|].
  rewrite !Nat2Z.id.
  destruct (Nat.le_gt_cases a (length s)) as [Ha | Ha].
  - rewrite (Nat.min_l a) by assumption.
    rewrite <- (firstn_min_length (b - a)), length_skipn.
    f_equal. lia.
  - rewrite (Nat.min_r a) by lia. rewrite (Nat.min_r b) by lia.
    rewrite !skipn_all2 by lia. now rewrite !firstn_nil.
Qed.

(** Consecutive pieces of [s] characters from position [a] on make up the
    text from [a] on, when there are enough of them. *)
Lemma pieces_concat (l : str) (s : nat) :
  forall (m a : nat),
    length l <= a + m * s ->
    concat (map (fun k => firstn s (skipn (a + k * s) l)) (seq 0 m))
    = skipn a l.
Proof.
  induction m as [|m IH]; intros a Hlen.
  - cbn. now rewrite skipn_all2 by lia.
  - cbn [seq map concat]. rewrite <- seq_shift, List.map_map.
    rewrite Nat.mul_0_l, Nat.add_0_r.
    rewrite (map_ext _ (fun k => firstn s (skipn (a + s + k * s) l)))
      by (intros k; do 2 f_equal; lia).
    rewrite IH by lia.
    etransitivity; [|apply (firstn_skipn s)].
    f_equal. rewrite skipn_skipn. f_equal. lia.
Qed.

Lemma range_up (start stop step : Z) :
  (0 < step)%Z -> (start <= stop)%Z ->
  let m := range_len start stop step in
  range start stop step
  = Ok (map (fun k => (start + Z.of_nat k * step)%Z) (seq 0 m))
  /\ (stop <= start + Z.of_nat m * step)%Z
  /\ ((start < stop)%Z -> 1 <= m).
Proof.
  intros Hstep Hle m. subst m. unfold range, range_len.
  destruct (step =? 0)%Z eqn:E0; [apply Z.eqb_eq in E0; lia|].
  destruct (0 <? step)%Z eqn:E1; [|apply Z.ltb_ge in E1; lia].
  set (q := ((stop - start + step - 1) / step)%Z).
  split; [reflexivity|].
  assert (Hq : (0 <= q)%Z) by (apply Z.div_pos; lia).
  pose proof (Z.div_mod (stop - start + step - 1) step ltac:(lia)) as Hdm.
  pose proof (Z.mod_pos_bound (stop - start + step - 1) step Hstep) as Hb.
  fold q in Hdm. rewrite Z2Nat.id by assumption. split; [nia|].
  intros Hlt. assert (1 <= q)%Z; [|lia].
  apply Z.div_le_lower_bound; lia.
Qed.

Lemma length_ljust (line : str) (w : nat) :
  length line <= w -> length (ljust line w) = w.
Proof. intros H. unfold ljust. rewrite length_app, repeat_length. lia. Qed.

Lemma split_line_spec (g : Globals) (w : nat) (cols : Z) (line : str) :
  (3 <= cols)%Z -> (cols < Z.of_nat w)%Z -> length line <= w ->
  split_line g w cols line = Ok (parts_of g (column_ranges w cols line))
  /\ concat (column_ranges w cols line) = ljust line w
  /\ length (column_ranges w cols line) = part_count w cols
  /\ length (hd [] (column_ranges w cols line)) = Z.to_nat cols
  /\ Forall (fun r => length r <= Z.to_nat (cols - 2))
            (tl (column_ranges w cols line)).
Proof.
  intros Hc Hw Hl. unfold split_line, part_count, column_ranges.
  pose proof (length_ljust line w Hl) as Hlen.
  set (l := ljust line w) in *. rewrite Hlen.
  destruct (range_up cols (Z.of_nat w) (cols - 2) ltac:(lia) ltac:(lia))
    as (Hr & Hcover & _).
  set (m := range_len cols (Z.of_nat w) (cols - 2)) in *.
  rewrite Hr. unfold mbind, result_bind.
  set (c := Z.to_nat cols). set (s := Z.to_nat (cols - 2)).
  assert (Hslice : forall k,
             slice l (cols + Z.of_nat k * (cols - 2))
                     (cols + Z.of_nat k * (cols - 2) + (cols - 2))
             = firstn s (skipn (c + k * s) l)).
  { intros k.
    replace (cols + Z.of_nat k * (cols - 2))%Z with (Z.of_nat (c + k * s))
      by (subst c s; nia).
    replace (Z.of_nat (c + k * s) + (cols - 2))%Z
      with (Z.of_nat (c + k * s + s)) by (subst c s; nia).
    rewrite slice_nat by lia. f_equal. lia. }
  split; [|split; [|split; [|split]]].
  - f_equal. cbn [parts_of]. f_equal.
    + change 0%Z with (Z.of_nat 0).
      replace cols with (Z.of_nat c) by (subst c; lia).
      rewrite slice_nat by lia. now rewrite Nat.sub_0_r.
    + rewrite !List.map_map. apply map_ext. intros k.
      rewrite Hslice. reflexivity.
  - cbn [concat]. rewrite pieces_concat by (subst c s; nia).
    apply firstn_skipn.
  - cbn [length]. now rewrite length_map, length_seq.
  - cbn [hd]. rewrite length_firstn. subst c. lia.
  - cbn [tl]. apply Forall_map. apply List.Forall_forall. intros k _.
    rewrite length_firstn. lia.
Qed.

Lemma part_count_ge_2 (w : nat) (cols : Z) :
  (3 <= cols)%Z -> (cols < Z.of_nat w)%Z -> 2 <= part_count w cols.
Proof.
  intros Hc Hw. unfold part_count.
  destruct (range_up cols (Z.of_nat w) (cols - 2) ltac:(lia) ltac:(lia))
    as (_ & _ & H).
  specialize (H Hw). lia.
Qed.

(** A loop that appends one result per element. *)
Lemma foldM_collect {A B : Type} (f : A -> result B) (h : A -> B)
    (l : list A) :
  Forall (fun x => f x = Ok (h x)) l ->
  forall acc,
    foldM (fun acc x => p ← f x; Ok (acc ++ [p])) acc l
    = Ok (acc ++ map h l).
Proof.
  induction 1 as [|x l Hx _ IH]; intros acc.
  - cbn. now rewrite app_nil_r.
  - cbn [foldM map]. rewrite Hx, !bind_Ok.
    rewrite IH, <- app_assoc. reflexivity.
Qed.

Lemma getitem_nth {A : Type} (l : list A) (i : nat) (d : A) :
  i < length l -> getitem l i = Ok (nth i l d).
Proof.
  intros H. unfold getitem.
  destruct (nth_error l i) eqn:E.
  - now rewrite (nth_error_nth _ _ d E).
  - apply nth_error_None in E. lia.
Qed.

Lemma setitem_ok {A : Type} (l : list A) (i : nat) (x : A) :
  i < length l -> setitem l i x = Ok (<[i := x]> l).
Proof.
  intros H. unfold setitem. apply Nat.ltb_lt in H. now rewrite H.
Qed.

Lemma borders_ok (g : Globals) (t : list str) :
  t <> [] ->
  exists t',
    borders g t = Ok t' /\ length t' = length t
    /\ forall i, 0 < i < length t - 1 -> t' !! i = t !! i.
Proof.
  intros Ht. unfold borders.
  rewrite (getitem_nth t 0 []) by (destruct t; [contradiction | cbn; lia]).
  unfold mbind, result_bind.
  rewrite setitem_ok by (destruct t; [contradiction | cbn; lia]).
  rewrite setitem_ok
    by (rewrite length_insert; destruct t; [contradiction | cbn; lia]).
  eexists. split; [reflexivity|]. split.
  - now rewrite !length_insert.
  - intros i Hi. rewrite length_insert.
    rewrite !list_lookup_insert_ne by lia. reflexivity.
Qed.

Lemma borders_eq (g : Globals) (t : list str) :
  t <> [] ->
  borders g t
  = Ok (<[length t - 1 := low g (replace (nth 0 t []) (txt "-") hr_sep)]>
          (<[0 := low g (replace (nth 0 t []) (txt "-") hr_sep)]> t)).
Proof.
  intros Ht. unfold borders.
  rewrite (getitem_nth t 0 []) by (destruct t; [contradiction | cbn; lia]).
  rewrite bind_Ok.
  rewrite setitem_ok by (destruct t; [contradiction | cbn; lia]).
  rewrite bind_Ok.
  rewrite setitem_ok
    by (rewrite length_insert; destruct t; [contradiction | cbn; lia]).
  now rewrite length_insert.
Qed.

(** A block is the parts of its number, one of every line, dressed. *)
Lemma block_ok (g : Globals) (ts : list (list str)) (n nr : nat) :
  Forall (fun parts => length parts = n) ts ->
  nr < n -> 2 <= length ts ->
  block g ts nr
  = Ok (join [LF] (dressed g (map (fun parts => nth nr parts []) ts))).
Proof.
  intros Hts Hnr Hlen. unfold block.
  assert (Hparts : forall acc,
             foldM (fun tpart lines_block =>
                      p ← getitem lines_block nr; Ok (tpart ++ [p])) acc ts
             = Ok (acc ++ map (fun lb => nth nr lb []) ts)).
  { apply foldM_collect. eapply List.Forall_impl; [|exact Hts].
    intros parts Hp. apply getitem_nth. cbn beta in Hp. lia. }
  rewrite Hparts. cbn [app]. rewrite bind_Ok.
  set (tpart := map (fun lb => nth nr lb []) ts).
  assert (Htl : length tpart = length ts) by apply length_map.
  rewrite borders_eq
    by (intros E; rewrite E in Htl; cbn in Htl; lia).
  rewrite bind_Ok.
  rewrite (getitem_nth _ 1 []) by (rewrite !length_insert; lia).
  rewrite bind_Ok.
  rewrite setitem_ok by (rewrite !length_insert; lia).
  reflexivity.
Qed.

(** The rows of a dressed block: as many as before, those between the
    second and the last as they were. *)
Lemma dressed_rows (g : Globals) (rows : list str) :
  length (dressed g rows) = length rows
  /\ forall i, 1 < i < length rows - 1 -> dressed g rows !! i = rows !! i.
Proof.
  unfold dressed. split.
  - now rewrite !length_insert.
  - intros i Hi. rewrite !list_lookup_insert_ne by lia. reflexivity.
Qed.

Lemma split_blocks_ok (g : Globals) (text_block : str) (w : nat) (cols : Z) :
  let lines := splitlines text_block in
  (3 <= cols)%Z -> (cols < Z.of_nat w)%Z -> 2 <= length lines ->
  Forall (fun l => length l <= w) lines ->
  split_blocks g text_block w cols
  = Ok (LF :: join [LF] (map (table_block g w cols lines)
                             (seq 0 (part_count w cols))) ++ [LF]).
Proof.
  intros lines Hc Hw Hlen Hall. unfold split_blocks. fold lines.
  set (h := fun line => parts_of g (column_ranges w cols line)).
  assert (Hts : forall acc,
             foldM (fun ts line => parts ← split_line g w cols line;
                                   Ok (ts ++ [parts])) acc lines
             = Ok (acc ++ map h lines)).
  { apply foldM_collect. eapply List.Forall_impl; [|exact Hall].
    intros line Hl. now apply split_line_spec. }
  rewrite Hts. cbn [app]. rewrite bind_Ok.
  set (ts := map h lines).
  assert (Hn : Forall (fun parts => length parts = part_count w cols) ts).
  { subst ts. apply Forall_map. eapply List.Forall_impl; [|exact Hall].
    intros line Hl. subst h. cbn beta.
    destruct (split_line_spec g w cols line Hc Hw Hl) as (_ & _ & Hcount & _).
    rewrite <- Hcount. unfold column_ranges, parts_of. cbn [length].
    now rewrite length_map. }
  assert (Hlts : length ts = length lines) by apply length_map.
  destruct ts as [|ts0 ts'] eqn:Ets; [cbn in Hlts; lia|].
  rewrite <- Ets in *.
  rewrite (getitem_nth ts 0 []) by lia.
  rewrite bind_Ok.
  assert (Hts0 : length (nth 0 ts []) = part_count w cols).
  { rewrite Ets. cbn [nth]. rewrite Ets in Hn. now apply Forall_inv in Hn. }
  rewrite Hts0.
  rewrite (foldM_collect (block g ts) (table_block g w cols lines)).
  - reflexivity.
  - apply List.Forall_forall. intros nr Hnr. apply in_seq in Hnr.
    rewrite (block_ok g ts (part_count w cols)) by (assumption || lia).
    unfold table_block, part_of. subst ts. rewrite Ets. rewrite <- Ets.
    now rewrite List.map_map.
Qed.

Section Tables.

Variable tabulate : list (list str) -> str.

(** C2, as the code has it.  A table whose tabulated width [w] is at most
    the terminal columns is appended row by row, not split, every row
    behind the indent of the hierarchy level, the rows between the first
    and the last as tabulated.  A wider table, on a terminal of at least 3
    columns, is retabulated without colours and split: every line of it,
    padded with blanks to [w], is cut into the same number of two or more
    column ranges, the first [cols] wide and the others at most [cols - 2]
    wide, and the ranges of a line put together again are the padded line,
    that is the line itself when it is [w] wide.  What is appended is,
    between two newlines, one block per range, the blocks in the order of
    the ranges and a newline between them; the block of a range has one
    row per line, and its rows between the second and the last are that
    range of their line, behind the cut mark when the range is not the
    first.  (The table has at least two lines, none wider than [w].) *)
Theorem table_layout (g : Globals) (out : list str) (t : list (list str))
    (hir : Z) :
  let cols := term_columns g in
  let tbl := tabulate t in
  let w := length (hd [] (split_nl tbl)) in
  let lines := splitlines (tabulate (map (map clean_ansi) t)) in
  ((Z.of_nat w <= cols)%Z -> splitlines tbl <> [] ->
   exists rows,
     formatter_table tabulate g out t hir
     = Ok (out ++ map (fun r => mul left_indent hir ++ r) rows)
     /\ length rows = length (splitlines tbl)
     /\ forall i, 0 < i < length rows - 1 -> rows !! i = splitlines tbl !! i)
  /\
  ((cols < Z.of_nat w)%Z -> (3 <= cols)%Z ->
   2 <= length lines -> Forall (fun l => length l <= w) lines ->
   2 <= part_count w cols
   /\ Forall (fun line =>
                split_line g w cols line
                = Ok (parts_of g (column_ranges w cols line))
                /\ length (column_ranges w cols line) = part_count w cols
                /\ length (hd [] (column_ranges w cols line)) = Z.to_nat cols
                /\ Forall (fun r => length r <= Z.to_nat (cols - 2))
                          (tl (column_ranges w cols line))
                /\ concat (column_ranges w cols line) = ljust line w
                /\ (length line = w ->
                    concat (column_ranges w cols line) = line)) lines
   /\ formatter_table tabulate g out t hir
      = Ok (out ++ [LF :: join [LF] (map (table_block g w cols lines)
                                         (seq 0 (part_count w cols)))
                       ++ [LF]])
   /\ forall j, j < part_count w cols ->
        exists rows,
          table_block g w cols lines j = join [LF] rows
          /\ length rows = length lines
          /\ forall i line, 1 < i < length lines - 1 ->
               lines !! i = Some line ->
               rows !! i
               = Some (nth j (hd [] (column_ranges w cols line)
                              :: map (fun r => cut_mark g ++ r)
                                     (tl (column_ranges w cols line))) [])).
Proof.
  intros cols tbl w lines. split.
  - intros Hfit Hrows. unfold formatter_table. fold tbl w cols.
    apply Z.leb_le in Hfit. rewrite Hfit.
    destruct (borders_ok g (splitlines tbl) Hrows) as (rows & -> & Hl & Hmid).
    rewrite bind_Ok. exists rows. split; [reflexivity|]. split; [exact Hl|].
    intros i Hi. apply Hmid. lia.
  - intros Hwide Hc Hlen Hall. split; [now apply part_count_ge_2|]. split.
    { eapply List.Forall_impl; [|exact Hall]. intros line Hl.
      destruct (split_line_spec g w cols line Hc Hwide Hl)
        as (H1 & H2 & H3 & H4 & H5).
      repeat split; try assumption.
      intros Hw. rewrite H2. unfold ljust.
      rewrite Hw, Nat.sub_diag. apply app_nil_r. }
    split.
    + unfold formatter_table. fold tbl w cols.
      apply Z.ltb_lt in Hwide as Hwide'. rewrite Z.ltb_antisym in Hwide'.
      apply negb_true_iff in Hwide'. rewrite Hwide'.
      pose proof (split_blocks_ok g (tabulate (map (map clean_ansi) t)) w cols
                    Hc Hwide Hlen Hall) as Hsplit.
      cbn zeta in Hsplit. fold lines in Hsplit. rewrite Hsplit.
      rewrite bind_Ok. reflexivity.
    + intros j Hj. unfold table_block.
      set (rows := map (fun line => part_of g w cols line j) lines).
      destruct (dressed_rows g rows) as [Hl Hmid].
      exists (dressed g rows). split; [reflexivity|].
      assert (Hrl : length rows = length lines) by apply length_map.
      split; [congruence|].
      intros i line Hi Hline. rewrite Hmid by lia.
      subst rows. change (map ?f lines) with (f <$> lines).
      rewrite list_lookup_fmap, Hline. reflexivity.
Qed.

End Tables.

Lemma table_layout_witness :
  let g := globals0 3 true in
  let lines := splitlines tall_table in
  2 <= part_count 4 3
  /\ Forall (fun line =>
               split_line g 4 3 line = Ok (parts_of g (column_ranges 4 3 line))
               /\ length (column_ranges 4 3 line) = part_count 4 3
               /\ length (hd [] (column_ranges 4 3 line)) = Z.to_nat 3
               /\ Forall (fun r => length r <= Z.to_nat (3 - 2))
                         (tl (column_ranges 4 3 line))
               /\ concat (column_ranges 4 3 line) = ljust line 4
               /\ (length line = 4 -> concat (column_ranges 4 3 line) = line))
            lines
  /\ formatter_table (fun _ => tall_table) g [] [] 1
     = Ok ([] ++ [LF :: join [LF] (map (table_block g 4 3 lines)
                                       (seq 0 (part_count 4 3)))
                     ++ [LF]])
  /\ forall j, j < part_count 4 3 ->
       exists rows,
         table_block g 4 3 lines j = join [LF] rows
         /\ length rows = length lines
         /\ forall i line, 1 < i < length lines - 1 ->
              lines !! i = Some line ->
              rows !! i
              = Some (nth j (hd [] (column_ranges 4 3 line)
                             :: map (fun r => cut_mark g ++ r)
                                    (tl (column_ranges 4 3 line))) []).
Proof.
  apply (proj2 (table_layout (fun _ => tall_table) (globals0 3 true) [] [] 1)).
  - vm_compute. reflexivity.
  - vm_compute. discriminate.
  - vm_compute. lia.
  - vm_compute. repeat constructor.
Defined.

(** The table of width 4 on a terminal of 3 columns, as it is appended:
    the block of the first three columns, then the block of the fourth
    behind the cut mark; in both the first and the last row are rules and
    the second row is coloured. *)
Example small_table_split :
  let g := globals0 3 true in
  formatter_table (fun _ => small_table) g [] [] 1
  = Ok [LF :: join [LF]
                [ join [LF] [low g (txt "─  ");
                             col g (txt "a  ") (H3 g) false;
                             low g (txt "─  ")];
                  join [LF] [low g (cut_mark g ++ txt "─");
                             col g (cut_mark g ++ txt "b") (H3 g) false;
                             low g (cut_mark g ++ txt "─")] ]
           ++ [LF]].
Proof. vm_compute. reflexivity. Qed.

(** C2 as stated fails: on a terminal of one column the table of width 4 is
    not split in two or more blocks.  Every line is cut down to its first
    column and the rest of it is lost. *)
Lemma narrow_terminal_not_split :
  let g := globals0 1 true in
  let only_block :=
    join [LF] [low g hr_sep; col g (txt "a") (H3 g) false; low g hr_sep] in
  split_line g 4 1 (txt "a  b") = Ok [txt "a"]
  /\ formatter_table (fun _ => small_table) g [] [] 1
     = Ok [LF :: join [LF] [only_block] ++ [LF]].
Proof. split; vm_compute; reflexivity. Qed.

(** On a terminal of two columns the step of the range is 0 and the split
    raises. *)
Example two_columns_raise :
  formatter_table (fun _ => small_table) (globals0 2 true) [] [] 1
  = Raise ValueError.
Proof. vm_compute. reflexivity. Qed.

(** ** Sizing the rules *)

(** C5 fails on the code: the rule of level 2 stands 5 columns in, so its
    width is to be min(80, 40) - 2 * 5 = 30; but its line holds the line of
    the rule of level 1, which [set_hr_widths] replaces wherever it occurs
    in the text, and the rule of level 2 comes out 34 wide, as wide as the
    rule of level 1. *)
Lemma nested_rule_wrong_width :
  let g := two_rules_globals in
  let nested := nth 5 two_rules [] in
  rule_width g two_rules nested = 30%Z
  /\ exists sized,
       set_hr_widths g (join [LF] two_rules) = Ok sized
       /\ clean_ansi (nth 5 (split_nl sized) [])
          = txt "  " ++ hr_ends ++ mul hr_sep 34 ++ hr_ends ++ txt "  "
       /\ sized <> join [LF] (map (size_rule g two_rules) two_rules).
Proof.
  split; [vm_compute; reflexivity|].
  eexists. split; [vm_compute; reflexivity|].
  split; [vm_compute; reflexivity|]. vm_compute. discriminate.
Qed.

Lemma clean_go_length (s : str) :
  forall skipping, length (clean_go skipping s) <= length s.
Proof.
  induction s as [|c r IH]; intros skipping; [reflexivity|].
  cbn [clean_go]. destruct skipping.
  - specialize (IH (negb (Ascii.eqb c "m"))). cbn [length]. lia.
  - destruct (Ascii.eqb c ESC && existsb (Ascii.eqb "m"%char) r).
    + specialize (IH true). cbn [length]. lia.
    + specialize (IH false). cbn [length]. lia.
Qed.

Lemma contains_char (s : str) (c : ascii) : contains s [c] = true <-> In c s.
Proof.
  induction s as [|a s IH]; cbn [contains startswith In].
  - split; [discriminate | contradiction].
  - rewrite andb_true_r, orb_true_iff, IH, Ascii.eqb_eq. reflexivity.
Qed.

Lemma is_rule_In (l : str) : is_rule l = true <-> In hr_marker l.
Proof. apply contains_char. Qed.

Lemma scan_line_empty (acc : nat * list str) : scan_line acc [] = acc.
Proof. destruct acc as [[|mw] hrs]; reflexivity. Qed.

(** The first loop of [set_hr_widths] finds the largest width and the rule
    lines. *)
Lemma scan_lines (ls : list str) :
  forall mw hrs,
    fold_left scan_line ls (mw, hrs)
    = (Nat.max mw (max_width ls), hrs ++ List.filter is_rule ls).
Proof.
  induction ls as [|l r IH]; intros mw hrs.
  - cbn. now rewrite Nat.max_0_r, app_nil_r.
  - cbn [fold_left max_width fold_right List.filter scan_line].
    fold (max_width r). fold (is_rule l).
    destruct (is_rule l) eqn:E.
    + rewrite IH, <- app_assoc. reflexivity.
    + pose proof (clean_go_length l false) as Hc. fold (clean_ansi l) in Hc.
      destruct (length l <? mw) eqn:E1.
      * apply Nat.ltb_lt in E1. rewrite IH. f_equal. lia.
      * destruct (mw <? length (clean_ansi l)) eqn:E2.
        -- apply Nat.ltb_lt in E2. rewrite IH. f_equal. lia.
        -- apply Nat.ltb_ge in E2. rewrite IH. f_equal. lia.
Qed.

Lemma splitlines_go_line (x : str) :
  no_break x ->
  forall cur s,
    splitlines_go false cur (x ++ s) = splitlines_go false (rev x ++ cur) s.
Proof.
  induction x as [|c x IH]; intros [Hlf Hcr] cur s; [reflexivity|].
  cbn [app splitlines_go].
  destruct (Ascii.eqb c LF) eqn:E1;
    [apply Ascii.eqb_eq in E1; subst; exfalso; apply Hlf; now left|].
  destruct (Ascii.eqb c CR) eqn:E2;
    [apply Ascii.eqb_eq in E2; subst; exfalso; apply Hcr; now left|].
  rewrite IH.
  - cbn [rev]. now rewrite <- app_assoc.
  - split; intros H; [apply Hlf | apply Hcr]; now right.
Qed.

(** [splitlines] gives the lines back, but for an empty last line, which
    the first loop does not tell from none. *)
Lemma scan_splitlines (ls : list str) :
  Forall no_break ls ->
  forall acc,
    fold_left scan_line (splitlines (join [LF] ls)) acc
    = fold_left scan_line ls acc.
Proof.
  unfold splitlines.
  induction ls as [|x [|y r] IH]; intros Hall acc.
  - reflexivity.
  - apply Forall_inv in Hall. cbn [join].
    rewrite <- (app_nil_r x) at 1. rewrite splitlines_go_line by assumption.
    rewrite app_nil_r. cbn [splitlines_go fold_left].
    destruct (rev x) eqn:E.
    + apply (f_equal (@rev ascii)) in E. rewrite rev_involutive in E.
      cbn in E. subst x. cbn. now rewrite scan_line_empty.
    + rewrite <- E, rev_involutive. reflexivity.
  - pose proof (Forall_inv Hall) as Hx. apply Forall_inv_tail in Hall.
    change (join [LF] (x :: y :: r)) with (x ++ LF :: join [LF] (y :: r)).
    rewrite splitlines_go_line by assumption.
    rewrite app_nil_r. cbn [splitlines_go]. rewrite Ascii.eqb_refl.
    rewrite rev_involutive. cbn [fold_left]. now apply IH.
Qed.

Lemma partition_marker (s : str) (m : ascii) :
  In m s ->
  exists tail,
    partition s [m] = Some (takewhile (fun c => negb (Ascii.eqb c m)) s, tail)
    /\ length s
       = length (takewhile (fun c => negb (Ascii.eqb c m)) s) + 1 + length tail.
Proof.
  induction s as [|c s IH]; [contradiction|]. intros Hin.
  cbn [partition startswith takewhile]. rewrite andb_true_r.
  destruct (Ascii.eqb c m) eqn:E.
  - cbn [negb]. exists s. split; [reflexivity|]. cbn. lia.
  - cbn [negb]. destruct Hin as [-> | Hin];
      [now rewrite Ascii.eqb_refl in E|].
    destruct (IH Hin) as (tail & -> & Hlen). exists tail.
    split; [reflexivity|]. cbn [length]. lia.
Qed.

Lemma startswith_prefix (x z h : str) :
  startswith x h = true -> startswith (x ++ z) h = true.
Proof.
  intros H. apply startswith_inv in H. rewrite H, <- app_assoc.
  apply startswith_app.
Qed.

Lemma startswith_before (c : ascii) (h x y : str) :
  ~ In c h -> startswith (x ++ c :: y) h = startswith x h.
Proof.
  revert x. induction h as [|b h IH]; intros x Hc; [reflexivity|].
  destruct x as [|a x]; cbn [app startswith].
  - destruct (Ascii.eqb c b) eqn:E; [|reflexivity].
    apply Ascii.eqb_eq in E. subst. exfalso. apply Hc. now left.
  - rewrite IH; [reflexivity|]. intros H. apply Hc. now right.
Qed.

(** An occurrence of [old] does not reach across a character that is not in
    [old]. *)
Lemma replace_app_sep (c o : ascii) (old new y : str) :
  ~ In c (o :: old) ->
  forall x,
    replace (x ++ c :: y) (o :: old) new
    = replace x (o :: old) new ++ c :: replace y (o :: old) new.
Proof.
  intros Hc x. induction x as [x IH] using str_length_ind.
  destruct (replace_cases o old x) as [-> | [(r & -> & H) | (a & r & -> & H)]].
  - cbn [app]. rewrite replace_miss; [reflexivity|].
    cbn [startswith]. destruct (Ascii.eqb c o) eqn:E; [|reflexivity].
    apply Ascii.eqb_eq in E. subst. exfalso. apply Hc. now left.
  - rewrite (replace_hit o old new ((o :: old) ++ r)) by assumption.
    rewrite replace_hit by (rewrite startswith_before; assumption).
    rewrite <- app_assoc, !skipn_app_exact, IH, <- app_assoc; [reflexivity|].
    rewrite length_app. cbn [length]. lia.
  - rewrite (replace_miss o old new a r) by assumption.
    change ((a :: r) ++ c :: y) with (a :: (r ++ c :: y)).
    rewrite replace_miss.
    + rewrite IH by (cbn [length]; lia). reflexivity.
    + change (a :: r ++ c :: y) with ((a :: r) ++ c :: y).
      rewrite startswith_before; assumption.
Qed.

Lemma replace_join (o : ascii) (old new : str) (xs : list str) :
  ~ In LF (o :: old) ->
  replace (join [LF] xs) (o :: old) new
  = join [LF] (map (fun x => replace x (o :: old) new) xs).
Proof.
  intros Hlf. induction xs as [|x [|y r] IH]; [reflexivity | reflexivity|].
  change (join [LF] (x :: y :: r)) with (x ++ LF :: join [LF] (y :: r)).
  rewrite replace_app_sep by assumption. rewrite IH. reflexivity.
Qed.

Lemma contains_inv (l h : str) :
  contains l h = true -> exists a b, l = a ++ h ++ b.
Proof.
  induction l as [|c l IH]; cbn [contains].
  - rewrite orb_false_r. intros H. apply startswith_inv in H.
    exists [], (skipn (length h) []). exact H.
  - intros H. apply orb_true_iff in H as [H | H].
    + apply startswith_inv in H. exists [], (skipn (length h) (c :: l)).
      exact H.
    + destruct (IH H) as (a & b & ->). now exists (c :: a), b.
Qed.

Lemma replace_absent (o : ascii) (old new : str) :
  forall s, contains s (o :: old) = false -> replace s (o :: old) new = s.
Proof.
  induction s as [|c s IH]; [reflexivity|].
  cbn [contains]. intros H. apply orb_false_iff in H as [H1 H2].
  rewrite replace_miss by assumption. now rewrite IH.
Qed.

Lemma replace_self (o : ascii) (old new : str) :
  replace (o :: old) (o :: old) new = new.
Proof.
  rewrite replace_hit by (rewrite <- (app_nil_r (o :: old)) at 1;
                          apply startswith_app).
  rewrite <- (app_nil_r (o :: old)) at 2. rewrite skipn_app_exact.
  apply app_nil_r.
Qed.

Lemma mul_hr_sep_no_marker (w : Z) : ~ In hr_marker (mul hr_sep w).
Proof.
  unfold mul. induction (Z.to_nat w) as [|n IH]; [intros []|].
  cbn [repeat concat]. intros H. apply in_app_or in H as [H | H]; [|auto].
  vm_compute in H. firstorder discriminate.
Qed.

Lemma sized_no_marker (new l : str) :
  ~ In hr_marker new -> ~ In hr_marker (replace l [hr_marker] new).
Proof.
  intros Hnew. rewrite replace_char. induction l as [|c l IH]; [intros []|].
  cbn [flat_map]. intros H. apply in_app_or in H as [H | H]; [|auto].
  destruct (Ascii.eqb c hr_marker) eqn:E; [auto|].
  destruct H as [-> | []]. now rewrite Ascii.eqb_refl in E.
Qed.

Lemma subst_plain (m : ascii) (new l : str) :
  ~ In m l -> flat_map (fun c => if Ascii.eqb c m then new else [c]) l = l.
Proof.
  induction l as [|c l IH]; intros H; [reflexivity|].
  cbn [flat_map]. destruct (Ascii.eqb c m) eqn:E.
  - apply Ascii.eqb_eq in E. subst. exfalso. apply H. now left.
  - cbn [app]. f_equal. apply IH. intros Hin. apply H. now right.
Qed.

Lemma size_rule_replace (g : Globals) (ls : list str) (l : str) :
  size_rule g ls l
  = replace l [hr_marker] (mul hr_sep (rule_width g ls l)).
Proof. unfold size_rule, mul. now rewrite replace_char. Qed.

(** One turn of the second loop replaces the line of a rule, wherever it
    occurs in the text, by the sized line. *)
Lemma size_hr_ok (g : Globals) (ls : list str) (text h : str) :
  In hr_marker (clean_ansi h) ->
  size_hr g (max_width ls) text h = Ok (replace text h (size_rule g ls h)).
Proof.
  intros Hin. unfold size_hr.
  destruct (partition_marker _ _ Hin) as (tail & Hp & Hlen).
  unfold split1_tail. rewrite Hp, bind_Ok.
  rewrite size_rule_replace. unfold rule_width, marker_offset.
  do 4 f_equal. lia.
Qed.

Lemma is_done_true (done : list str) (l : str) :
  In l done -> is_done done l = true.
Proof. intros H. unfold is_done. now destruct (in_dec _ l done). Qed.

Lemma is_done_false (done : list str) (l : str) :
  ~ In l done -> is_done done l = false.
Proof. intros H. unfold is_done. now destruct (in_dec _ l done). Qed.

Lemma is_done_cases (done : list str) (l : str) :
  (In l done /\ is_done done l = true)
  \/ (~ In l done /\ is_done done l = false).
Proof. unfold is_done. destruct (in_dec _ l done); auto. Qed.

Section RuleSizer.

Variable g : Globals.
Variable ls : list str.

Hypothesis lines_no_break : Forall no_break ls.
Hypothesis marker_visible :
  forall l, In l ls -> In hr_marker l -> In hr_marker (clean_ansi l).
Hypothesis rules_apart :
  forall h l, In h ls -> In l ls -> In hr_marker h ->
              contains l h = true -> l = h.

Lemma size_step (done : list str) (h : str) :
  In h ls -> In hr_marker h ->
  replace (join [LF] (sized_lines g ls done)) h (size_rule g ls h)
  = join [LF] (sized_lines g ls (done ++ [h])).
Proof using lines_no_break rules_apart.
  intros Hh Hm. destruct h as [|o h']; [contradiction|].
  assert (Hlf : ~ In LF (o :: h')).
  { rewrite List.Forall_forall in lines_no_break.
    now destruct (lines_no_break _ Hh). }
  rewrite replace_join by assumption. unfold sized_lines.
  rewrite List.map_map. f_equal. apply map_ext_in. intros l Hl.
  destruct (is_done_cases done l) as [[Ed ->] | [Ed ->]].
  - rewrite is_done_true by (apply in_or_app; now left).
    apply replace_absent.
    destruct (contains (size_rule g ls l) (o :: h')) eqn:Ec; [|reflexivity].
    exfalso. apply contains_inv in Ec as (a & b & Ec).
    apply (sized_no_marker (mul hr_sep (rule_width g ls l)) l
             (mul_hr_sep_no_marker _)).
    rewrite <- size_rule_replace, Ec.
    apply in_or_app. right. apply in_or_app. now left.
  - destruct (decide (l = o :: h')) as [-> | Hne].
    + rewrite is_done_true by (apply in_or_app; right; now left).
      apply replace_self.
    + rewrite is_done_false.
      * apply replace_absent.
        destruct (contains l (o :: h')) eqn:Ec; [|reflexivity].
        exfalso. apply Hne. now apply rules_apart.
      * intros Hin. apply in_app_or in Hin as [Hin | [Hin | []]];
          [now apply Ed | now apply Hne].
Qed.

Lemma size_loop (todo : list str) :
  (forall h, In h todo -> In h ls /\ In hr_marker h) ->
  forall done,
    foldM (size_hr g (max_width ls)) (join [LF] (sized_lines g ls done)) todo
    = Ok (join [LF] (sized_lines g ls (done ++ todo))).
Proof using lines_no_break marker_visible rules_apart.
  induction todo as [|h todo IH]; intros Htodo done.
  - cbn. now rewrite app_nil_r.
  - destruct (Htodo h (or_introl eq_refl)) as [Hh Hm].
    cbn [foldM]. rewrite size_hr_ok by now apply marker_visible.
    rewrite bind_Ok, size_step by assumption.
    rewrite IH by (intros h' Hh'; apply Htodo; now right).
    now rewrite <- app_assoc.
Qed.

(** X21: the rule sizer on a text whose rule lines do not occur inside
    other lines: every placeholder is replaced by as many rule characters
    as the width of its line says, and nothing else changes. *)
Lemma set_hr_widths_sizes :
  set_hr_widths g (join [LF] ls) = Ok (join [LF] (map (size_rule g ls) ls)).
Proof using lines_no_break marker_visible rules_apart.
  unfold set_hr_widths.
  destruct (contains (join [LF] ls) [hr_marker]) eqn:Ec; cbn [negb].
  - rewrite scan_splitlines, scan_lines by assumption.
    cbn [Nat.max app].
    assert (H0 : sized_lines g ls [] = ls).
    { unfold sized_lines. rewrite <- (map_id ls) at 2. apply map_ext.
      intros l. now rewrite is_done_false by (intros []). }
    assert (Hrules : forall h, In h (List.filter is_rule ls) ->
                                In h ls /\ In hr_marker h).
    { intros h Hh. apply filter_In in Hh as [Hh Hr].
      split; [assumption | now apply is_rule_In]. }
    pose proof (size_loop (List.filter is_rule ls) Hrules []) as Hloop.
    rewrite H0 in Hloop. rewrite Hloop.
    f_equal. f_equal. unfold sized_lines. cbn [app]. apply map_ext_in.
    intros l Hl.
    destruct (is_done_cases (List.filter is_rule ls) l)
      as [[Ed ->] | [Ed ->]]; [reflexivity|].
    symmetry. apply subst_plain.
    intros Hm. apply Ed. apply filter_In. split; [assumption|].
    now apply is_rule_In.
  - f_equal. f_equal. rewrite <- (map_id ls) at 1. apply map_ext_in.
    intros l Hl. symmetry. apply subst_plain. intros Hm.
    assert (Hj : In hr_marker (join [LF] ls)).
    { clear -Hl Hm. induction ls as [|x [|y r] IH]; [contradiction| |].
      - destruct Hl as [-> | []]. exact Hm.
      - change (join [LF] (x :: y :: r)) with (x ++ LF :: join [LF] (y :: r)).
        apply in_or_app. destruct Hl as [-> | Hl]; [now left|].
        right. right. now apply IH. }
    apply contains_char in Hj. congruence.
Qed.

End RuleSizer.

(** * Further properties *)

(** ** Colours put on and taken off *)

(** A decimal numeral holds digits and at most a sign. *)
Lemma pretty_N_go_chars (P : ascii -> Prop) :
  (forall d, (d < 10)%N -> P (pretty_N_char d)) ->
  forall x s, (forall c, In c (list_ascii_of_string s) -> P c) ->
  forall c, In c (list_ascii_of_string (pretty_N_go x s)) -> P c.
Proof.
  intros Hd x. induction (N.lt_wf_0 x) as [x _ IH]. intros s Hs.
  destruct (N.eq_dec x 0%N) as [-> | Hx].
  - now rewrite pretty_N_go_0.
  - rewrite pretty_N_go_step by lia. apply IH.
    + apply N.div_lt; lia.
    + intros c [<- | Hc]; [|now apply Hs].
      apply Hd. apply N.mod_lt. lia.
Qed.

Lemma pretty_N_chars (P : ascii -> Prop) (x : N) :
  (forall d, (d < 10)%N -> P (pretty_N_char d)) ->
  forall c, In c (list_ascii_of_string (pretty x)) -> P c.
Proof.
  intros Hd. unfold pretty, pretty_N. destruct (decide (x = 0%N)).
  - intros c [<- | []]. apply (Hd 0%N). lia.
  - apply pretty_N_go_chars; [assumption|]. intros c [].
Qed.

Lemma digit_char (d : N) : (d < 10)%N -> is_digit (pretty_N_char d) = true.
Proof.
  intros H.
  assert (d = 0 \/ d = 1 \/ d = 2 \/ d = 3 \/ d = 4 \/ d = 5 \/ d = 6
          \/ d = 7 \/ d = 8 \/ d = 9)%N as Hc by lia.
  repeat (destruct Hc as [-> | Hc]; [reflexivity|]). now subst.
Qed.

(** The characters of ['%s' % n]: digits and the minus sign. *)
Lemma str_of_Z_chars (n : Z) (c : ascii) :
  In c (str_of_Z n) -> is_digit c = true \/ c = "-"%char.
Proof.
  unfold str_of_Z, txt, pretty, pretty_Z. destruct n as [|p|p].
  - intros [<- | []]. now left.
  - apply (pretty_N_chars (fun c => is_digit c = true \/ c = "-"%char)).
    intros d Hd. left. now apply digit_char.
  - cbn [list_ascii_of_string String.append]. intros [<- | Hc]; [now right|].
    revert c Hc.
    apply (pretty_N_chars (fun c => is_digit c = true \/ c = "-"%char)).
    intros d Hd. left. now apply digit_char.
Qed.

(** The characters of a colour sequence. *)
Lemma col_seq_chars (c : Z) (ch : ascii) :
  In ch (col_seq c) ->
  ch = ESC \/ In ch (txt "[38;5;m") \/ is_digit ch = true \/ ch = "-"%char.
Proof.
  unfold col_seq. intros [<- | H]; [now left|].
  apply in_app_or in H as [H | H].
  - right. left. cbn in H |- *. tauto.
  - apply in_app_or in H as [H | H].
    + right. right. now apply (str_of_Z_chars c).
    + right. left. cbn in H |- *. tauto.
Qed.

Lemma col_seq_no_marker (c : Z) (ch : ascii) :
  is_marker ch = true \/ ch = hr_marker -> ~ In ch (col_seq c).
Proof.
  intros Hm Hin. apply col_seq_chars in Hin.
  destruct Hin as [-> | [Hin | [Hd | ->]]].
  - destruct Hm as [Hm | Hm]; [vm_compute in Hm|]; discriminate.
  - cbn in Hin.
    repeat (destruct Hin as [<- | Hin];
            [destruct Hm as [Hm | Hm]; [vm_compute in Hm|]; discriminate|]).
    contradiction.
  - destruct Hm as [Hm | ->]; [|discriminate Hd].
    unfold is_marker, markers in Hm. cbn [existsb] in Hm.
    repeat (apply orb_true_iff in Hm as [Hm | Hm];
            [apply Ascii.eqb_eq in Hm; subst; discriminate Hd|]).
    discriminate.
  - destruct Hm as [Hm | Hm]; [vm_compute in Hm|]; discriminate.
Qed.

(** Stripping drops a colour sequence at the head of a text. *)
Lemma clean_col_seq (c : Z) (rest : str) :
  clean_go false (col_seq c ++ rest) = clean_go false rest.
Proof.
  unfold col_seq.
  assert (Hskip : forall u, (forall ch, In ch u -> ch <> "m"%char) ->
             clean_go true (u ++ txt "m" ++ rest) = clean_go false rest).
  { induction u as [|a u IH]; intros Hu; [reflexivity|].
    cbn [app clean_go].
    destruct (Ascii.eqb a "m") eqn:E.
    - apply Ascii.eqb_eq in E. exfalso. apply (Hu a); [now left | exact E].
    - cbn [negb]. apply IH. intros ch Hch. apply Hu. now right. }
  cbn [app clean_go]. rewrite Ascii.eqb_refl. cbn [andb].
  assert (Hm : existsb (Ascii.eqb "m"%char)
                 ((txt "[38;5;" ++ str_of_Z c ++ txt "m") ++ rest) = true).
  { rewrite !existsb_app. cbn. now rewrite !orb_true_r. }
  rewrite Hm. rewrite <- !app_assoc, app_assoc. apply Hskip.
  intros ch Hch. apply in_app_or in Hch as [Hch | Hch].
  - cbn in Hch. intros ->.
    repeat (destruct Hch as [Hch | Hch]; [discriminate Hch|]). contradiction.
  - apply str_of_Z_chars in Hch as [Hd | ->]; [|discriminate].
    intros ->. discriminate Hd.
Qed.

(** Replacing a character in a substituted text is a substitution. *)
Lemma replace_flat_map (m : ascii) (new : str) (f : ascii -> str) (s : str) :
  (forall ch, ch <> m -> ~ In m (f ch)) -> f m = [m] ->
  replace (flat_map f s) [m] new
  = flat_map (fun ch => if Ascii.eqb ch m then new else f ch) s.
Proof.
  intros Hf Hm. rewrite replace_char.
  induction s as [|ch s IH]; [reflexivity|].
  cbn [flat_map]. rewrite flat_map_app, IH. f_equal.
  destruct (Ascii.eqb ch m) eqn:E.
  - apply Ascii.eqb_eq in E. subst. rewrite Hm. cbn.
    rewrite Ascii.eqb_refl. apply app_nil_r.
  - assert (Hn : ~ In m (f ch)).
    { apply Hf. intros ->. now rewrite Ascii.eqb_refl in E. }
    induction (f ch) as [|a l IHl]; [reflexivity|].
    cbn [flat_map]. destruct (Ascii.eqb a m) eqn:Ea.
    + apply Ascii.eqb_eq in Ea. subst. exfalso. apply Hn. now left.
    + cbn [app]. f_equal. apply IHl. intros H. apply Hn. now right.
Qed.

Lemma flat_map_id (s : str) : flat_map (fun ch => [ch]) s = s.
Proof. induction s as [|c s IH]; [reflexivity|]. cbn. now rewrite IH. Qed.

Lemma flat_map_ext_in {A B : Type} (f h : A -> list B) (l : list A) :
  (forall x, In x l -> f x = h x) -> flat_map f l = flat_map h l.
Proof.
  induction l as [|a l IH]; intros H; [reflexivity|].
  cbn. rewrite (H a) by now left. f_equal. apply IH. intros x Hx. apply H. now right.
Qed.


Lemma contains_flat_map (f : ascii -> str) (s : str) (a : ascii) :
  f a = [a] -> (forall ch, ch <> a -> ~ In a (f ch)) ->
  contains (flat_map f s) [a] = true <-> In a s.
Proof.
  intros Ha Hf. rewrite contains_char, in_flat_map. split.
  - intros (x & Hx & Hin). destruct (Ascii.ascii_dec x a) as [-> | Hne];
      [assumption | now destruct (Hf x Hne)].
  - intros Hin. exists a. split; [assumption|]. rewrite Ha. now left.
Qed.

(** One turn of the loop of [col] on a substituted text. *)
Lemma col_markers_flat_map (c k : Z) (a b : ascii) (f : ascii -> str) (s : str) :
  a <> b -> is_marker a = true -> is_marker b = true ->
  f a = [a] -> f b = [b] ->
  (forall ch, f ch = [ch] \/ exists k', f ch = col_seq k') ->
  (In b s -> In a s) ->
  col_markers c (flat_map f s) (a, b, k)
  = flat_map (fun ch => if Ascii.eqb ch a then col_seq k
                        else if Ascii.eqb ch b then col_seq c
                        else f ch) s.
Proof.
  intros Hab Hma Hmb Hfa Hfb Hf Hpair.
  assert (Hno : forall m ch, is_marker m = true -> ch <> m -> ~ In m (f ch)).
  { intros m ch Hm Hne. destruct (Hf ch) as [-> | [k' ->]].
    - intros [-> | []]. now apply Hne.
    - apply col_seq_no_marker. now left. }
  unfold col_markers.
  destruct (contains (flat_map f s) [a]) eqn:Ec.
  - rewrite replace_flat_map by auto.
    rewrite replace_flat_map.
    + apply flat_map_ext_in. intros ch _.
      destruct (Ascii.eqb ch a) eqn:Ea, (Ascii.eqb ch b) eqn:Eb; try reflexivity.
      apply Ascii.eqb_eq in Ea, Eb. congruence.
    + intros ch Hne. destruct (Ascii.eqb ch a).
      * apply col_seq_no_marker. now left.
      * now apply Hno.
    + destruct (Ascii.eqb b a) eqn:E; [|assumption].
      apply Ascii.eqb_eq in E. congruence.
  - assert (Ha : ~ In a s).
    { intros Hin. apply (contains_flat_map f s a) in Hin; auto. congruence. }
    apply flat_map_ext_in. intros ch Hch.
    destruct (Ascii.eqb ch a) eqn:Ea.
    { apply Ascii.eqb_eq in Ea. subst. contradiction. }
    destruct (Ascii.eqb ch b) eqn:Eb; [|reflexivity].
    apply Ascii.eqb_eq in Eb. subst. exfalso. auto.
Qed.

(** Stripping a text in which colour sequences stand for the markers. *)
Lemma clean_flat_map (F : ascii -> str) (s tail : str) :
  ~ In ESC s ->
  (forall ch, In ch s ->
     (is_marker ch = true /\ exists k, F ch = col_seq k)
     \/ (is_marker ch = false /\ F ch = [ch])) ->
  clean_go false (flat_map F s ++ tail) = unmarked s ++ clean_go false tail.
Proof.
  induction s as [|ch s IH]; intros Hesc HF; [reflexivity|].
  cbn [flat_map]. rewrite <- app_assoc. unfold unmarked. cbn [List.filter].
  fold (unmarked s).
  assert (IH' : clean_go false (flat_map F s ++ tail)
                = unmarked s ++ clean_go false tail).
  { apply IH; [intros H; apply Hesc; now right|].
    intros x Hx. apply HF. now right. }
  destruct (HF ch (or_introl eq_refl)) as [[Hm [k Hk]] | [Hm Hk]];
    rewrite Hk, Hm; cbn [negb].
  - now rewrite clean_col_seq.
  - cbn [app clean_go].
    destruct (Ascii.eqb ch ESC) eqn:E.
    { apply Ascii.eqb_eq in E. subst. exfalso. apply Hesc. now left. }
    cbn [andb]. now rewrite IH'.
Qed.

(** [col] puts colour sequences in the place of the markers. *)
Lemma col_substitutes (g : Globals) (s : str) (c : Z) (no_reset : bool) :
  paired s ->
  exists F,
    (forall ch, (is_marker ch = true /\ exists k, F ch = col_seq k)
                \/ (is_marker ch = false /\ F ch = [ch]))
    /\ col g s c no_reset
       = col_seq c ++ flat_map F s ++ (if no_reset then [] else reset_col).
Proof.
  intros (Hp1 & Hp2 & Hp3).
  exists (fun ch =>
            if Ascii.eqb ch emph_start then col_seq (H3 g)
            else if Ascii.eqb ch emph_end then col_seq c
            else if Ascii.eqb ch stng_start then col_seq (H2 g)
            else if Ascii.eqb ch stng_end then col_seq c
            else if Ascii.eqb ch code_start then col_seq (H2 g)
            else if Ascii.eqb ch code_end then col_seq c
            else [ch]).
  split.
  - intros ch. unfold is_marker, markers. cbn [existsb].
    destruct (Ascii.eqb ch emph_start) eqn:E1; [left; rewrite ?orb_true_r; eauto|].
    destruct (Ascii.eqb ch emph_end) eqn:E2; [left; rewrite ?orb_true_r; eauto|].
    destruct (Ascii.eqb ch stng_start) eqn:E3; [left; rewrite ?orb_true_r; eauto|].
    destruct (Ascii.eqb ch stng_end) eqn:E4; [left; rewrite ?orb_true_r; eauto|].
    destruct (Ascii.eqb ch code_start) eqn:E5; [left; rewrite ?orb_true_r; eauto|].
    destruct (Ascii.eqb ch code_end) eqn:E6; [left; rewrite ?orb_true_r; eauto|].
    right. split; reflexivity.
  - unfold col. cbn [fold_left]. do 2 f_equal.
    rewrite <- (flat_map_id s) at 1.
    rewrite col_markers_flat_map;
      [| discriminate | reflexivity | reflexivity | reflexivity | reflexivity
       | intros ch; now left | assumption ].
    rewrite col_markers_flat_map;
      [| discriminate | reflexivity | reflexivity | reflexivity | reflexivity
       | | assumption ].
    2:{ intros ch. destruct (Ascii.eqb ch code_start); [right; eauto|].
        destruct (Ascii.eqb ch code_end); [right; eauto | now left]. }
    rewrite col_markers_flat_map;
      [| discriminate | reflexivity | reflexivity | reflexivity | reflexivity
       | | assumption ].
    2:{ intros ch. destruct (Ascii.eqb ch stng_start); [right; eauto|].
        destruct (Ascii.eqb ch stng_end); [right; eauto|].
        destruct (Ascii.eqb ch code_start); [right; eauto|].
        destruct (Ascii.eqb ch code_end); [right; eauto | now left]. }
    reflexivity.
Qed.

Lemma clean_reset_app (rest : str) :
  clean_go false (reset_col ++ rest) = clean_go false rest.
Proof.
  unfold reset_col, txt. cbn [list_ascii_of_string app clean_go].
  rewrite Ascii.eqb_refl. cbn [andb existsb Ascii.eqb Bool.eqb orb negb].
  reflexivity.
Qed.

(** Stripping a coloured text that stands before another text. *)
Lemma clean_col_app (g : Globals) (s : str) (c : Z) (no_reset : bool)
    (rest : str) :
  ~ In ESC s -> paired s ->
  clean_go false (col g s c no_reset ++ rest)
  = unmarked s ++ clean_go false rest.
Proof.
  intros Hesc Hp.
  destruct (col_substitutes g s c no_reset Hp) as (F & HF & ->).
  rewrite <- !app_assoc, clean_col_seq, clean_flat_map;
    [| assumption | intros ch _; apply HF].
  destruct no_reset; [reflexivity|]. now rewrite clean_reset_app.
Qed.

(** X1: taking the colours off a coloured text gives the text back without
    its inline markers.  For a text that holds no escape character and in
    which every end marker has its start marker, [clean_ansi (col s c)] is
    the text with the six marker bytes left out, with or without the
    reset sequence. *)
Theorem col_visible (g : Globals) (s : str) (c : Z) (no_reset : bool) :
  ~ In ESC s -> paired s ->
  clean_ansi (col g s c no_reset) = unmarked s.
Proof.
  intros Hesc Hp. unfold clean_ansi.
  rewrite <- (app_nil_r (col g s c no_reset)).
  rewrite clean_col_app by assumption.
  apply app_nil_r.
Qed.

Lemma col_visible_witness :
  let g := globals0 80 true in
  let s := txt "a " ++ [code_start] ++ txt "b" ++ [code_end] ++ txt " c" in
  clean_ansi (col g s (T g) false) = unmarked s.
Proof.
  apply col_visible.
  - vm_compute. intros H.
    repeat (destruct H as [H | H]; [discriminate H|]). contradiction.
  - repeat split; vm_compute; intros H;
      repeat (destruct H as [H | H]; [try discriminate H; tauto|]);
      contradiction.
Defined.

(** X2: [clean_ansi] is idempotent, and what it returns holds no complete
    escape sequence any more: no escape character of the result is
    followed by an [m]. *)
Theorem clean_ansi_idempotent (s : str) :
  clean_ansi (clean_ansi s) = clean_ansi s
  /\ (forall a b, clean_ansi s = a ++ ESC :: b -> ~ In "m"%char b).
Proof.
  assert (Hfix : forall s skipping,
             clean_go false (clean_go skipping s) = clean_go skipping s).
  { clear s. induction s as [|c r IH]; intros skipping;
      [destruct skipping; reflexivity|].
    cbn [clean_go]. destruct skipping; [apply IH|].
    destruct (Ascii.eqb c ESC && existsb (Ascii.eqb "m"%char) r) eqn:E;
      [apply IH|].
    cbn [clean_go]. rewrite IH.
    destruct (Ascii.eqb c ESC) eqn:Ec; [|reflexivity].
    cbn [andb] in E |- *. fold (has_m r) in E.
    rewrite (clean_go_no_m r E). fold (has_m r). now rewrite E. }
  split; [apply Hfix|].
  intros a b Hab Hin.
  pose proof (Hfix s false) as H. fold (clean_ansi s) in H. rewrite Hab in H.
  assert (Hgo : forall a', clean_go false (a' ++ ESC :: b) = a' ++ ESC :: b ->
                           False).
  { induction a' as [|x a' IH]; intros Heq.
    - cbn [app clean_go] in Heq. rewrite Ascii.eqb_refl in Heq. cbn [andb] in Heq.
      assert (Hm : existsb (Ascii.eqb "m"%char) b = true).
      { apply existsb_exists. exists "m"%char. split; [assumption | reflexivity]. }
      rewrite Hm in Heq.
      apply (f_equal (@length ascii)) in Heq. cbn [length] in Heq.
      pose proof (clean_go_length b true). lia.
    - cbn [app clean_go] in Heq.
      destruct (Ascii.eqb x ESC
                && existsb (Ascii.eqb "m"%char) (a' ++ ESC :: b)) eqn:E.
      + apply (f_equal (@length ascii)) in Heq. cbn [length] in Heq.
        pose proof (clean_go_length (a' ++ ESC :: b) true). lia.
      + injection Heq as Heq. now apply IH. }
  now apply (Hgo a).
Qed.

(** ** How a theme request is resolved *)

(** X3: a theme that is asked for by name is never overridden by the
    environment.  When the [theme] argument is not the default of the kind
    (no theme for text, [default] for code), [set_theme] does the same
    whatever the environment variables hold. *)
Theorem set_theme_explicit (env env' : gmap str str)
    (themes : list (str * Theme)) (rand : Z) (theme : option str)
    (for_code theme_info : bool) (g : Globals) :
  theme <> dflt (dec for_code) ->
  set_theme env themes rand theme for_code theme_info g
  = set_theme env' themes rand theme for_code theme_info g.
Proof.
  intros Hne. unfold set_theme, set_theme_try.
  assert (Hk : theme_key env themes rand theme for_code
               = theme_key env' themes rand theme for_code).
  { unfold theme_key.
    destruct (decide (theme = dflt (dec for_code))); [contradiction|].
    reflexivity. }
  now rewrite Hk.
Qed.

Lemma set_theme_explicit_witness :
  set_theme {[ txt "MDV_THEME" := txt "y" ]}
            [(txt "x", mkTheme (txt "X") [1; 2; 3; 4; 5]%Z)] 0
            (Some (txt "x")) false false (globals0 80 true)
  = set_theme ∅ [(txt "x", mkTheme (txt "X") [1; 2; 3; 4; 5]%Z)] 0
              (Some (txt "x")) false false (globals0 80 true).
Proof. apply set_theme_explicit. discriminate. Defined.

Lemma env_theme_first (env : gmap str str) (for_code : bool) (ek : str) :
  ek <> [] ->
  env !! mdv_var for_code = Some ek
  \/ (unset env (mdv_var for_code) /\ env !! axc_var for_code = Some ek) ->
  env_theme env (env_keys (dec for_code)) = Some ek.
Proof.
  intros Hne H. destruct ek as [|c ek]; [contradiction|].
  destruct for_code; cbn [dec env_keys env_theme mdv_var axc_var] in *.
  - destruct H as [-> | [[-> | ->] ->]]; reflexivity.
  - destruct H as [-> | [[-> | ->] ->]]; reflexivity.
Qed.

(** X4: when the [theme] argument is the default of the kind, the theme
    named in the environment is used as if it had been asked for:
    [MDV_THEME] ([MDV_CODE_THEME] for code) when it is set and not empty,
    else [AXC_THEME] ([AXC_CODE_THEME]). *)
Theorem set_theme_from_env (env : gmap str str)
    (themes : list (str * Theme)) (rand : Z) (theme : option str)
    (for_code theme_info : bool) (g : Globals) (ek : str) :
  theme = dflt (dec for_code) ->
  ek <> [] ->
  env !! mdv_var for_code = Some ek
  \/ (unset env (mdv_var for_code) /\ env !! axc_var for_code = Some ek) ->
  set_theme env themes rand theme for_code theme_info g
  = set_theme ∅ themes rand (Some ek) for_code theme_info g.
Proof.
  intros -> Hne Henv. unfold set_theme, set_theme_try.
  assert (Hk : theme_key env themes rand (dflt (dec for_code)) for_code
               = theme_key ∅ themes rand (Some ek) for_code).
  { unfold theme_key. rewrite (env_theme_first env for_code ek Hne Henv).
    destruct (decide (dflt (dec for_code) = dflt (dec for_code)));
      [|contradiction].
    destruct (decide (Some ek = dflt (dec for_code))) as [E | E].
    - destruct for_code; cbn [dec dflt] in E; [|discriminate E].
      cbn [dec dflt env_keys env_theme on_dflt]. rewrite !lookup_empty.
      destruct (decide (Some ek = Some (txt "default"))); [|contradiction].
      reflexivity.
    - destruct (decide (Some ek = dflt (dec for_code))); [contradiction|].
      reflexivity. }
  now rewrite Hk.
Qed.

Lemma set_theme_from_env_witness :
  set_theme {[ txt "AXC_THEME" := txt "x" ]}
            [(txt "x", mkTheme (txt "X") [1; 2; 3; 4; 5]%Z)] 0
            None false false (globals0 80 true)
  = set_theme ∅ [(txt "x", mkTheme (txt "X") [1; 2; 3; 4; 5]%Z)] 0
              (Some (txt "x")) false false (globals0 80 true).
Proof.
  apply set_theme_from_env.
  - reflexivity.
  - discriminate.
  - right. split; [left|]; reflexivity.
Defined.

(** X5: the code theme [default] is never looked up.  With [for_code] set,
    the theme [default] and an environment that names no other code theme,
    [set_theme] returns without error and leaves the heading colours, the
    code colours and the output as they are, also when the catalog has an
    entry of that name. *)
Theorem set_theme_code_default (env : gmap str str)
    (themes : list (str * Theme)) (rand : Z) (theme_info : bool)
    (g : Globals) :
  (forall k, k = mdv_var true \/ k = axc_var true ->
             unset env k \/ env !! k = Some (txt "default")) ->
  let r := (set_theme env themes rand (Some (txt "default")) true theme_info g).1 in
  let g' := (set_theme env themes rand (Some (txt "default")) true theme_info g).2 in
  r = Ok tt /\ stdout g' = stdout g
  /\ heading_colours g' = heading_colours g
  /\ code_colours g' = code_colours g.
Proof.
  intros Henv.
  assert (Hk : theme_key env themes rand (Some (txt "default")) true = Ok None).
  { unfold theme_key. cbn [dec dflt env_keys on_dflt env_theme].
    destruct (decide (Some (txt "default") = Some (txt "default")));
      [|contradiction].
    destruct (Henv (mdv_var true) (or_introl eq_refl)) as [[H1 | H1] | H1];
      cbn [mdv_var] in H1; rewrite H1;
      try (destruct (decide (Some (txt "default") = Some (txt "default")));
           [reflexivity | contradiction]);
      destruct (Henv (axc_var true) (or_intror eq_refl)) as [[H2 | H2] | H2];
      cbn [axc_var] in H2; rewrite H2;
      destruct (decide (Some (txt "default") = Some (txt "default")));
      try reflexivity; contradiction. }
  unfold set_theme, set_theme_try. rewrite Hk.
  destruct (have_pygments g) eqn:Hp.
  - rewrite build_hl_by_token_ok by assumption. cbn. repeat split.
  - rewrite build_hl_by_token_off by assumption. cbn. repeat split.
Qed.

Lemma set_theme_code_default_witness :
  let themes := [(txt "default", mkTheme (txt "D") [1; 2; 3; 4; 5]%Z)] in
  let g := globals0 80 true in
  let r := (set_theme ∅ themes 0 (Some (txt "default")) true false g).1 in
  let g' := (set_theme ∅ themes 0 (Some (txt "default")) true false g).2 in
  r = Ok tt /\ stdout g' = stdout g
  /\ heading_colours g' = heading_colours g
  /\ code_colours g' = code_colours g.
Proof.
  apply set_theme_code_default.
  intros k _. left. left. apply lookup_empty.
Defined.

Lemma dict_get_nth {V : Type} (d : list (str * V)) (i : nat) (k : str) (v : V) :
  NoDup (map fst d) -> nth_error d i = Some (k, v) -> dict_get d k = Some v.
Proof.
  revert i. induction d as [|[k' v'] d IH]; intros i Hnd Hi.
  - destruct i; discriminate.
  - cbn [dict_get]. destruct i as [|i].
    + injection Hi as -> ->. now destruct (decide (k = k)).
    + cbn [nth_error] in Hi. cbn [map fst] in Hnd.
      apply NoDup_cons in Hnd as [Hk Hnd].
      destruct (decide (k' = k)) as [-> | Hne]; [|now apply (IH i)].
      exfalso. apply Hk. apply list_elem_of_In, in_map_iff. exists (k, v).
      split; [reflexivity|]. eapply nth_error_In. exact Hi.
Qed.

(** X6: the theme [random], which is also what a text theme request without
    theme and without environment variable becomes, resolves to the catalog
    entry at the index drawn, taken modulo the size of the catalog; the
    catalog is not empty and its keys are distinct. *)
Theorem set_theme_random (env : gmap str str) (themes : list (str * Theme))
    (rand : Z) (theme : option str) (for_code : bool) :
  themes <> [] ->
  NoDup (map fst themes) ->
  theme = Some (txt "random")
  \/ (theme = None /\ for_code = false
      /\ unset env (mdv_var false) /\ unset env (axc_var false)) ->
  exists k t,
    nth_error themes (Z.to_nat (rand mod Z.of_nat (length themes)))
    = Some (k, t)
    /\ theme_key env themes rand theme for_code = Ok (Some k)
    /\ resolved_entry env themes rand theme for_code = Some t.
Proof.
  intros Hne Hnd Hth.
  set (n := Z.of_nat (length themes)).
  assert (Hn : (0 < n)%Z).
  { subst n. destruct themes; [contradiction | cbn [length]; lia]. }
  pose proof (Z.mod_pos_bound rand n Hn) as Hb.
  destruct (nth_error themes (Z.to_nat (rand mod n))) as [[k t]|] eqn:Ei.
  2:{ apply nth_error_None in Ei. lia. }
  exists k, t. split; [reflexivity|].
  assert (Hrand : theme_key env themes rand theme for_code = Ok (Some k)).
  { assert (Hdraw : (rand0 ← randint rand 0 (Z.of_nat (length themes) - 1);
                     k0 ← getitem (map fst themes) (Z.to_nat rand0);
                     Ok (Some k0)) = Ok (Some k)).
    { unfold randint. fold n.
      destruct (n - 1 <? 0)%Z eqn:E; [apply Z.ltb_lt in E; lia|].
      rewrite bind_Ok. replace (n - 1 - 0 + 1)%Z with n by lia.
      rewrite Z.add_0_l. unfold getitem.
      rewrite nth_error_map, Ei. reflexivity. }
    unfold theme_key.
    destruct Hth as [-> | (-> & -> & Hm & Ha)].
    - destruct for_code; cbn [dec dflt on_dflt env_keys];
        repeat (destruct (decide _) as [E | E];
                try discriminate E; try contradiction);
        exact Hdraw.
    - cbn [dec dflt on_dflt env_keys env_theme].
      cbn [mdv_var axc_var] in Hm, Ha.
      destruct Hm as [Hm | Hm], Ha as [Ha | Ha]; rewrite Hm, Ha;
        repeat (destruct (decide _) as [E | E];
                try discriminate E; try contradiction);
        exact Hdraw. }
  split; [exact Hrand|].
  unfold resolved_entry. rewrite Hrand.
  now apply (dict_get_nth themes (Z.to_nat (rand mod n)) k t).
Qed.

Lemma set_theme_random_witness :
  let themes := [(txt "x", mkTheme (txt "X") [1; 2; 3; 4; 5]%Z);
                 (txt "y", mkTheme (txt "Y") [6; 7; 8; 9; 10]%Z)] in
  exists k t,
    nth_error themes (Z.to_nat (7 mod Z.of_nat (length themes))) = Some (k, t)
    /\ theme_key ∅ themes 7 None false = Ok (Some k)
    /\ resolved_entry ∅ themes 7 None false = Some t.
Proof.
  apply set_theme_random.
  - discriminate.
  - cbn [map fst]. repeat constructor; rewrite ?list_elem_of_In; cbn;
      intros H; repeat (destruct H as [H | H]; [discriminate H|]); contradiction.
  - right. repeat split; left; apply lookup_empty.
Defined.

Ltac in_cases H :=
  repeat (destruct H as [H | H]; [try discriminate H | ]);
  try contradiction.

Lemma set_hr_widths_sizes_witness :
  set_hr_widths (globals0 80 true) (join [LF] one_rule)
  = Ok (join [LF] (map (size_rule (globals0 80 true) one_rule) one_rule)).
Proof.
  apply (set_hr_widths_sizes (globals0 80 true) one_rule).
  - unfold one_rule. vm_compute split_nl. 
    repeat (apply List.Forall_cons; [split; intros H; vm_compute in H; in_cases H|]).
    apply List.Forall_nil.
  - intros l Hl Hm. vm_compute in Hl.
    repeat (destruct Hl as [<- | Hl];
            [first [ exfalso; vm_compute in Hm; in_cases Hm; fail
                   | vm_compute; tauto ] |]).
    contradiction.
  - intros h l Hh Hl Hm Hc. vm_compute in Hh.
    repeat (destruct Hh as [<- | Hh];
            [first [ exfalso; vm_compute in Hm; in_cases Hm; fail
                   | vm_compute in Hl;
                     repeat (destruct Hl as [<- | Hl];
                             [first [ reflexivity | vm_compute in Hc; discriminate Hc ] |]);
                     contradiction ] |]).
    contradiction.
Defined.

(** ** When the rule sizer raises *)

Lemma splitlines_go_in (c : ascii) (s : str) :
  forall after_cr cur l,
    In l (splitlines_go after_cr cur s) -> In c l -> In c cur \/ In c s.
Proof.
  induction s as [|x s IH]; intros after_cr cur l Hl Hc.
  - cbn [splitlines_go] in Hl. destruct cur as [|y cur]; [contradiction|].
    destruct Hl as [<- | []]. left. now apply in_rev.
  - cbn [splitlines_go] in Hl.
    destruct (Ascii.eqb x LF).
    + destruct after_cr.
      * destruct (IH _ _ _ Hl Hc) as [H | H]; [now left | right; now right].
      * destruct Hl as [<- | Hl]; [left; now apply in_rev|].
        destruct (IH _ _ _ Hl Hc) as [[] | H]. right. now right.
    + destruct (Ascii.eqb x CR).
      * destruct Hl as [<- | Hl]; [left; now apply in_rev|].
        destruct (IH _ _ _ Hl Hc) as [[] | H]. right. now right.
      * destruct (IH _ _ _ Hl Hc) as [[-> | H] | H];
          [right; now left | now left | right; now right].
Qed.

Lemma splitlines_in (c : ascii) (s l : str) :
  In l (splitlines s) -> In c l -> In c s.
Proof.
  intros Hl Hc. destruct (splitlines_go_in c s false [] l Hl Hc) as [[] | H].
  exact H.
Qed.

Lemma size_hr_hidden (g : Globals) (mw : nat) (text h : str) :
  ~ In hr_marker (clean_ansi h) -> size_hr g mw text h = Raise IndexError.
Proof.
  intros H. unfold size_hr, split1_tail.
  now rewrite (partition_absent _ _ H).
Qed.

Lemma size_hr_visible (g : Globals) (mw : nat) (text h : str) :
  In hr_marker (clean_ansi h) -> exists r, size_hr g mw text h = Ok r.
Proof.
  intros H. unfold size_hr, split1_tail.
  destruct (partition_marker _ _ H) as (tail & -> & _).
  rewrite bind_Ok. eexists. reflexivity.
Qed.

Lemma size_hrs_result (g : Globals) (mw : nat) (hrs : list str) :
  forall text,
    (Forall (fun h => In hr_marker (clean_ansi h)) hrs ->
     exists r, foldM (size_hr g mw) text hrs = Ok r)
    /\ (Exists (fun h => ~ In hr_marker (clean_ansi h)) hrs ->
        foldM (size_hr g mw) text hrs = Raise IndexError).
Proof.
  induction hrs as [|h hrs IH]; intros t0; split.
  - intros _. eexists. reflexivity.
  - intros H. inversion H.
  - intros H. apply Forall_cons in H as [Hh H]. cbn [foldM].
    destruct (size_hr_visible g mw t0 h Hh) as [r ->]. rewrite bind_Ok.
    now apply IH.
  - intros H. cbn [foldM].
    destruct (in_dec Ascii.ascii_dec hr_marker (clean_ansi h)) as [Hh | Hh].
    + destruct (size_hr_visible g mw t0 h Hh) as [r ->]. rewrite bind_Ok.
      apply IH. apply Exists_cons in H as [H | H]; [contradiction | exact H].
    + now rewrite size_hr_hidden.
Qed.

(** X7: when [set_hr_widths] raises.  If every line of the text that holds
    a rule marker still holds it after the escape sequences are taken off,
    the call returns; if one such line loses its marker (the marker stands
    between an escape character and the next [m]), the call raises
    [IndexError]. *)
Theorem set_hr_widths_raises (g : Globals) (text : str) :
  let rules := List.filter is_rule (splitlines text) in
  (Forall (fun h => In hr_marker (clean_ansi h)) rules ->
   exists r, set_hr_widths g text = Ok r)
  /\ (Exists (fun h => ~ In hr_marker (clean_ansi h)) rules ->
      set_hr_widths g text = Raise IndexError).
Proof.
  intros rules. unfold set_hr_widths.
  destruct (contains text [hr_marker]) eqn:Ec; cbn [negb].
  - rewrite scan_lines. cbn [app]. fold rules. apply size_hrs_result.
  - split; [intros _; eexists; reflexivity|].
    intros H. exfalso. apply Exists_exists in H as (h & Hh & _).
    subst rules. apply list_elem_of_In, filter_In in Hh as [Hh Hr].
    apply is_rule_In in Hr.
    assert (Hin : In hr_marker text) by now apply (splitlines_in _ _ h).
    apply contains_char in Hin. congruence.
Qed.

(** A marker between an escape character and the next [m] is taken off
    with the sequence, and the sizer cannot find it. *)
Example hidden_marker_raises :
  set_hr_widths (globals0 80 true) (ESC :: hr_marker :: txt "m")
  = Raise IndexError.
Proof. reflexivity. Qed.

(** ** Tables too short to split *)

(** X8: [split_blocks] needs a table of two lines.  On a text of fewer than
    two lines it raises [IndexError] (at a width other than 2 columns, where
    the step of the column ranges is 0 and [range] raises first): with no
    line there is no first line to count the parts of, with one line the
    heading separator [tpart[1]] is missing. *)
Theorem split_blocks_short (g : Globals) (text_block : str) (w : nat)
    (cols : Z) :
  length (splitlines text_block) < 2 -> cols <> 2%Z ->
  split_blocks g text_block w cols = Raise IndexError.
Proof.
  intros Hlen Hcols. unfold split_blocks.
  destruct (splitlines text_block) as [|l [|l' ls]]; [reflexivity | |].
  2:{ cbn [length] in Hlen. lia. }
  cbn [foldM]. unfold split_line, range.
  destruct (cols - 2 =? 0)%Z eqn:E; [apply Z.eqb_eq in E; lia|].
  rewrite !bind_Ok. cbn [app].
  set (p0 := slice (ljust l w) 0 cols).
  generalize (map (fun i => SP :: col g txt_block_cut (L g) true
                              ++ slice (ljust l w) i (i + (cols - 2)))
                  (map (fun k => (cols + Z.of_nat k * (cols - 2))%Z)
                       (seq 0 (range_len cols (Z.of_nat (length (ljust l w)))
                                         (cols - 2))))).
  intros rest. unfold getitem at 1. cbn [nth_error mbind result_bind].
  cbn [length seq foldM]. unfold block at 1.
  cbn [foldM getitem nth_error mbind result_bind app].
  unfold borders, setitem, getitem.
  cbn [nth_error length Nat.ltb Nat.leb Nat.sub mbind result_bind].
  reflexivity.
Qed.

Lemma split_blocks_short_witness :
  split_blocks (globals0 4 true) (txt "a  b  c") 7 4 = Raise IndexError.
Proof.
  apply split_blocks_short; [vm_compute; lia | discriminate].
Defined.

(** ** What is to be seen of a formatted tag *)

Section Tags.

Variable style_ansi : str -> option str -> str.

(** X9: what is to be seen of a formatted tag is its text.  For every tag
    but [h], [hr] and [code], and a text without escape character in which
    every end marker has its start marker, the tag function returns, and
    its result without the colours is the text without the markers, after
    a newline when the tag is one of the header tags [h1] to [h8]. *)
Theorem tag_fmt_func_visible (g : Globals) (tag s : str) (hir : Z) :
  tag <> txt "h" -> tag <> txt "hr" -> tag <> txt "code" ->
  ~ In ESC s -> paired s ->
  exists r,
    tag_fmt_func style_ansi g tag s hir = Ok r
    /\ clean_ansi r
       = (if bool_decide (tag ∈ header_tags) then [LF] else []) ++ unmarked s.
Proof.
  intros Hh Hhr Hcode Hesc Hp.
  assert (Hhead : forall n, (1 <= n <= 5)%Z ->
             exists r, Tags_h g s n = Ok r /\ clean_ansi r = LF :: unmarked s).
  { intros n Hn. unfold Tags_h. rewrite heading_colour_ok by assumption.
    rewrite bind_Ok. eexists. split; [reflexivity|].
    unfold clean_ansi. cbn [clean_go Ascii.eqb Bool.eqb andb]. f_equal.
    change (mul (txt "#") 0) with (@nil ascii).
    unfold low. rewrite clean_col_app by (try intros []; repeat split; intros []).
    cbn [unmarked List.filter app].
    rewrite <- (app_nil_r (col g s (heading g n) false)).
    rewrite clean_col_app by assumption. apply app_nil_r. }
  assert (Hplain : forall c, clean_ansi (col g s c false) = unmarked s).
  { intros c. unfold clean_ansi. rewrite <- (app_nil_r (col g s c false)).
    rewrite clean_col_app by assumption. apply app_nil_r. }
  destruct (decide (tag ∈ header_tags)) as [Hin | Hnin].
  - rewrite (bool_decide_eq_true_2 _ Hin).
    unfold header_tags in Hin. cbn [map] in Hin.
    repeat (apply elem_of_cons in Hin as [-> | Hin]);
      [..| now apply elem_of_nil in Hin];
      unfold tag_fmt_func;
      repeat (first [ rewrite bool_decide_eq_true_2 by reflexivity
                    | rewrite bool_decide_eq_false_2 by discriminate ]);
      cbv iota; apply Hhead; lia.
  - rewrite (bool_decide_eq_false_2 _ Hnin). unfold tag_fmt_func, plain.
    repeat case_bool_decide;
      try contradiction;
      try (exfalso; apply Hnin; subst; unfold header_tags; cbn [map];
           repeat (first [ apply list_elem_of_here
                         | apply list_elem_of_further ]); fail);
      eexists; (split; [reflexivity | apply Hplain]).
Qed.

End Tags.

Lemma tag_fmt_func_visible_witness :
  exists r,
    tag_fmt_func (fun s _ => s) (globals0 80 true) (txt "h6")
                 (txt "A " ++ [emph_start] ++ txt "title" ++ [emph_end]) 7
    = Ok r
    /\ clean_ansi r
       = (if bool_decide (txt "h6" ∈ header_tags) then [LF] else [])
         ++ unmarked (txt "A " ++ [emph_start] ++ txt "title" ++ [emph_end]).
Proof.
  apply tag_fmt_func_visible; try discriminate.
  - vm_compute. intros H. in_cases H.
  - repeat split; vm_compute; intros H; in_cases H; tauto.
Defined.

(** ** The line of a rule *)

Lemma clean_plain_app (a rest : str) :
  ~ In ESC a -> clean_go false (a ++ rest) = a ++ clean_go false rest.
Proof.
  induction a as [|c a IH]; intros H; [reflexivity|].
  cbn [app clean_go]. destruct (Ascii.eqb c ESC) eqn:E.
  - apply Ascii.eqb_eq in E. subst. exfalso. apply H. now left.
  - cbn [andb]. rewrite IH; [reflexivity|]. intros Hin. apply H. now right.
Qed.

Lemma in_mul (c : ascii) (s : str) (n : Z) : In c (mul s n) -> In c s.
Proof.
  unfold mul. induction (Z.to_nat n) as [|k IH]; [intros []|].
  cbn [repeat concat]. intros H. apply in_app_or in H as [H | H]; auto.
Qed.

Lemma length_mul (s : str) (n : Z) :
  length (mul s n) = Z.to_nat n * length s.
Proof.
  unfold mul. induction (Z.to_nat n) as [|k IH]; [reflexivity|].
  cbn [repeat concat]. rewrite length_app, IH. lia.
Qed.

(** A text without start marker is coloured as it is. *)
Lemma col_plain (g : Globals) (s : str) (c : Z) (no_reset : bool) :
  ~ In code_start s -> ~ In stng_start s -> ~ In emph_start s ->
  col g s c no_reset
  = col_seq c ++ s ++ (if no_reset then [] else reset_col).
Proof.
  intros H1 H2 H3. unfold col. cbn [fold_left]. unfold col_markers.
  assert (Hc : forall m, ~ In m s -> contains s [m] = false).
  { intros m Hm. destruct (contains s [m]) eqn:E; [|reflexivity].
    apply contains_char in E. contradiction. }
  now rewrite !Hc by assumption.
Qed.







(** ** Code with markdown in its docstrings *)

Ltac not_elem :=
  let H := fresh in
  intros H;
  repeat (apply elem_of_cons in H as [H | H]; [discriminate H|]);
  now apply elem_of_nil in H.

Ltac is_elem :=
  repeat (first [ apply list_elem_of_here | apply list_elem_of_further ]).

Lemma block_append_last (bs : list (Z * list str)) (m : Z) (blk : list str)
    (line : str) :
  block_append (bs ++ [(m, blk)]) line = bs ++ [(m, blk ++ [line])].
Proof.
  unfold block_append. rewrite rev_app_distr. cbn [rev app].
  now rewrite rev_involutive.
Qed.

(** A run of code lines. *)
Lemma hilite_code_lines (what ms : str) (seg : list str) :
  no_opener seg ->
  forall bs m blk rest,
    hilite_lines what code_mode ms (bs ++ [(m, blk)]) (seg ++ rest)
    = hilite_lines what code_mode ms
        (bs ++ [(m, blk ++ if bool_decide (what ∈ [txt "all"; txt "code"])
                           then seg else [])]) rest.
Proof.
  induction 1 as [|l seg Hl _ IH]; intros bs m blk rest.
  - cbn [app]. destruct (bool_decide _); now rewrite app_nil_r.
  - cbn [app hilite_lines]. change (code_mode =? code_mode)%Z with true.
    rewrite (bool_decide_eq_false_2 _ Hl). cbn [andb negb].
    destruct (bool_decide (what ∈ [txt "all"; txt "code"])) eqn:E.
    + rewrite block_append_last, IH. now rewrite <- app_assoc.
    + rewrite IH. reflexivity.
Qed.

(** A run of lines of a markdown block. *)
Lemma hilite_md_lines (what ms : str) (seg : list str) :
  Forall (fun l => rstrip l <> ms) seg ->
  forall bs m blk rest,
    hilite_lines what md_mode ms (bs ++ [(m, blk)]) (seg ++ rest)
    = hilite_lines what md_mode ms
        (bs ++ [(m, blk ++ if bool_decide (what = txt "code")
                           then [] else seg)]) rest.
Proof.
  induction 1 as [|l seg Hl _ IH]; intros bs m blk rest.
  - cbn [app]. destruct (bool_decide _); now rewrite app_nil_r.
  - cbn [app hilite_lines]. change (md_mode =? code_mode)%Z with false.
    rewrite (bool_decide_eq_false_2 _ Hl). cbn [andb negb].
    destruct (bool_decide (what = txt "code")) eqn:E; cbn [negb].
    + rewrite IH. reflexivity.
    + rewrite block_append_last, IH. now rewrite <- app_assoc.
Qed.

(** The line that opens a markdown block. *)
Lemma hilite_opener (what ms o close : str) (bs : list (Z * list str))
    (rest : list str) :
  In (rstrip o, close) docstring_marks ->
  hilite_lines what code_mode ms bs (o :: rest)
  = hilite_lines what md_mode close (bs ++ [(md_mode, [])]) rest.
Proof.
  intros Hin. cbn [hilite_lines]. change (code_mode =? code_mode)%Z with true.
  unfold docstring_marks in Hin.
  destruct Hin as [E | [E | [E | []]]]; injection E as E1 <-; rewrite <- E1;
    reflexivity.
Qed.

(** The line that closes it. *)
Lemma hilite_closer (what ms c : str) (bs : list (Z * list str))
    (rest : list str) :
  rstrip c = ms ->
  hilite_lines what md_mode ms bs (c :: rest)
  = if bool_decide (what = txt "doc") then bs
    else hilite_lines what code_mode ms (bs ++ [(code_mode, [])]) rest.
Proof.
  intros E. cbn [hilite_lines]. change (md_mode =? code_mode)%Z with false.
  now rewrite (bool_decide_eq_true_2 _ E).
Qed.

Lemma splitlines_newline (md : str) : splitlines (LF :: md) = [] :: splitlines md.
Proof. reflexivity. Qed.

Lemma fold_hilite_out_code (out : list str) (blk : list str) :
  hilite_out out (code_mode, blk) = out ++ fenced blk.
Proof.
  unfold hilite_out, fenced. change (code_mode =? code_mode)%Z with true.
  destruct (join [LF] blk); [now rewrite app_nil_r | reflexivity].
Qed.

Lemma fold_hilite_out_md (out : list str) (blk : list str) :
  hilite_out out (md_mode, blk) = out ++ unfenced blk.
Proof.
  unfold hilite_out, unfenced. change (md_mode =? code_mode)%Z with false.
  destruct (join [LF] blk); [now rewrite app_nil_r | reflexivity].
Qed.

(** X11: [do_code_hilite] on a text without markdown block.  When no line of
    the text opens a markdown block, the modes [all] and [code] give the
    whole text, behind an empty first line, between code fences (nothing
    for an empty text), the modes [doc] and [mod] give the empty text, and
    any other mode is taken as [all]. *)
Theorem do_code_hilite_no_docstring (md : str) :
  no_opener (splitlines md) ->
  do_code_hilite md (txt "all") = join [LF] (fenced ([] :: splitlines md))
  /\ do_code_hilite md (txt "code") = join [LF] (fenced ([] :: splitlines md))
  /\ do_code_hilite md (txt "doc") = []
  /\ do_code_hilite md (txt "mod") = []
  /\ forall what,
       what ∉ [txt "all"; txt "code"; txt "doc"; txt "mod"] ->
       do_code_hilite md what = do_code_hilite md (txt "all").
Proof.
  intros Hno.
  assert (Hrun : forall what,
             hilite_lines what code_mode [chr 1] [(code_mode, [])]
                          (splitlines (LF :: md))
             = [(code_mode,
                 if bool_decide (what ∈ [txt "all"; txt "code"])
                 then [] :: splitlines md else [])]).
  { intros what. rewrite splitlines_newline.
    assert (Hseg : no_opener ([] :: splitlines md)).
    { constructor; [|exact Hno]. change (rstrip []) with (@nil ascii).
      not_elem. }
    pose proof (hilite_code_lines what [chr 1] ([] :: splitlines md) Hseg
                  [] code_mode [] []) as H.
    rewrite app_nil_r in H. cbn [app hilite_lines] in H. exact H. }
  unfold do_code_hilite.
  repeat split.
  - rewrite bool_decide_eq_true_2 by is_elem. rewrite Hrun.
    rewrite bool_decide_eq_true_2 by is_elem.
    cbn [fold_left]. now rewrite fold_hilite_out_code.
  - rewrite bool_decide_eq_true_2 by is_elem. rewrite Hrun.
    rewrite bool_decide_eq_true_2 by is_elem.
    cbn [fold_left]. now rewrite fold_hilite_out_code.
  - rewrite bool_decide_eq_true_2 by is_elem. rewrite Hrun.
    rewrite bool_decide_eq_false_2 by not_elem. reflexivity.
  - rewrite bool_decide_eq_true_2 by is_elem. rewrite Hrun.
    rewrite bool_decide_eq_false_2 by not_elem. reflexivity.
  - intros what Hw. rewrite (bool_decide_eq_false_2 _ Hw).
    rewrite bool_decide_eq_true_2 by is_elem. reflexivity.
Qed.

(** The blocks of a text with one markdown block. *)
Lemma hilite_one_block (what : str) (pre body post : list str)
    (o c close : str) :
  no_opener pre -> no_opener post ->
  In (rstrip o, close) docstring_marks ->
  Forall (fun l => rstrip l <> close) body ->
  rstrip c = close ->
  let keep_code := bool_decide (what ∈ [txt "all"; txt "code"]) in
  let keep_md := negb (bool_decide (what = txt "code")) in
  hilite_lines what code_mode [chr 1] [(code_mode, [])]
               ([] :: pre ++ o :: body ++ c :: post)
  = [(code_mode, if keep_code then [] :: pre else []);
     (md_mode, if keep_md then body else [])]
    ++ if bool_decide (what = txt "doc") then []
       else [(code_mode, if keep_code then post else [])].
Proof.
  intros Hpre Hpost Ho Hbody Hc keep_code keep_md.
  assert (Hseg : no_opener ([] :: pre)).
  { constructor; [|exact Hpre]. change (rstrip []) with (@nil ascii).
    not_elem. }
  change ([] :: pre ++ o :: body ++ c :: post)
    with (([] :: pre) ++ o :: body ++ c :: post).
  pose proof (hilite_code_lines what [chr 1] ([] :: pre) Hseg
                [] code_mode [] (o :: body ++ c :: post)) as H1.
  cbn [app] in H1 |- *. rewrite H1. clear H1.
  rewrite (hilite_opener what [chr 1] o close) by assumption.
  cbn [app].
  pose proof (hilite_md_lines what close body Hbody
                [(code_mode, if keep_code then [] :: pre else [])]
                md_mode [] (c :: post)) as H2.
  cbn [app] in H2. fold keep_code. rewrite H2. clear H2.
  rewrite (hilite_closer what close c) by assumption.
  subst keep_md. destruct (bool_decide (what = txt "doc")) eqn:Ed.
  - destruct (bool_decide (what = txt "code")); reflexivity.
  - pose proof (hilite_code_lines what close post Hpost
                  [(code_mode, if keep_code then [] :: pre else []);
                   (md_mode, if bool_decide (what = txt "code")
                             then [] else body)]
                  code_mode [] []) as H3.
    rewrite app_nil_r in H3. cbn [app hilite_lines] in H3 |- *.
    rewrite H3. fold keep_code.
    destruct (bool_decide (what = txt "code")); reflexivity.
Qed.

(** X12: [do_code_hilite] on a text with one markdown block: code lines
    [pre], a line that opens a markdown block, the lines [body] none of
    which closes it, the closing line, and code lines [post].  Mode [all]
    gives the code before between fences, the body as it is and the code
    after between fences; mode [code] gives the two code parts; the modes
    [doc] and [mod] give the body alone.  Empty parts are left out. *)
Theorem do_code_hilite_docstring (md : str) (pre body post : list str)
    (o c close : str) :
  splitlines md = pre ++ o :: body ++ c :: post ->
  no_opener pre -> no_opener post ->
  In (rstrip o, close) docstring_marks ->
  Forall (fun l => rstrip l <> close) body ->
  rstrip c = close ->
  do_code_hilite md (txt "all")
  = join [LF] (fenced ([] :: pre) ++ unfenced body ++ fenced post)
  /\ do_code_hilite md (txt "code")
     = join [LF] (fenced ([] :: pre) ++ fenced post)
  /\ do_code_hilite md (txt "doc") = join [LF] (unfenced body)
  /\ do_code_hilite md (txt "mod") = join [LF] (unfenced body).
Proof.
  intros Hmd Hpre Hpost Ho Hbody Hc.
  unfold do_code_hilite. rewrite splitlines_newline, Hmd.
  repeat split;
    rewrite bool_decide_eq_true_2 by is_elem;
    rewrite (hilite_one_block _ pre body post o c close) by assumption;
    repeat (first [ rewrite bool_decide_eq_true_2 by first [reflexivity | is_elem]
                  | rewrite bool_decide_eq_false_2
                      by first [discriminate | not_elem] ]);
    cbn [negb app fold_left];
    rewrite ?fold_hilite_out_code, ?fold_hilite_out_md;
    cbn [app fenced unfenced join]; rewrite ?app_nil_r, <- ?app_assoc;
    reflexivity.
Qed.

Lemma do_code_hilite_docstring_witness :
  let md := txt "import os" ++ [LF; dq; dq; dq; "_"%char; LF]
            ++ txt "# Title" ++ [LF; dq; dq; dq; LF] ++ txt "x = 1" in
  let pre := [txt "import os"] in
  let body := [txt "# Title"] in
  let post := [txt "x = 1"] in
  do_code_hilite md (txt "all")
  = join [LF] (fenced ([] :: pre) ++ unfenced body ++ fenced post)
  /\ do_code_hilite md (txt "code")
     = join [LF] (fenced ([] :: pre) ++ fenced post)
  /\ do_code_hilite md (txt "doc") = join [LF] (unfenced body)
  /\ do_code_hilite md (txt "mod") = join [LF] (unfenced body).
Proof.
  apply (do_code_hilite_docstring _ _ _ _ [dq; dq; dq; "_"%char] [dq; dq; dq]
           [dq; dq; dq]).
  - reflexivity.
  - repeat constructor; vm_compute; not_elem.
  - repeat constructor; vm_compute; not_elem.
  - left. reflexivity.
  - repeat constructor. vm_compute. discriminate.
  - reflexivity.
Defined.

Lemma do_code_hilite_no_docstring_witness :
  let md := txt "x = 1" ++ [LF] ++ txt "y = 2" in
  do_code_hilite md (txt "all") = join [LF] (fenced ([] :: splitlines md))
  /\ do_code_hilite md (txt "code") = join [LF] (fenced ([] :: splitlines md))
  /\ do_code_hilite md (txt "doc") = []
  /\ do_code_hilite md (txt "mod") = []
  /\ forall what,
       what ∉ [txt "all"; txt "code"; txt "doc"; txt "mod"] ->
       do_code_hilite md what = do_code_hilite md (txt "all").
Proof.
  apply do_code_hilite_no_docstring.
  repeat constructor; vm_compute; not_elem.
Defined.

(** ** Splitting at the last occurrence *)

Lemma rpartition_last (a b : str) (c : ascii) :
  ~ In c b -> rpartition (a ++ c :: b) [c] = Some (a, b).
Proof.
  intros Hb. unfold rpartition. change (rev [c]) with [c].
  rewrite rev_app_distr. cbn [rev]. rewrite <- app_assoc.
  rewrite (partition_first (rev b) [c] (rev a) c);
    [| now rewrite <- in_rev | reflexivity].
  now rewrite !rev_involutive.
Qed.

Lemma rsplit1_head_last (a b : str) (c : ascii) :
  ~ In c b -> rsplit1_head (a ++ c :: b) [c] = Ok a.
Proof. intros Hb. unfold rsplit1_head. now rewrite rpartition_last. Qed.

Lemma rsplit1_head_ok (s : str) (o : ascii) (sep : str) :
  exists x, rsplit1_head s (o :: sep) = Ok x.
Proof.
  unfold rsplit1_head. destruct (rpartition s (o :: sep)) as [[a b]|];
    eexists; reflexivity.
Qed.

Lemma split1_tail_prefix (o : ascii) (sep r : str) :
  split1_tail ((o :: sep) ++ r) (o :: sep) = Ok r.
Proof. unfold split1_tail. now rewrite partition_prefix. Qed.

Lemma split1_tail_first (a b : str) (c : ascii) :
  ~ In c a -> split1_tail (a ++ c :: b) [c] = Ok b.
Proof.
  intros Ha. unfold split1_tail.
  change (a ++ c :: b) with (a ++ [c] ++ b).
  now rewrite (partition_first a [c] b c Ha eq_refl).
Qed.

(** ** The text of a node *)

Section NodeText.

Variable unescape : str -> str.

(** X13: the text the formatter takes from a node.  For an element that is
    serialised as its tag with attributes, a body and its closing tag,
    [is_text_node] gives the body followed by the opening of the closing
    tag, and tells that it is text when it does not start with [<] or
    starts with an inline tag.  The text taken is then the body with its
    inline tags turned into markers, unescaped; for an empty body it is
    the text of the element. *)
Theorem node_text_inner (tag attrs body text : str) :
  let s := txt "<" ++ tag ++ attrs ++ txt ">" ++ body
           ++ txt "</" ++ tag ++ txt ">" in
  ~ In ">"%char attrs -> ~ In "<"%char tag ->
  (is_text_node s tag
   = Ok (if negb (startswith (body ++ txt "</" ++ tag) (txt "<"))
            || existsb (startswith (body ++ txt "</" ++ tag))
                       [txt "<em>"; txt "<code>"; txt "<strong>"]
         then Some (body ++ txt "</" ++ tag) else None))
  /\ ((negb (startswith body (txt "<"))
       || existsb (startswith body) [txt "<em>"; txt "<code>"; txt "<strong>"]
       = true) -> body <> [] ->
      node_text unescape s tag text = Ok (unescape (encode_inline body)))
  /\ (body = [] -> node_text unescape s tag text = Ok text).
Proof.
  intros s Hattrs Htag.
  assert (Hhtml : is_text_node s tag
                  = Ok (if negb (startswith (body ++ txt "</" ++ tag) (txt "<"))
                           || existsb (startswith (body ++ txt "</" ++ tag))
                                [txt "<em>"; txt "<code>"; txt "<strong>"]
                        then Some (body ++ txt "</" ++ tag) else None)).
  { unfold is_text_node, s.
    change (txt "<" ++ tag ++ attrs ++ txt ">" ++ body ++ txt "</" ++ tag
            ++ txt ">")
      with (("<"%char :: tag) ++ attrs ++ ">"%char :: body ++ txt "</" ++ tag
            ++ txt ">").
    change (txt "<" ++ tag) with ("<"%char :: tag).
    rewrite split1_tail_prefix, bind_Ok.
    change (txt ">") with [">"%char].
    rewrite split1_tail_first by assumption. rewrite bind_Ok.
    assert (E : body ++ txt "</" ++ tag ++ [">"%char]
                = (body ++ txt "</" ++ tag) ++ ">"%char :: []).
    { now rewrite <- !app_assoc. }
    rewrite E, rsplit1_head_last by (intros []). rewrite bind_Ok.
    destruct (negb (startswith (body ++ txt "</" ++ tag) (txt "<"))); 
      [reflexivity|].
    cbn [orb]. destruct (existsb _ _); reflexivity. }
  split; [exact Hhtml|]. split.
  - intros Hb Hne. unfold node_text. rewrite Hhtml.
    assert (Hx : negb (startswith (body ++ txt "</" ++ tag) (txt "<"))
                 || existsb (startswith (body ++ txt "</" ++ tag))
                      [txt "<em>"; txt "<code>"; txt "<strong>"] = true).
    { apply orb_true_iff in Hb as [Hb | Hb]; apply orb_true_iff.
      - left. destruct body as [|ch body]; [contradiction|]. exact Hb.
      - right. cbn [existsb] in Hb |- *.
        repeat (apply orb_true_iff in Hb as [Hb | Hb];
                [rewrite (startswith_prefix _ _ _ Hb), ?orb_true_r;
                 reflexivity|]).
        discriminate Hb. }
    rewrite Hx, bind_Ok.
    change (body ++ txt "</" ++ tag) with (body ++ "<"%char :: "/"%char :: tag).
    change (txt "<") with ["<"%char].
    rewrite rsplit1_head_last; [reflexivity|].
    intros [H | H]; [discriminate H | contradiction].
  - intros ->. unfold node_text. rewrite Hhtml. reflexivity.
Qed.

End NodeText.

Lemma node_text_inner_witness :
  let tag := txt "p" in
  let body := txt "a <em>b</em>" in
  let s := txt "<" ++ tag ++ [] ++ txt ">" ++ body
           ++ txt "</" ++ tag ++ txt ">" in
  (is_text_node s tag
   = Ok (if negb (startswith (body ++ txt "</" ++ tag) (txt "<"))
            || existsb (startswith (body ++ txt "</" ++ tag))
                       [txt "<em>"; txt "<code>"; txt "<strong>"]
         then Some (body ++ txt "</" ++ tag) else None))
  /\ ((negb (startswith body (txt "<"))
       || existsb (startswith body) [txt "<em>"; txt "<code>"; txt "<strong>"]
       = true) -> body <> [] ->
      node_text (fun t => t) s tag [] = Ok (encode_inline body))
  /\ (body = [] -> node_text (fun t => t) s tag [] = Ok []).
Proof.
  apply (node_text_inner (fun t => t) (txt "p") [] (txt "a <em>b</em>") []).
  - intros [].
  - vm_compute. intros H. in_cases H.
Defined.

(** ** The raw blocks put back *)

Section StashBlocks.

Variable style_ansi : str -> option str -> str.
Variable unescape : str -> str.

(** X14: the language class of a fenced code block is never read.  For a
    raw block that starts with [<pre><code], whatever attributes follow up
    to the first [>], the loop of [main] replaces the placeholder by
    [Tags.code] of the stripped code with the empty language: [pre] is
    rebound to the text before [<pre><code], which is empty, before the
    class is looked for in it. *)
Theorem stash_block_lang (g : Globals) (ph0 attrs body : str) :
  unescape ph0 = txt "<pre><code" ++ attrs ++ txt ">" ++ body ->
  ~ In ">"%char attrs ->
  exists code,
    rsplit1_head body (txt "</code>") = Ok code
    /\ stash_block style_ansi unescape g ph0
       = Ok (Tags_code style_ansi g (strip code) 2 (Some []))
    /\ forall PH ansi,
         replace_stash style_ansi unescape PH g [ph0] ansi
         = Ok (replace ansi (PH 0%Z)
                 (Tags_code style_ansi g (strip code) 2 (Some []))).
Proof.
  intros Hraw Hattrs.
  destruct (rsplit1_head_ok body "<" (txt "/code>")) as [code Hcode].
  exists code. split; [exact Hcode|].
  cut (stash_block style_ansi unescape g ph0
       = Ok (Tags_code style_ansi g (strip code) 2 (Some []))).
  { intros H. split; [exact H|]. intros PH ansi. unfold replace_stash.
    cbn [length seq map combine foldM fst snd]. rewrite H, !bind_Ok.
    reflexivity. }
  unfold stash_block. rewrite Hraw.
  rewrite startswith_app.
  change (txt "<pre><code") with ("<"%char :: txt "pre><code").
  rewrite partition_prefix.
  change (txt ">" ++ body) with (">"%char :: body).
  change (txt ">") with [">"%char].
  rewrite split1_tail_first by assumption. rewrite bind_Ok.
  change (txt "</code>") with ("<"%char :: txt "/code>").
  rewrite Hcode, bind_Ok.
  change (contains [] (txt "class=" ++ [dq])) with false.
  cbv iota. rewrite bind_Ok. reflexivity.
Qed.

End StashBlocks.

Lemma stash_block_lang_witness :
  let ph0 := txt "<pre><code class=" ++ [dq] ++ txt "python" ++ [dq]
             ++ txt ">x = 1" ++ [LF] ++ txt "</code></pre>" in
  exists code,
    rsplit1_head (txt "x = 1" ++ [LF] ++ txt "</code></pre>") (txt "</code>")
    = Ok code
    /\ stash_block (fun s _ => s) (fun s => s) (globals0 80 false) ph0
       = Ok (Tags_code (fun s _ => s) (globals0 80 false) (strip code) 2
                       (Some []))
    /\ forall PH ansi,
         replace_stash (fun s _ => s) (fun s => s) PH (globals0 80 false)
                       [ph0] ansi
         = Ok (replace ansi (PH 0%Z)
                 (Tags_code (fun s _ => s) (globals0 80 false) (strip code) 2
                            (Some []))).
Proof.
  apply (stash_block_lang (fun s _ => s) (fun s => s) (globals0 80 false) _
           (txt " class=" ++ [dq] ++ txt "python" ++ [dq])).
  - reflexivity.
  - vm_compute. intros H. in_cases H.
Defined.

(** ** Colouring the tokens of code *)

Lemma marker_free_paired (s : str) : marker_free s -> paired s.
Proof.
  intros H. repeat split; intros Hin; exfalso;
    [apply (H code_end) | apply (H stng_end) | apply (H emph_end)];
    try assumption; cbn; tauto.
Qed.

Lemma marker_free_unmarked (s : str) : marker_free s -> unmarked s = s.
Proof.
  intros H. unfold unmarked. induction s as [|c s IH]; [reflexivity|].
  cbn [List.filter].
  destruct (is_marker c) eqn:E.
  - exfalso. unfold is_marker in E. apply existsb_exists in E as (m & Hm & E).
    apply Ascii.eqb_eq in E. subst. apply (H m Hm). now left.
  - cbn [negb]. f_equal. apply IH. intros m Hm Hin. apply (H m Hm). now right.
Qed.

Lemma join_nil_app (a b : list str) : join [] (a ++ b) = join [] a ++ join [] b.
Proof.
  induction a as [|x [|y a] IH]; [reflexivity | |].
  - cbn [app]. destruct b; [now rewrite app_nil_r | reflexivity].
  - change (join [] ((x :: y :: a) ++ b))
      with (x ++ [] ++ join [] ((y :: a) ++ b)).
    rewrite IH. cbn [join app]. now rewrite app_assoc.
Qed.

Lemma style_token_app (g : Globals) (cod : list str) (tv : str * str) :
  style_token g cod tv = cod ++ style_token g [] tv.
Proof.
  unfold style_token. destruct tv as [t [|c v]]; [now rewrite app_nil_r|].
  destruct (code_hl_tokens g !! t) as [k|]; [|reflexivity].
  destruct (k =? 0)%Z; reflexivity.
Qed.

Lemma style_tokens_concat (g : Globals) (tokens : list (str * str)) :
  forall cod,
    join [] (fold_left (style_token g) tokens cod)
    = join [] cod
      ++ concat (map (fun tv => join [] (style_token g [] tv)) tokens).
Proof.
  induction tokens as [|tv tokens IH]; intros cod.
  - cbn. now rewrite app_nil_r.
  - cbn [fold_left map concat]. rewrite IH, style_token_app, join_nil_app.
    now rewrite <- app_assoc.
Qed.

(** X15: highlighting changes colours only.  For tokens whose values hold
    neither escape character nor marker byte, the text [style_ansi] builds
    from them is, without its colours, the values of the tokens one after
    the other; a token without colour, or of colour 0, is left as it is. *)
Theorem style_tokens_visible (g : Globals) (tokens : list (str * str)) :
  Forall (fun tv : str * str => ~ In ESC tv.2 /\ marker_free tv.2) tokens ->
  clean_ansi (style_tokens g tokens) = concat (map snd tokens).
Proof.
  intros Hall. unfold clean_ansi, style_tokens.
  rewrite style_tokens_concat. cbn [join app].
  induction Hall as [|[t v] tokens [Hesc Hfree] _ IH]; [reflexivity|].
  cbn [map concat snd] in *. unfold style_token at 1.
  destruct v as [|c v]; [exact IH|].
  assert (Hplain : clean_go false
                     ((c :: v)
                      ++ concat (map (fun tv => join [] (style_token g [] tv))
                                     tokens))
                   = (c :: v) ++ concat (map snd tokens)).
  { rewrite clean_plain_app by assumption. now rewrite IH. }
  destruct (code_hl_tokens g !! t) as [k|]; [|exact Hplain].
  destruct (k =? 0)%Z; [exact Hplain|].
  cbn [app join].
  rewrite clean_col_app by (try assumption; now apply marker_free_paired).
  rewrite marker_free_unmarked by assumption. now rewrite IH.
Qed.

Lemma style_tokens_visible_witness :
  let g := set_code_hl_tokens (globals0 80 true)
             {[ txt "Keyword" := 117%Z; txt "Name" := 0%Z ]} in
  let tokens := [(txt "Keyword", txt "def"); (txt "Text", txt " ");
                 (txt "Name", txt "f")] in
  clean_ansi (style_tokens g tokens) = concat (map snd tokens).
Proof.
  apply style_tokens_visible.
  repeat constructor; cbn [snd];
    try (vm_compute; intros H; in_cases H; fail);
    intros m Hm Hin; vm_compute in Hm, Hin; in_cases Hm; subst; in_cases Hin.
Defined.

(** ** Admonitions with a keyword of the table *)

Lemma find_admon_first (d1 d2 : list (str * str)) (k v rest : str) :
  k <> [] ->
  Forall (fun kv : str * str => startswith (k ++ rest) kv.1 = false) d1 ->
  find_admon (d1 ++ (k, v) :: d2) (k ++ rest) = Some k.
Proof.
  intros Hk. induction 1 as [|[key val] d1 Hkey _ IH].
  - cbn [app find_admon]. now rewrite startswith_app.
  - cbn [app find_admon]. cbn [fst] in Hkey. now rewrite Hkey.
Qed.

Section KnownAdmonitions.

Variable style_ansi : str -> option str -> str.

(** X16: an admonition whose keyword is in the table.  When the stripped
    text is the mark, a key of the table that no earlier key of the table
    is a prefix of, and the rest, the node is rendered as an admonition of
    that key: the prefix is the bar and the capitalized key, the text is
    the rest, the table and the other globals stay as they are, and what
    is appended starts and ends with a newline. *)
Theorem known_admonition_rendered (g : Globals) (out : list str)
    (tag t el_pref : str) (links : list str) (hir : Z) (parent_li : bool)
    (o : ascii) (k rest v : str) (c0 : Z) (d1 d2 : list (str * str)) :
  strip t = txt "!!! " ++ (o :: k) ++ rest ->
  o <> "!"%char -> o <> SP ->
  admons g = d1 ++ (o :: k, v) :: d2 ->
  Forall (fun kv : str * str => startswith ((o :: k) ++ rest) kv.1 = false) d1 ->
  globals_item g v = Ok c0 ->
  tag <> txt "h" -> tag <> txt "hr" ->
  exists mid body,
    admonition g (strip t)
    = Ok (mkAdmon g (txt "┃ " ++ capitalize (o :: k)) (txt "┃ ") (o :: k) rest)
    /\ formatter_text style_ansi g out tag t el_pref links hir parent_li
       = Ok (g, out ++ mid ++ [[LF]])
    /\ concat mid = LF :: body.
Proof.
  intros Hs Ho1 Ho2 Hadm Hd1 Hcol Hh Hhr.
  assert (Had : admonition g (strip t)
                = Ok (mkAdmon g (txt "┃ " ++ capitalize (o :: k)) (txt "┃ ")
                              (o :: k) rest)).
  { rewrite Hs. unfold admonition. rewrite startswith_app.
    change (skipn 4 (txt "!!! " ++ (o :: k) ++ rest)) with ((o :: k) ++ rest).
    rewrite Hadm, find_admon_first by (discriminate || assumption).
    rewrite bind_Ok. unfold split1_tail.
    rewrite partition_after_mark by assumption. reflexivity. }
  assert (Hget : dict_get (admons g) (o :: k) = Some v).
  { rewrite Hadm. clear -Hd1.
    induction Hd1 as [|[key val] d1 Hkey _ IH]; cbn [app dict_get].
    - now destruct (decide (o :: k = o :: k)).
    - destruct (decide (key = o :: k)) as [-> | _]; [|exact IH].
      cbn [fst] in Hkey. now rewrite startswith_app in Hkey. }
  cut (exists mid body,
         formatter_text style_ansi g out tag t el_pref links hir parent_li
         = Ok (g, out ++ mid ++ [[LF]])
         /\ concat mid = LF :: body).
  { intros (mid & body & Hf & Hc). exists mid, body. auto. }
  unfold formatter_text. rewrite Had.
  unfold mbind, result_bind.
  cbn [ad_globals ad_admon ad_t ad_pref ad_body_pref].
  unfold dict_item. rewrite Hget, Hcol.
  match goal with
  | |- context [match ?e with [] => (?a, ?b) | _ :: _ => (?c, ?d) end] =>
      set (pb := match e with [] => (a, b) | _ :: _ => (c, d) end)
  end.
  destruct pb as [pref body_pref].
  match goal with
  | |- context [if ?b then (?x, ?y) else (?z, ?w)] =>
      set (ih := if b then (x, y) else (z, w))
  end.
  destruct ih as [ind hir0].
  destruct (rewrap_total g tag rest ind pref) as [a Ha]. rewrite Ha.
  destruct (col_cons g pref c0 false) as [pr Hpr]. rewrite Hpr.
  destruct (prefix_colour_ok g (ESC :: pr) hir0) as [a1 Ha1]. rewrite Ha1.
  set (body := col g body_pref c0 false).
  set (text := ind ++ a1 ++ join (LF :: ind ++ body) (splitlines a)).
  destruct (tag_fmt_func_ok style_ansi g tag text hir0 Hh Hhr) as [s1 Hs1].
  destruct (tag_fmt_func_ok style_ansi g tag (lstrip text) hir0 Hh Hhr)
    as [s2 Hs2].
  rewrite Hs1, Hs2.
  assert (Hstep : exists mid1 b1,
    (if parent_li && bool_decide (tag = txt "p")
     then append_last (out ++ [[LF]]) s2
     else Ok ((out ++ [[LF]]) ++ [s1])) = Ok (out ++ mid1)
    /\ concat mid1 = LF :: b1 /\ mid1 <> []).
  { destruct (parent_li && bool_decide (tag = txt "p")).
    - destruct (append_last_mid out [[LF]] s2 ltac:(discriminate))
        as (mid1 & -> & Hc & Hne).
      exists mid1, s2. auto.
    - exists [[LF]; s1], (s1 ++ []). rewrite <- app_assoc. split; [reflexivity|].
      split; [reflexivity | discriminate]. }
  destruct Hstep as (mid1 & b1 & -> & Hc1 & Hne1).
  assert (Hlinks : exists mid2 b2,
    (if show_links g
     then foldM (fun out1 l =>
                   append_last out1 (low g (txt "(" ++ l ++ txt ") ")))
                (out ++ mid1) links
     else Ok (out ++ mid1)) = Ok (out ++ mid2)
    /\ concat mid2 = LF :: b2).
  { destruct (show_links g).
    - destruct (append_links (fun l => low g (txt "(" ++ l ++ txt ") "))
                  out links mid1 Hne1) as (mid2 & tail & -> & Hc2 & _).
      exists mid2, (b1 ++ tail). split; [reflexivity|].
      now rewrite Hc2, Hc1.
    - exists mid1, b1. auto. }
  destruct Hlinks as (mid2 & b2 & -> & Hc2).
  exists mid2, b2. split; [rewrite <- app_assoc; reflexivity | exact Hc2].
Qed.

End KnownAdmonitions.

Lemma known_admonition_rendered_witness :
  let g := globals0 80 true in
  exists mid body,
    admonition g (strip (txt "!!! warning: hot"))
    = Ok (mkAdmon g (txt "┃ " ++ capitalize (txt "warning")) (txt "┃ ")
                  (txt "warning") (txt ": hot"))
    /\ formatter_text (fun s _ => s) g [] (txt "p") (txt "!!! warning: hot")
                      [] [] 1 false
       = Ok (g, [] ++ mid ++ [[LF]])
    /\ concat mid = LF :: body.
Proof.
  apply (known_admonition_rendered (fun s _ => s) (globals0 80 true) []
           (txt "p") (txt "!!! warning: hot") [] [] 1 false
           "w"%char (txt "arning") (txt ": hot") (txt "R") 124
           [(txt "note", txt "H3")] (skipn 2 admons0)).
  - reflexivity.
  - discriminate.
  - discriminate.
  - reflexivity.
  - repeat constructor.
  - reflexivity.
  - discriminate.
  - discriminate.
Defined.

(** ** Code without the tokenizer *)

Lemma split_nl_go_line (x : str) :
  ~ In LF x ->
  forall cur s, split_nl_go cur (x ++ s) = split_nl_go (rev x ++ cur) s.
Proof.
  induction x as [|c x IH]; intros Hx cur s; [reflexivity|].
  cbn [app split_nl_go].
  destruct (Ascii.eqb c LF) eqn:E;
    [apply Ascii.eqb_eq in E; subst; exfalso; apply Hx; now left|].
  rewrite IH by (intros H; apply Hx; now right).
  cbn [rev]. now rewrite <- app_assoc.
Qed.

Lemma split_nl_lines (ls : list str) :
  ls <> [] -> Forall (fun l => ~ In LF l) ls -> split_nl (join [LF] ls) = ls.
Proof.
  unfold split_nl. induction ls as [|x [|y r] IH]; intros Hne Hall.
  - contradiction.
  - apply Forall_inv in Hall. cbn [join].
    rewrite <- (app_nil_r x) at 1. rewrite split_nl_go_line by assumption.
    cbn [split_nl_go]. now rewrite app_nil_r, rev_involutive.
  - pose proof (Forall_inv Hall) as Hx. apply Forall_inv_tail in Hall.
    change (join [LF] (x :: y :: r)) with (x ++ LF :: join [LF] (y :: r)).
    rewrite split_nl_go_line by assumption. rewrite app_nil_r.
    cbn [split_nl_go]. rewrite Ascii.eqb_refl, rev_involutive.
    f_equal. apply IH; [discriminate | assumption].
Qed.

(** [splitlines] gives the lines of a text back when the last one is not
    empty. *)
Lemma splitlines_lines (ls : list str) :
  Forall no_break ls -> List.last ls [LF] <> [] ->
  splitlines (join [LF] ls) = ls.
Proof.
  unfold splitlines. induction ls as [|x [|y r] IH]; intros Hall Hlast.
  - reflexivity.
  - apply Forall_inv in Hall. cbn [join]. cbn [List.last] in Hlast.
    rewrite <- (app_nil_r x) at 1. rewrite splitlines_go_line by assumption.
    rewrite app_nil_r. cbn [splitlines_go].
    destruct (rev x) eqn:E.
    + apply (f_equal (@rev ascii)) in E. rewrite rev_involutive in E.
      cbn in E. contradiction.
    + now rewrite <- E, rev_involutive.
  - pose proof (Forall_inv Hall) as Hx. apply Forall_inv_tail in Hall.
    change (join [LF] (x :: y :: r)) with (x ++ LF :: join [LF] (y :: r)).
    rewrite splitlines_go_line by assumption.
    rewrite app_nil_r. cbn [splitlines_go]. rewrite Ascii.eqb_refl.
    rewrite rev_involutive. f_equal. now apply IH.
Qed.

(** No occurrence of a text that starts with a newline begins inside a
    line. *)
Lemma replace_line (x r old new : str) :
  ~ In LF x ->
  replace (x ++ r) (LF :: old) new = x ++ replace r (LF :: old) new.
Proof.
  induction x as [|c x IH]; intros Hx; [reflexivity|].
  cbn [app]. rewrite replace_miss.
  - f_equal. apply IH. intros H. apply Hx. now right.
  - cbn [startswith]. destruct (Ascii.eqb c LF) eqn:E; [|reflexivity].
    apply Ascii.eqb_eq in E. subst. exfalso. apply Hx. now left.
Qed.

Lemma in_repeat (c x : ascii) (k : nat) : In x (repeat c k) -> x = c.
Proof. intros H. now apply repeat_spec in H. Qed.

Lemma startswith_line (x rest : str) (k : nat) :
  rest = [] \/ (exists r, rest = LF :: r) ->
  startswith (x ++ rest) (repeat SP k) = startswith x (repeat SP k).
Proof.
  intros [-> | [r ->]]; [now rewrite app_nil_r|].
  apply startswith_before. intros H. apply in_repeat in H. discriminate H.
Qed.

(** Taking the indent of the first line off every line. *)
Lemma replace_indent (k : nat) (ls : list str) :
  ls <> [] -> Forall (fun l => ~ In LF l) ls ->
  replace (LF :: join [LF] ls) (LF :: repeat SP k) [LF]
  = LF :: join [LF] (map (unindent_by k) ls).
Proof.
  induction ls as [|x ls IH]; intros Hne Hall; [contradiction|].
  pose proof (Forall_inv Hall) as Hx. apply Forall_inv_tail in Hall.
  assert (Hjoin : exists rest,
             join [LF] (x :: ls) = x ++ rest
             /\ (rest = [] \/ exists r, rest = LF :: r)
             /\ replace rest (LF :: repeat SP k) [LF]
                = match ls with
                  | [] => []
                  | _ => LF :: join [LF] (map (unindent_by k) ls)
                  end).
  { destruct ls as [|y r].
    - exists []. cbn [join]. rewrite app_nil_r. auto.
    - exists (LF :: join [LF] (y :: r)). split; [reflexivity|].
      split; [right; eauto|]. apply IH; [discriminate | assumption]. }
  destruct Hjoin as (rest & -> & Hrest & Hrep).
  assert (Hout : LF :: join [LF] (map (unindent_by k) (x :: ls))
                 = LF :: unindent_by k x
                   ++ match ls with
                      | [] => []
                      | _ => LF :: join [LF] (map (unindent_by k) ls)
                      end).
  { destruct ls; [cbn [map join]; now rewrite app_nil_r | reflexivity]. }
  rewrite Hout, <- Hrep. unfold unindent_by.
  destruct (startswith x (repeat SP k)) eqn:Es.
  - rewrite replace_hit.
    2:{ cbn [startswith]. rewrite Ascii.eqb_refl. cbn [andb].
        now rewrite startswith_line. }
    cbn [length skipn app]. rewrite repeat_length. f_equal.
    assert (Hskip : forall y, skipn k (repeat SP k ++ y) = y).
    { intros y. rewrite <- (repeat_length SP k) at 1. apply skipn_app_exact. }
    apply startswith_inv in Es. rewrite repeat_length in Es.
    remember (skipn k x) as x' eqn:Ex. clear Ex. subst x.
    rewrite <- app_assoc, Hskip.
    apply replace_line. intros H. apply Hx. apply in_or_app. now right.
  - rewrite replace_miss.
    2:{ cbn [startswith]. rewrite Ascii.eqb_refl. cbn [andb].
        now rewrite startswith_line. }
    f_equal. now apply replace_line.
Qed.

Lemma join_prefix_lines (p : str) (ls : list str) :
  ls <> [] -> join p ([] :: ls) = concat (map (fun l => p ++ l) ls).
Proof.
  intros Hne. destruct ls as [|x ls]; [contradiction|].
  change (join p ([] :: x :: ls)) with (p ++ join p (x :: ls)).
  clear Hne. revert x. induction ls as [|y ls IH]; intros x.
  - cbn. now rewrite app_nil_r.
  - change (join p (x :: y :: ls)) with (x ++ p ++ join p (y :: ls)).
    rewrite IH. cbn [map concat]. now rewrite <- !app_assoc.
Qed.

Lemma contains_absent (o : ascii) (old s : str) :
  ~ In o s -> contains s (o :: old) = false.
Proof.
  intros H. destruct (contains s (o :: old)) eqn:E; [|reflexivity].
  apply contains_inv in E as (a & b & ->). exfalso. apply H.
  apply in_or_app. right. now left.
Qed.

Lemma code_prefix_chars (g : Globals) (hir : Z) : ~ In (chr 1) (code_prefix g hir).
Proof.
  unfold code_prefix, low.
  rewrite !col_plain by (vm_compute; intros H; in_cases H).
  intros [H | H]; [discriminate H|].
  repeat (apply in_app_or in H as [H | H]).
  - apply in_mul in H. vm_compute in H. in_cases H.
  - apply col_seq_chars in H. destruct H as [H | [H | [H | H]]];
      try discriminate H. vm_compute in H. in_cases H.
  - vm_compute in H. in_cases H.
  - vm_compute in H. in_cases H.
  - vm_compute in H. in_cases H.
  - apply col_seq_chars in H. destruct H as [H | [H | [H | H]]];
      try discriminate H. vm_compute in H. in_cases H.
  - destruct H.
  - destruct H.
Qed.

Lemma unindent_by_suffix (k : nat) (l : str) (c : ascii) :
  In c (unindent_by k l) -> In c l.
Proof.
  unfold unindent_by. destruct (startswith l (repeat SP k)); [|auto].
  intros H. rewrite <- (firstn_skipn k l). apply in_or_app. now right.
Qed.

Lemma unindent_by_keeps (k : nat) (l : str) (c : ascii) :
  c <> SP -> In c l -> In c (unindent_by k l).
Proof.
  intros Hc Hin. unfold unindent_by.
  destruct (startswith l (repeat SP k)) eqn:E; [|assumption].
  apply startswith_inv in E. rewrite repeat_length in E.
  rewrite E in Hin. apply in_app_or in Hin as [Hin | Hin]; [|assumption].
  apply in_repeat in Hin. contradiction.
Qed.

Lemma last_map_ne {A B : Type} (f : A -> B) (l : list A) (d' : B) (d : A) :
  l <> [] -> List.last (map f l) d' = f (List.last l d).
Proof.
  induction l as [|x [|y l] IH]; intros Hne; [contradiction | reflexivity|].
  change (List.last (map f (x :: y :: l)) d')
    with (List.last (map f (y :: l)) d').
  change (List.last (x :: y :: l) d) with (List.last (y :: l) d).
  apply IH. discriminate.
Qed.

Section PlainCode.

Variable style_ansi : str -> option str -> str.

(** X17: a code block without the tokenizer.  Without [pygments], for code
    lines that hold no line break and no byte 1, the last of which is not
    blank, [Tags.code] gives every line behind the code prefix (newline,
    indent, low-visibility bar, code colour), without the indent of the
    first line when the line starts with as many blanks, and ends with a
    newline and the reset sequence. *)
Theorem Tags_code_plain (g : Globals) (ls : list str) (hir : Z)
    (lang : option str) :
  have_pygments g = false ->
  Forall no_break ls ->
  Forall (fun l => ~ In (chr 1) l) ls ->
  (exists c, In c (List.last ls []) /\ c <> SP) ->
  Tags_code style_ansi g (join [LF] ls) hir lang
  = concat (map (fun l => code_prefix g hir
                          ++ unindent_by (indent_of (hd [] ls)) l) ls)
    ++ [LF] ++ reset_col.
Proof.
  intros Hp Hbr Hone (c & Hc & Hsp).
  assert (Hne : ls <> []) by (intros ->; destruct Hc).
  assert (Hlf : Forall (fun l => ~ In LF l) ls).
  { eapply List.Forall_impl; [|exact Hbr]. now intros l [H _]. }
  set (k := indent_of (hd [] ls)).
  unfold Tags_code. rewrite Hp.
  rewrite split_nl_lines by assumption.
  fold (indent_of (hd [] ls)). fold k.
  rewrite replace_indent by assumption.
  change (skipn 1 (LF :: join [LF] (map (unindent_by k) ls)))
    with (join [LF] (map (unindent_by k) ls)).
  rewrite splitlines_newline, splitlines_lines.
  - fold (code_prefix g hir).
    rewrite join_prefix_lines by (destruct ls; [contradiction | discriminate]).
    rewrite List.map_map. rewrite replace_absent; [reflexivity|].
    apply contains_absent. intros H. apply in_concat in H as (x & Hx & H).
    apply in_map_iff in Hx as (l & <- & Hl).
    apply in_app_or in H as [H | H].
    + now apply code_prefix_chars in H.
    + apply unindent_by_suffix in H.
      rewrite List.Forall_forall in Hone. now apply (Hone l).
  - apply Forall_forall. intros l Hl. apply list_elem_of_In in Hl.
    apply in_map_iff in Hl as (l0 & <- & Hl0).
    rewrite List.Forall_forall in Hbr. destruct (Hbr l0 Hl0) as [H1 H2].
    split; intros H; apply unindent_by_suffix in H; auto.
  - rewrite (last_map_ne (unindent_by k) ls [LF] []) by assumption.
    intros E. apply (unindent_by_keeps k) in Hc; [|assumption].
    rewrite E in Hc. destruct Hc.
Qed.

End PlainCode.

Lemma Tags_code_plain_witness :
  let g := globals0 80 false in
  let ls := [txt "  if x:"; txt "    y = 1"] in
  Tags_code (fun s _ => s) g (join [LF] ls) 2 None
  = concat (map (fun l => code_prefix g 2
                          ++ unindent_by (indent_of (hd [] ls)) l) ls)
    ++ [LF] ++ reset_col.
Proof.
  apply Tags_code_plain.
  - reflexivity.
  - repeat constructor; vm_compute; intros H; in_cases H.
  - repeat constructor; vm_compute; intros H; in_cases H.
  - exists "y"%char. split; [vm_compute; tauto | discriminate].
Defined.

(** ** A paragraph on the terminal *)

(** The lines of a text whose first part is [x]: a line is either made of
    the line being read and of [x], or it is a line of the rest. *)
Lemma splitlines_go_part (x : str) :
  forall after_cr cur s l,
    (after_cr = true -> cur = []) ->
    In l (splitlines_go after_cr cur (x ++ s)) ->
    length l <= length cur + length x
    \/ exists after_cr' cur',
         length cur' <= length cur + length x
         /\ (after_cr' = true -> cur' = [])
         /\ In l (splitlines_go after_cr' cur' s).
Proof.
  induction x as [|c x IH]; intros after_cr cur s l Hinv Hl.
  - right. exists after_cr, cur. cbn [app length] in *. split; [lia|auto].
  - cbn [app splitlines_go] in Hl.
    assert (Hstep : forall a' c',
               length c' <= S (length cur) -> (a' = true -> c' = []) ->
               In l (splitlines_go a' c' (x ++ s)) ->
               length l <= length cur + length (c :: x)
               \/ exists after_cr' cur',
                    length cur' <= length cur + length (c :: x)
                    /\ (after_cr' = true -> cur' = [])
                    /\ In l (splitlines_go after_cr' cur' s)).
    { intros a' c' Hlen Hi Hin.
      destruct (IH a' c' s l Hi Hin) as [H | (a2 & c2 & H1 & H2 & H3)].
      - left. cbn [length]. lia.
      - right. exists a2, c2. cbn [length]. split; [lia | auto]. }
    destruct (Ascii.eqb c LF).
    + destruct after_cr.
      * apply (Hstep false cur); [lia | discriminate | exact Hl].
      * destruct Hl as [<- | Hl].
        -- left. rewrite length_rev. lia.
        -- apply (Hstep false []); [cbn; lia | discriminate | exact Hl].
    + destruct (Ascii.eqb c CR).
      * destruct Hl as [<- | Hl].
        -- left. rewrite length_rev. lia.
        -- apply (Hstep true []); [cbn; lia | reflexivity | exact Hl].
      * apply (Hstep false (c :: cur)); [cbn; lia | discriminate | exact Hl].
Qed.

(** No line of a text is longer than the longest of the parts that
    newlines join to it. *)
Lemma splitlines_go_bound (n : nat) (parts : list str) :
  Forall (fun p => length p <= n) parts ->
  forall after_cr cur l,
    (after_cr = true -> cur = []) ->
    length cur + length (hd [] parts) <= n ->
    In l (splitlines_go after_cr cur (join [LF] parts)) ->
    length l <= n.
Proof.
  induction parts as [|x [|y r] IH]; intros Hall after_cr cur l Hinv Hc Hl.
  - cbn [join splitlines_go] in Hl. destruct cur; [destruct Hl|].
    destruct Hl as [<- | []]. rewrite length_rev. cbn [hd length] in *. lia.
  - cbn [join hd] in *. rewrite <- (app_nil_r x) in Hl.
    destruct (splitlines_go_part x after_cr cur [] l Hinv Hl)
      as [H | (a2 & c2 & H1 & H2 & H3)]; [lia|].
    cbn [splitlines_go] in H3. destruct c2; [destruct H3|].
    destruct H3 as [<- | []]. rewrite length_rev. cbn [length] in *. lia.
  - change (join [LF] (x :: y :: r)) with (x ++ LF :: join [LF] (y :: r)) in Hl.
    cbn [hd] in Hc.
    destruct (splitlines_go_part x after_cr cur _ l Hinv Hl)
      as [H | (a2 & c2 & H1 & H2 & H3)]; [lia|].
    apply Forall_inv_tail in Hall.
    pose proof (Forall_inv Hall) as Hy. cbn beta in Hy.
    cbn [splitlines_go] in H3. rewrite Ascii.eqb_refl in H3.
    destruct a2.
    + rewrite (H2 eq_refl) in H3.
      apply (IH Hall false [] l); [discriminate | cbn [length hd]; lia | exact H3].
    + destruct H3 as [<- | H3]; [rewrite length_rev; lia|].
      apply (IH Hall false [] l); [discriminate | cbn [length hd]; lia | exact H3].
Qed.

Lemma splitlines_bound (n : nat) (parts : list str) (l : str) :
  Forall (fun p => length p <= n) parts ->
  In l (splitlines (join [LF] parts)) -> length l <= n.
Proof.
  intros Hall Hl. destruct parts as [|x parts].
  - destruct Hl.
  - apply (splitlines_go_bound n (x :: parts) Hall false [] l);
      [discriminate | | exact Hl].
    cbn [length hd]. apply Forall_inv in Hall. cbn beta in Hall. lia.
Qed.

(** A line that [splitlines] gives holds no line break. *)
Lemma splitlines_go_no_break (s : str) :
  forall after_cr cur l,
    no_break cur -> In l (splitlines_go after_cr cur s) -> no_break l.
Proof.
  assert (Hrev : forall cur, no_break cur -> no_break (rev cur)).
  { intros cur [H1 H2]. split; intros H; apply in_rev in H; auto. }
  assert (Hnil : no_break []) by (split; intros []).
  induction s as [|c s IH]; intros after_cr cur l Hcur Hl.
  - cbn [splitlines_go] in Hl. destruct cur; [destruct Hl|].
    destruct Hl as [<- | []]. now apply Hrev.
  - cbn [splitlines_go] in Hl.
    destruct (Ascii.eqb c LF) eqn:E1.
    + destruct after_cr; [now apply (IH false cur)|].
      destruct Hl as [<- | Hl]; [now apply Hrev | now apply (IH false [])].
    + destruct (Ascii.eqb c CR) eqn:E2.
      * destruct Hl as [<- | Hl]; [now apply Hrev | now apply (IH true [])].
      * apply (IH false (c :: cur)); [|exact Hl].
        apply Ascii.eqb_neq in E1, E2. destruct Hcur as [H1 H2].
        split; intros [H | H]; auto.
Qed.

Lemma splitlines_no_break (s l : str) : In l (splitlines s) -> no_break l.
Proof. apply splitlines_go_no_break. split; intros []. Qed.

(** A character that is no whitespace is in a text when it is among its
    printable characters. *)
Lemma printables_in (c : ascii) (s : str) :
  isspace c = false -> In c s <-> In c (printables s).
Proof.
  intros Hc. unfold printables. rewrite filter_In. unfold printable.
  rewrite Hc. tauto.
Qed.

Lemma printables_same (c : ascii) (a b : str) :
  isspace c = false -> printables a = printables b -> In c a <-> In c b.
Proof.
  intros Hc E. split; intros H.
  - apply (printables_in c b Hc). rewrite <- E. now apply (printables_in c a Hc).
  - apply (printables_in c a Hc). rewrite E. now apply (printables_in c b Hc).
Qed.

(** What [rewrap] gives for a paragraph that is no placeholder: the
    printable characters of the text, in lines of the available width. *)
Lemma rewrap_fits (g : Globals) (t ind pref : str) :
  let cols := Z.max (term_columns g - Z.of_nat (length (ind ++ pref))) 5 in
  ~ (startswith t [chr 2] = true /\ endswith t [chr 3] = true) ->
  exists r,
    rewrap g (txt "p") t ind pref = Ok r
    /\ printables r = printables t
    /\ Forall (fun l => (Z.of_nat (length l) <= cols)%Z) (splitlines r).
Proof.
  intros cols Hph. unfold rewrap. fold cols.
  rewrite bool_decide_eq_false_2 by discriminate. cbn [orb].
  destruct (Z.of_nat (length t) <=? cols)%Z eqn:El.
  - apply Z.leb_le in El. exists t. split; [reflexivity|]. split; [reflexivity|].
    apply List.Forall_forall. intros l Hl.
    assert (length l <= length t); [|lia].
    apply (splitlines_bound (length t) [t] l); [|exact Hl].
    constructor; [lia | constructor].
  - destruct (startswith t [chr 2] && endswith t [chr 3]) eqn:Ep.
    { exfalso. apply Hph. now apply andb_true_iff in Ep. }
    destruct (fill_spec (strip (dedent t)) cols ltac:(lia))
      as (lines & _ & Hfill & Hall & Hpr).
    exists (join [LF] lines). split; [exact Hfill|]. split.
    + now rewrite Hpr, strip_printables, dedent_printables.
    + apply List.Forall_forall. intros l Hl.
      assert (length l <= Z.to_nat cols); [|lia].
      apply (splitlines_bound (Z.to_nat cols) lines l); [|exact Hl].
      eapply List.Forall_impl; [|exact Hall]. intros a [Ha _]. lia.
Qed.

Lemma join_indent (ind : str) (ls : list str) :
  ls <> [] ->
  ind ++ join (LF :: ind) ls = join [LF] (map (fun l => ind ++ l) ls).
Proof.
  intros Hne. destruct ls as [|x ls]; [contradiction|]. clear Hne.
  revert x. induction ls as [|y ls IH]; intros x; [reflexivity|].
  change (join (LF :: ind) (x :: y :: ls))
    with (x ++ (LF :: ind) ++ join (LF :: ind) (y :: ls)).
  change (join [LF] (map (fun l => ind ++ l) (x :: y :: ls)))
    with ((ind ++ x) ++ [LF] ++ join [LF] (map (fun l => ind ++ l) (y :: ls))).
  rewrite <- IH. cbn [app]. now rewrite <- !app_assoc.
Qed.

Lemma unmarked_app (a b : str) : unmarked (a ++ b) = unmarked a ++ unmarked b.
Proof. apply List.filter_app. Qed.

Lemma unmarked_join (ls : list str) :
  unmarked (join [LF] ls) = join [LF] (map unmarked ls).
Proof.
  induction ls as [|x [|y r] IH]; [reflexivity | reflexivity|].
  change (join [LF] (x :: y :: r)) with (x ++ [LF] ++ join [LF] (y :: r)).
  rewrite !unmarked_app, IH. reflexivity.
Qed.

Lemma unmarked_length (s : str) : length (unmarked s) <= length s.
Proof. apply filter_length_le. Qed.

Lemma unmarked_in (c : ascii) (s : str) : In c (unmarked s) -> In c s.
Proof. unfold unmarked. rewrite filter_In. tauto. Qed.

Lemma unmarked_blanks (s : str) : (forall c, In c s -> c = SP) -> unmarked s = s.
Proof.
  intros H. induction s as [|c s IH]; [reflexivity|].
  unfold unmarked. cbn [List.filter]. rewrite (H c (or_introl eq_refl)).
  change (negb (is_marker SP)) with true. cbv iota. f_equal.
  apply IH. intros x Hx. apply H. now right.
Qed.

Lemma in_join (c : ascii) (sep : str) (ls : list str) :
  In c (join sep ls) -> In c sep \/ exists l, In l ls /\ In c l.
Proof.
  induction ls as [|x [|y r] IH]; intros H.
  - destruct H.
  - right. exists x. split; [now left | exact H].
  - change (join sep (x :: y :: r)) with (x ++ sep ++ join sep (y :: r)) in H.
    apply in_app_or in H as [H | H]; [right; exists x; split; [now left | exact H]|].
    apply in_app_or in H as [H | H]; [now left|].
    destruct (IH H) as [H' | (l & Hl & Hc)]; [now left|].
    right. exists l. split; [now right | exact Hc].
Qed.

Lemma join_in (c : ascii) (sep : str) (ls : list str) (l : str) :
  In l ls -> In c l -> In c (join sep ls).
Proof.
  induction ls as [|x [|y r] IH]; intros Hl Hc.
  - destruct Hl.
  - destruct Hl as [-> | []]. exact Hc.
  - change (join sep (x :: y :: r)) with (x ++ sep ++ join sep (y :: r)).
    apply in_or_app. destruct Hl as [-> | Hl]; [now left|].
    right. apply in_or_app. right. now apply IH.
Qed.

(** Every character of a text that is no line break is in one of its
    lines. *)
Lemma splitlines_go_covers (c : ascii) (s : str) :
  c <> LF -> c <> CR ->
  forall after_cr cur,
    In c cur \/ In c s ->
    exists l, In l (splitlines_go after_cr cur s) /\ In c l.
Proof.
  intros Hlf Hcr. induction s as [|x s IH]; intros after_cr cur H.
  - destruct H as [H | []]. cbn [splitlines_go].
    destruct cur as [|y cur]; [destruct H|].
    exists (rev (y :: cur)). split; [now left | now apply in_rev in H].
  - cbn [splitlines_go].
    destruct (Ascii.eqb x LF) eqn:E1.
    + apply Ascii.eqb_eq in E1. subst x.
      destruct after_cr.
      * apply IH. destruct H as [H | [H | H]]; [now left | congruence | now right].
      * destruct H as [H | [H | H]]; [| congruence |].
        -- exists (rev cur). split; [now left | now apply in_rev in H].
        -- destruct (IH false [] (or_intror H)) as (l & Hl & Hc).
           exists l. split; [now right | exact Hc].
    + destruct (Ascii.eqb x CR) eqn:E2.
      * apply Ascii.eqb_eq in E2. subst x.
        destruct H as [H | [H | H]]; [| congruence |].
        -- exists (rev cur). split; [now left | now apply in_rev in H].
        -- destruct (IH true [] (or_intror H)) as (l & Hl & Hc).
           exists l. split; [now right | exact Hc].
      * apply IH. destruct H as [H | [H | H]];
          [left; now right | left; now left | now right].
Qed.

Lemma splitlines_covers (c : ascii) (s : str) :
  c <> LF -> c <> CR -> In c s ->
  exists l, In l (splitlines s) /\ In c l.
Proof.
  intros Hlf Hcr H. apply splitlines_go_covers; auto.
Qed.

Section Paragraph.

Variable style_ansi : str -> option str -> str.

(** X18: a paragraph fits the terminal.  For a paragraph node without list
    prefix and links whose text holds no escape character, is no
    admonition and no placeholder, on a terminal that has 5 columns to the
    right of the indent, the formatter appends one entry, and every line
    of that entry, without its colours, starts with the indent of the
    hierarchy level and is at most [term_columns] bytes long. *)
Theorem paragraph_fits (g : Globals) (out : list str) (t : str) (hir : Z) :
  ~ In ESC t -> paired t ->
  startswith (strip t) (txt "!!! ") = false ->
  ~ (startswith (strip t) [chr 2] = true /\ endswith (strip t) [chr 3] = true) ->
  (2 * Z.max 0 hir + 5 <= term_columns g)%Z ->
  exists entry,
    formatter_text style_ansi g out (txt "p") t [] [] hir false
    = Ok (g, out ++ [entry])
    /\ Forall (fun l => (Z.of_nat (length l) <= term_columns g)%Z
                        /\ startswith l (mul left_indent hir) = true)
              (split_nl (clean_ansi entry)).
Proof.
  intros Hesc Hpair Hno Hph Hroom.
  set (ind := mul left_indent hir).
  assert (Hind : Z.of_nat (length ind) = (2 * Z.max 0 hir)%Z).
  { subst ind. rewrite length_mul. change (length left_indent) with 2. lia. }
  assert (Hsp : forall c, In c ind -> c = SP).
  { intros c Hc. apply in_mul in Hc. vm_compute in Hc. in_cases Hc; now subst. }
  destruct (rewrap_fits g (strip t) ind [] Hph) as (r & Hr & Hpr & Hlines).
  rewrite app_nil_r in Hlines.
  assert (Hcols : Z.max (term_columns g - Z.of_nat (length ind)) 5
                  = (term_columns g - Z.of_nat (length ind))%Z) by lia.
  rewrite Hcols in Hlines.
  assert (Hsame : forall c, isspace c = false -> In c r <-> In c t).
  { intros c Hc. apply printables_same; [assumption|].
    now rewrite Hpr, strip_printables. }
  set (text := ind ++ join (LF :: ind) (splitlines r)).
  assert (Htext : forall c, isspace c = false -> In c text <-> In c t).
  { intros c Hc. rewrite <- (Hsame c Hc). subst text. split; intros Hin.
    - apply in_app_or in Hin as [Hin | Hin].
      + apply Hsp in Hin. subst. discriminate Hc.
      + apply in_join in Hin as [[Hin | Hin] | (l & Hl & Hin)].
        * subst. discriminate Hc.
        * apply Hsp in Hin. subst. discriminate Hc.
        * now apply (splitlines_in c r l).
    - destruct (splitlines_covers c r) as (l & Hl & Hcl);
        [intros ->; discriminate Hc | intros ->; discriminate Hc | exact Hin |].
      apply in_or_app. right. now apply (join_in c _ _ l). }
  assert (Hesc' : ~ In ESC text).
  { intros H. apply Hesc. now apply (Htext ESC). }
  assert (Hpair' : paired text).
  { destruct Hpair as (H1 & H2 & H3).
    repeat split; intros H;
      [ apply (Htext code_start eq_refl), H1, (Htext code_end eq_refl), H
      | apply (Htext stng_start eq_refl), H2, (Htext stng_end eq_refl), H
      | apply (Htext emph_start eq_refl), H3, (Htext emph_end eq_refl), H ]. }
  exists (col g text (T g) false). split.
  - unfold formatter_text, admonition. rewrite Hno.
    unfold mbind, result_bind.
    cbn [ad_globals ad_admon ad_t ad_pref ad_body_pref].
    rewrite bool_decide_eq_false_2
      by (unfold header_tags; cbn [map]; not_elem).
    fold ind. rewrite Hr.
    rewrite app_nil_r. cbn [app andb]. fold text.
    unfold tag_fmt_func.
    repeat (first [ rewrite bool_decide_eq_true_2 by reflexivity
                  | rewrite bool_decide_eq_false_2 by discriminate ]).
    cbv iota. destruct (show_links g); reflexivity.
  - unfold clean_ansi. rewrite <- (app_nil_r (col g text (T g) false)).
    rewrite clean_col_app by assumption. cbn [clean_go]. rewrite app_nil_r.
    assert (Hvis : exists ls,
               unmarked text = join [LF] (map (fun l => ind ++ l) ls)
               /\ ls <> []
               /\ Forall (fun l => no_break l
                                   /\ (Z.of_nat (length l)
                                       <= term_columns g
                                          - Z.of_nat (length ind))%Z) ls).
    { subst text. destruct (splitlines r) as [|x ls] eqn:El.
      - exists [[]]. cbn [join map]. rewrite !app_nil_r.
        split; [now apply unmarked_blanks|]. split; [discriminate|].
        constructor; [|constructor]. split; [split; intros [] | cbn [length]; lia].
      - exists (map unmarked (x :: ls)).
        rewrite join_indent by discriminate. rewrite unmarked_join.
        rewrite !List.map_map. split; [|split].
        + f_equal. apply map_ext. intros l.
          now rewrite unmarked_app, (unmarked_blanks ind Hsp).
        + discriminate.
        + apply List.Forall_forall. intros l Hl.
          apply in_map_iff in Hl as (l0 & <- & Hl0).
          rewrite List.Forall_forall in Hlines.
          pose proof (Hlines l0 Hl0) as Hlen.
          rewrite <- El in Hl0. split.
          * destruct (splitlines_no_break r l0 Hl0) as [H1 H2].
            split; intros H; apply unmarked_in in H; auto.
          * pose proof (unmarked_length l0). lia. }
    destruct Hvis as (ls & -> & Hne & Hall).
    rewrite split_nl_lines.
    + apply List.Forall_forall. intros l Hl.
      apply in_map_iff in Hl as (l0 & <- & Hl0).
      rewrite List.Forall_forall in Hall. destruct (Hall l0 Hl0) as [_ Hlen].
      split; [rewrite length_app; lia | apply startswith_app].
    + destruct ls; [contradiction | discriminate].
    + apply List.Forall_forall. intros l Hl.
      apply in_map_iff in Hl as (l0 & <- & Hl0).
      rewrite List.Forall_forall in Hall. destruct (Hall l0 Hl0) as [[Hlf _] _].
      intros H. apply in_app_or in H as [H | H]; [|contradiction].
      apply Hsp in H. discriminate H.
Qed.

End Paragraph.

Lemma paragraph_fits_witness :
  let g := globals0 20 true in
  let t := txt "some words to wrap at the width of the terminal" in
  exists entry,
    formatter_text (fun s _ => s) g [] (txt "p") t [] [] 2 false
    = Ok (g, [] ++ [entry])
    /\ Forall (fun l => (Z.of_nat (length l) <= term_columns g)%Z
                        /\ startswith l (mul left_indent 2) = true)
              (split_nl (clean_ansi entry)).
Proof.
  apply paragraph_fits.
  - vm_compute. intros H. in_cases H.
  - repeat split; vm_compute; intros H; in_cases H.
  - reflexivity.
  - intros [H _]. vm_compute in H. discriminate H.
  - vm_compute. discriminate.
Defined.

(** ** The prefix of a list item *)

Section ListItems.

Variable style_ansi : str -> option str -> str.

(** X19: the prefix of a list item takes its colour from the hierarchy
    level.  For an [li] node with the bullet or a number as prefix that is
    no admonition, the formatter appends one entry: the indent, the prefix
    in heading colour number [((hir - 2) mod 5) + 1], and the reflowed
    text, its further lines behind the indent and as many blanks as the
    prefix is long, all in the text colour. *)
Theorem list_prefix_colour (g : Globals) (out : list str) (t el_pref : str)
    (hir : Z) :
  el_pref <> [] -> item_prefix el_pref ->
  startswith (strip t) (txt "!!! ") = false ->
  let ind := mul left_indent hir in
  let h := heading g ((hir - 2) mod 5 + 1) in
  exists r,
    rewrap g (txt "li") (strip t) ind el_pref = Ok r
    /\ formatter_text style_ansi g out (txt "li") t el_pref [] hir false
       = Ok (g, out ++ [plain g (ind ++ col g el_pref h false
                                 ++ join (LF :: ind
                                          ++ repeat SP (length el_pref))
                                         (splitlines r))]).
Proof.
  intros Hne Hitem Hno ind h.
  destruct (rewrap_total g (txt "li") (strip t) ind el_pref) as [r Hr].
  exists r. split; [exact Hr|].
  unfold formatter_text, admonition. rewrite Hno.
  unfold mbind, result_bind.
  cbn [ad_globals ad_admon ad_t ad_pref ad_body_pref].
  destruct el_pref as [|c p]; [contradiction|].
  rewrite bool_decide_eq_false_2
    by (unfold header_tags; cbn [map]; not_elem).
  fold ind. rewrite Hr.
  rewrite heading_colour_ok
    by (pose proof (Z.mod_pos_bound (hir - 2) 5); lia).
  fold h.
  assert (Hpref : (if bool_decide (c :: p = list_pref)
                   then Ok (col g (c :: p) h false)
                   else match split1_head (c :: p) (txt ".") with
                        | Ok a => if isdigit a
                                  then Ok (col g (c :: p) h false)
                                  else Ok (c :: p)
                        | Raise e => Raise e
                        | NoFuel => NoFuel
                        end) = Ok (col g (c :: p) h false)).
  { destruct (bool_decide (c :: p = list_pref)) eqn:E; [reflexivity|].
    destruct Hitem as [Heq | (n & -> & ->)]; [|reflexivity].
    apply bool_decide_eq_false in E. contradiction. }
  rewrite Hpref. cbn [andb].
  unfold tag_fmt_func.
  repeat (first [ rewrite bool_decide_eq_true_2 by reflexivity
                | rewrite bool_decide_eq_false_2 by discriminate ]).
  cbv iota. destruct (show_links g); reflexivity.
Qed.

End ListItems.

Lemma list_prefix_colour_witness :
  let g := globals0 80 true in
  let ind := mul left_indent 4 in
  let h := heading g ((4 - 2) mod 5 + 1) in
  exists r,
    rewrap g (txt "li") (strip (txt "an item")) ind (txt "12. ") = Ok r
    /\ formatter_text (fun s _ => s) g [] (txt "li") (txt "an item")
                      (txt "12. ") [] 4 false
       = Ok (g, [] ++ [plain g (ind ++ col g (txt "12. ") h false
                                ++ join (LF :: ind
                                         ++ repeat SP (length (txt "12. ")))
                                        (splitlines r))]).
Proof.
  apply (list_prefix_colour (fun s _ => s) (globals0 80 true) []
           (txt "an item") (txt "12. ") 4).
  - discriminate.
  - right. exists (txt "12"). split; reflexivity.
  - reflexivity.
Defined.

(** ** What [set_theme] prints *)

(** X20: what [set_theme] prints.  When the request resolves to a catalog
    entry of 5 colours, the call prints one line, the name of the theme in
    low visibility, if [theme_info] is set, and nothing if it is not. *)
Theorem set_theme_info (env : gmap str str) (themes : list (str * Theme))
    (rand : Z) (theme : option str) (for_code theme_info : bool)
    (g : Globals) (k : str) (t : Theme) :
  theme_key env themes rand theme for_code = Ok (Some k) ->
  dict_get themes k = Some t ->
  length (ct t) = 5 ->
  stdout (set_theme env themes rand theme for_code theme_info g).2
  = stdout g ++ if theme_info then [theme_line g for_code k t] else [].
Proof.
  intros Hk Hget Hlen. unfold set_theme, set_theme_try.
  rewrite Hk, Hget, Hlen. cbn [Nat.eqb negb].
  destruct (ct t) as [|t0 [|t1 [|t2 [|t3 [|t4 [|]]]]]]; try discriminate Hlen.
  assert (Hbuild : forall g0, exists g1,
             build_hl_by_token g0 = Ok g1 /\ stdout g1 = stdout g0).
  { intros g0. destruct (have_pygments g0) eqn:Hp.
    - rewrite build_hl_by_token_ok by assumption. eexists. split; reflexivity.
    - rewrite build_hl_by_token_off by assumption. eexists. split; reflexivity. }
  destruct for_code, theme_info; cbn [fst snd];
    try match goal with
        | |- context [build_hl_by_token ?g0] =>
            destruct (Hbuild g0) as (g1 & Hb & Hs); rewrite Hb;
            cbn [fst snd]; rewrite Hs
        end;
    cbn [fst snd stdout set_CH set_H print]; rewrite ?app_nil_r; reflexivity.
Qed.

Lemma set_theme_info_witness :
  let themes := [(txt "x", mkTheme (txt "X") [1; 2; 3; 4; 5]%Z)] in
  let g := globals0 80 true in
  stdout (set_theme ∅ themes 0 (Some (txt "x")) false true g).2
  = stdout g ++ if true then [theme_line g false (txt "x")
                                (mkTheme (txt "X") [1; 2; 3; 4; 5]%Z)]
                else [].
Proof.
  apply set_theme_info; reflexivity.
Defined.

(** ** Headers *)

Section Headers.

Variable style_ansi : str -> option str -> str.

(** X22: a header node.  For a node with header tag [h1] to [h8] of level
    [hl] that is no admonition, the formatter appends one entry, whatever
    the hierarchy level of the node: a newline, then the reflowed text in
    heading colour number [hl], number 5 from [h6] on, every line of it
    behind [hl - 1] blanks. *)
Theorem header_rendered (g : Globals) (out : list str) (tag t : str)
    (hl hir : Z) :
  In (tag, hl) header_levels ->
  startswith (strip t) (txt "!!! ") = false ->
  let ind := mul [SP] (hl - 1) in
  exists r,
    rewrap g tag (strip t) ind [] = Ok r
    /\ formatter_text style_ansi g out tag t [] [] hir false
       = Ok (g, out ++ [LF :: low g []
                        ++ col g (ind ++ join (LF :: ind) (splitlines r))
                               (heading g (Z.min hl 5)) false]).
Proof.
  intros Hin Hno ind.
  destruct (rewrap_total g tag (strip t) ind []) as [r Hr].
  exists r. split; [exact Hr|].
  unfold formatter_text, admonition. rewrite Hno.
  unfold mbind, result_bind.
  cbn [ad_globals ad_admon ad_t ad_pref ad_body_pref].
  unfold header_levels in Hin.
  repeat (destruct Hin as [Hin | Hin]; [injection Hin as <- <- |]);
    [..| destruct Hin];
    rewrite bool_decide_eq_true_2
      by (unfold header_tags; cbn [map]; is_elem);
    match goal with
    | |- context [Z.of_nat (nat_of_ascii (nth 1 ?tg "0"%char) - 48)] =>
        let v := eval vm_compute in
                   (Z.of_nat (nat_of_ascii (nth 1 tg "0"%char) - 48)) in
        change (Z.of_nat (nat_of_ascii (nth 1 tg "0"%char) - 48)) with v
    end;
    fold ind; rewrite Hr; rewrite app_nil_r; cbn [app andb];
    unfold tag_fmt_func;
    repeat (first [ rewrite bool_decide_eq_true_2 by reflexivity
                  | rewrite bool_decide_eq_false_2 by discriminate ]);
    cbv iota; unfold Tags_h;
    rewrite heading_colour_ok by lia;
    unfold mbind, result_bind;
    destruct (show_links g); reflexivity.
Qed.

End Headers.

Lemma header_rendered_witness :
  let g := globals0 80 true in
  let ind := mul [SP] (7 - 1) in
  exists r,
    rewrap g (txt "h7") (strip (txt "A title")) ind [] = Ok r
    /\ formatter_text (fun s _ => s) g [] (txt "h7") (txt "A title") [] [] 0
                      false
       = Ok (g, [] ++ [LF :: low g []
                       ++ col g (ind ++ join (LF :: ind) (splitlines r))
                              (heading g (Z.min 7 5)) false]).
Proof.
  apply (header_rendered (fun s _ => s) (globals0 80 true) [] (txt "h7")
           (txt "A title") 7 0).
  - cbn. tauto.
  - reflexivity.
Defined.
